(** * HeartBeat-Notification: the heartbeat monitor of [main.py]

    A shallow embedding of [HeartbeatMonitor] (constructor,
    [parse_timestamp], [validate_event], [load_events],
    [group_and_sort_events], [detect_missed_heartbeats], [monitor]) and
    of [main], together with the parts of the
    Python runtime the class relies on: exceptions, JSON-like values,
    [datetime] / [timedelta] arithmetic, [datetime.fromisoformat],
    [strftime], and binary64 floating point. *)

From Stdlib Require Import ZArith QArith Qround Qabs Qpower Lia Lqa Bool List.
From Stdlib Require Import Ascii String Permutation Sorted.
From Stdlib Require SpecFloat.
Import ListNotations.

Set Warnings "-register-all".
Local Open Scope Z_scope.

(* ===================================================================== *)
(** * Exceptions *)
(* ===================================================================== *)

(** The built-in exceptions the program can meet. *)
Inductive exn : Type :=
| KeyError | TypeError | ValueError | AttributeError
| OverflowError | ZeroDivisionError.

Definition exn_eqb (a b : exn) : bool :=
  match a, b with
  | KeyError, KeyError | TypeError, TypeError | ValueError, ValueError
  | AttributeError, AttributeError | OverflowError, OverflowError
  | ZeroDivisionError, ZeroDivisionError => true
  | _, _ => false
  end.

(** A computation either returns a value or raises. *)
Inductive result (A : Type) : Type :=
| Ok (a : A)
| Raise (e : exn).
Arguments Ok {A} a.
Arguments Raise {A} e.

Definition bind {A B} (c : result A) (k : A -> result B) : result B :=
  match c with
  | Ok a => k a
  | Raise e => Raise e
  end.

Notation "x <- c ;; k" := (bind c (fun x => k))
  (at level 61, c at next level, right associativity).

(** [try: body except (E1, E2, ...): handler]. *)
Definition try_except {A} (body : result A) (caught : list exn)
    (handler : result A) : result A :=
  match body with
  | Ok a => Ok a
  | Raise e => if existsb (exn_eqb e) caught then handler else Raise e
  end.

Fixpoint mapM {A B} (f : A -> result B) (l : list A) : result (list B) :=
  match l with
  | [] => Ok []
  | x :: l' => y <- f x ;; ys <- mapM f l' ;; Ok (y :: ys)
  end.

(* ===================================================================== *)
(** * Python values *)
(* ===================================================================== *)

(** The values an event list decoded from JSON can hold: [None], booleans,
    integers, strings, lists and string-keyed dicts (kept in insertion
    order).  A string is a sequence of code points below 256, one
    character each; the text the program looks for is ASCII. *)
Inductive pyval : Type :=
| PNone
| PBool (b : bool)
| PInt (z : Z)
| PStr (s : string)
| PList (l : list pyval)
| PDict (d : list (string * pyval)).

Fixpoint dict_get {V} (k : string) (d : list (string * V)) : option V :=
  match d with
  | [] => None
  | (k', v) :: d' => if String.eqb k k' then Some v else dict_get k d'
  end.

(** [key in event] for a dict [event]. *)
Definition dict_mem {V} (k : string) (d : list (string * V)) : bool :=
  match dict_get k d with Some _ => true | None => false end.

(** [v[key]] with a string key: a dict looks the key up (KeyError when it
    is absent); a string or list wants integer indices, anything else is
    not subscriptable: TypeError in both cases. *)
Definition py_getitem (v : pyval) (key : string) : result pyval :=
  match v with
  | PDict d => match dict_get key d with
               | Some x => Ok x
               | None => Raise KeyError
               end
  | _ => Raise TypeError
  end.

(** Equality of two hashable values used as dict keys: [True == 1] and
    [False == 0] in Python. *)
Definition py_num (v : pyval) : option Z :=
  match v with
  | PBool b => Some (if b then 1 else 0)
  | PInt z => Some z
  | _ => None
  end.

Definition py_key_eqb (a b : pyval) : bool :=
  match a, b with
  | PNone, PNone => true
  | PStr s, PStr t => String.eqb s t
  | _, _ => match py_num a, py_num b with
            | Some x, Some y => x =? y
            | _, _ => false
            end
  end.

(** [hash(v)]: lists and dicts are unhashable. *)
Definition py_hashable (v : pyval) : result unit :=
  match v with
  | PList _ | PDict _ => Raise TypeError
  | _ => Ok tt
  end.

(** ** Strings *)

Definition chars (s : string) : list ascii := list_ascii_of_string s.

Definition code (c : ascii) : Z := Z.of_N (N_of_ascii c).

(** The characters [str.strip()] removes, those for which [str.isspace]
    holds: among the code points below 256 these are 9 to 13, 28 to 32,
    U+0085 and U+00A0. *)
Definition is_space (c : ascii) : bool :=
  let n := code c in
  ((9 <=? n) && (n <=? 13)) || ((28 <=? n) && (n <=? 32))
  || (n =? 133) || (n =? 160).

(** [bool(s.strip())]: some character of [s] is not white space. *)
Definition strip_nonempty (s : string) : bool :=
  existsb (fun c => negb (is_space c)) (chars s).

(** [s.endswith('Z')]. *)
Definition endswith_Z (s : string) : bool :=
  match rev (chars s) with
  | c :: _ => Ascii.eqb c "Z"%char
  | [] => false
  end.

(** [s[:-1]]. *)
Definition drop_last (s : string) : string :=
  string_of_list_ascii (removelast (chars s)).

(* ===================================================================== *)
(** * Calendar arithmetic ([datetime] module) *)
(* ===================================================================== *)

Definition MAXORDINAL : Z := 3652059.
Definition MINYEAR : Z := 1.
Definition MAXYEAR : Z := 9999.

Definition is_leap (year : Z) : bool :=
  (year mod 4 =? 0) && (negb (year mod 100 =? 0) || (year mod 400 =? 0)).

Definition days_before_year (year : Z) : Z :=
  let y := year - 1 in
  y * 365 + y / 4 - y / 100 + y / 400.

(** [_DAYS_IN_MONTH[month]]. *)
Definition DAYS_IN_MONTH (month : Z) : Z :=
  match month with
  | 1 => 31 | 2 => 28 | 3 => 31 | 4 => 30 | 5 => 31 | 6 => 30
  | 7 => 31 | 8 => 31 | 9 => 30 | 10 => 31 | 11 => 30 | 12 => 31
  | _ => -1
  end.

(** [_DAYS_BEFORE_MONTH[month]]. *)
Definition DAYS_BEFORE_MONTH (month : Z) : Z :=
  match month with
  | 1 => 0 | 2 => 31 | 3 => 59 | 4 => 90 | 5 => 120 | 6 => 151
  | 7 => 181 | 8 => 212 | 9 => 243 | 10 => 273 | 11 => 304 | 12 => 334
  | _ => -1
  end.

Definition days_in_month (year month : Z) : Z :=
  if (month =? 2) && is_leap year then 29 else DAYS_IN_MONTH month.

Definition days_before_month (year month : Z) : Z :=
  DAYS_BEFORE_MONTH month + (if (2 <? month) && is_leap year then 1 else 0).

Definition ymd2ord (year month day : Z) : Z :=
  days_before_year year + days_before_month year month + day.

Definition DI400Y : Z := 146097.
Definition DI100Y : Z := 36524.
Definition DI4Y : Z := 1461.

Definition ord2ymd (n0 : Z) : Z * Z * Z :=
  let n := n0 - 1 in
  let n400 := n / DI400Y in
  let n := n mod DI400Y in
  let year := n400 * 400 + 1 in
  let n100 := n / DI100Y in
  let n := n mod DI100Y in
  let n4 := n / DI4Y in
  let n := n mod DI4Y in
  let n1 := n / 365 in
  let n := n mod 365 in
  let year := year + n100 * 100 + n4 * 4 + n1 in
  if (n1 =? 4) || (n100 =? 4) then (year - 1, 12, 31)
  else
    let leapyear := (n1 =? 3) && (negb (n4 =? 24) || (n100 =? 3)) in
    let month := Z.shiftr (n + 50) 5 in
    let preceding :=
      DAYS_BEFORE_MONTH month + (if (2 <? month) && leapyear then 1 else 0) in
    if n <? preceding then
      let month := month - 1 in
      let preceding :=
        preceding
        - (DAYS_IN_MONTH month + (if (month =? 2) && leapyear then 1 else 0)) in
      (year, month, n - preceding + 1)
    else (year, month, n - preceding + 1).

(** ** [timedelta] *)

(** A [timedelta] is a number of microseconds; its [days] field must stay
    within +-999999999. *)
Definition US_PER_SECOND : Z := 1000000.
Definition US_PER_DAY : Z := 86400 * US_PER_SECOND.

Definition timedelta_in_range (us : Z) : bool :=
  let days := us / US_PER_DAY in
  (-999999999 <=? days) && (days <=? 999999999).

Definition mk_timedelta (us : Z) : result Z :=
  if timedelta_in_range us then Ok us else Raise OverflowError.

(** [timedelta(seconds=n)]. *)
Definition timedelta_seconds (n : Z) : result Z :=
  mk_timedelta (n * US_PER_SECOND).

(** ** [datetime] *)

(** [tzinfo] is [None] for a naive datetime and a fixed-offset [timezone]
    otherwise, kept as its [utcoffset()] in microseconds. *)
Record datetime : Type := mk_datetime {
  year : Z; month : Z; day : Z;
  hour : Z; minute : Z; second : Z; microsecond : Z;
  tzinfo : option Z
}.

(** The argument checks of the [datetime] and [timezone] constructors. *)
Definition check_date_fields (y m d : Z) : bool :=
  (MINYEAR <=? y) && (y <=? MAXYEAR) && (1 <=? m) && (m <=? 12)
  && (1 <=? d) && (d <=? days_in_month y m).

Definition check_time_fields (hh mm ss us : Z) : bool :=
  (0 <=? hh) && (hh <=? 23) && (0 <=? mm) && (mm <=? 59)
  && (0 <=? ss) && (ss <=? 59) && (0 <=? us) && (us <=? 999999).

Definition check_utcoffset (off : Z) : bool :=
  (- US_PER_DAY <? off) && (off <? US_PER_DAY).

Definition new_datetime (y m d hh mm ss us : Z) (tz : option Z)
    : result datetime :=
  if check_date_fields y m d && check_time_fields hh mm ss us
     && match tz with Some off => check_utcoffset off | None => true end
  then Ok (mk_datetime y m d hh mm ss us tz)
  else Raise ValueError.

(** Microseconds of the wall-clock reading since ordinal day 0. *)
Definition wall_us (t : datetime) : Z :=
  ((ymd2ord (year t) (month t) (day t) * 86400
    + hour t * 3600 + minute t * 60 + second t) * US_PER_SECOND)
  + microsecond t.

(** The point in time a datetime denotes: its wall clock for a naive
    one, wall clock minus offset (the UTC reading) for an aware one. *)
Definition utc_us (t : datetime) : Z :=
  wall_us t - match tzinfo t with Some off => off | None => 0 end.

(** Wall-clock fields from a microsecond count; [tzinfo] is carried. *)
Definition of_wall_us (total : Z) (tz : option Z) : datetime :=
  let days := total / US_PER_DAY in
  let rem := total mod US_PER_DAY in
  let secs := rem / US_PER_SECOND in
  let us := rem mod US_PER_SECOND in
  let '(y, m, d) := ord2ymd days in
  mk_datetime y m d (secs / 3600) ((secs mod 3600) / 60) (secs mod 60) us tz.

(** [datetime.__add__]: the sum keeps the left operand's [tzinfo]; a
    result outside years 1..9999 is an OverflowError. *)
Definition datetime_add (t : datetime) (delta : Z) : result datetime :=
  let total := wall_us t + delta in
  let days := total / US_PER_DAY in
  if (0 <? days) && (days <=? MAXORDINAL)
  then Ok (of_wall_us total (tzinfo t))
  else Raise OverflowError.

(** [datetime.__sub__] of two datetimes: a timedelta; mixing naive and
    aware operands is a TypeError. *)
Definition datetime_sub (a b : datetime) : result Z :=
  let base := wall_us a - wall_us b in
  match tzinfo a, tzinfo b with
  | None, None => Ok base
  | Some myoff, Some otoff => Ok (base + otoff - myoff)
  | _, _ => Raise TypeError
  end.

(** [a < b] on datetimes. *)
Definition datetime_lt (a b : datetime) : result bool :=
  match tzinfo a, tzinfo b with
  | None, None | Some _, Some _ => Ok (utc_us a <? utc_us b)
  | _, _ => Raise TypeError
  end.

(** [a < b] on sort keys, which are [Optional[datetime]]: [None] is
    ordered against nothing. *)
Definition key_lt (a b : option datetime) : result bool :=
  match a, b with
  | Some x, Some y => datetime_lt x y
  | _, _ => Raise TypeError
  end.

(** ** [datetime.fromisoformat] *)

(** The standard library's parser, after the grammar its documentation
    gives for Python 3.7 to 3.10,
    [YYYY-MM-DD[*HH[:MM[:SS[.fff[fff]]]][+HH:MM[:SS[.ffffff]]]]] (the
    separator [*] is any one character), followed by the range checks of
    the [datetime] and [timezone] constructors.  Every failure is a
    ValueError.  From Python 3.11 on the parser reads further ISO 8601
    notations as well (the basic format without separators, fractions of
    any length, offsets without a colon); on the texts of this grammar
    and on texts whose fields are out of range all versions agree. *)

Definition is_digit (c : ascii) : bool :=
  (48 <=? code c) && (code c <=? 57).

Fixpoint parse_digits (n : nat) (acc : Z) (l : list ascii)
    : option (Z * list ascii) :=
  match n with
  | O => Some (acc, l)
  | S n' =>
      match l with
      | c :: l' =>
          if is_digit c then parse_digits n' (10 * acc + (code c - 48)) l'
          else None
      | [] => None
      end
  end.

Definition expect (c : ascii) (l : list ascii) : option (list ascii) :=
  match l with
  | c' :: l' => if Ascii.eqb c c' then Some l' else None
  | [] => None
  end.

Definition parse_isoformat_date (l : list ascii)
    : option (Z * Z * Z * list ascii) :=
  match parse_digits 4 0 l with
  | Some (y, l1) =>
    match expect "-" l1 with
    | Some l2 =>
      match parse_digits 2 0 l2 with
      | Some (m, l3) =>
        match expect "-" l3 with
        | Some l4 =>
          match parse_digits 2 0 l4 with
          | Some (d, l5) => Some (y, m, d, l5)
          | None => None
          end
        | None => None
        end
      | None => None
      end
    | None => None
    end
  | None => None
  end.

(** [.fff] or [.ffffff] up to the end of the text, in microseconds. *)
Definition parse_fraction (l : list ascii) : option Z :=
  match List.length l with
  | 3%nat => match parse_digits 3 0 l with
             | Some (f, _) => Some (f * 1000)
             | None => None
             end
  | 6%nat => match parse_digits 6 0 l with
             | Some (f, _) => Some f
             | None => None
             end
  | _ => None
  end.

(** [HH[:MM[:SS[.fff[fff]]]]], the whole of the text. *)
Definition parse_hh_mm_ss_ff (l : list ascii) : option (Z * Z * Z * Z) :=
  match parse_digits 2 0 l with
  | None => None
  | Some (hh, []) => Some (hh, 0, 0, 0)
  | Some (hh, l1) =>
    match expect ":" l1 with
    | None => None
    | Some l2 =>
      match parse_digits 2 0 l2 with
      | None => None
      | Some (mm, []) => Some (hh, mm, 0, 0)
      | Some (mm, l3) =>
        match expect ":" l3 with
        | None => None
        | Some l4 =>
          match parse_digits 2 0 l4 with
          | None => None
          | Some (ss, []) => Some (hh, mm, ss, 0)
          | Some (ss, l5) =>
            match expect "." l5 with
            | None => None
            | Some l6 =>
              match parse_fraction l6 with
              | Some us => Some (hh, mm, ss, us)
              | None => None
              end
            end
          end
        end
      end
    end
  end.

(** Split the time text at its first ['+'] or ['-']: the clock part, and
    the sign and text of the offset when there is one. *)
Fixpoint split_tz (l : list ascii)
    : list ascii * option (bool * list ascii) :=
  match l with
  | [] => ([], None)
  | c :: l' =>
      if Ascii.eqb c "+" then ([], Some (false, l'))
      else if Ascii.eqb c "-" then ([], Some (true, l'))
      else let '(t, z) := split_tz l' in (c :: t, z)
  end.

(** The offset text [HH:MM], [HH:MM:SS] or [HH:MM:SS.ffffff], signed,
    in microseconds. *)
Definition parse_tz (negative : bool) (tzstr : list ascii) : option Z :=
  let n := List.length tzstr in
  if Nat.eqb n 5 || Nat.eqb n 8 || Nat.eqb n 15 then
    match parse_hh_mm_ss_ff tzstr with
    | Some (hh, mm, ss, us) =>
        let off := (hh * 3600 + mm * 60 + ss) * US_PER_SECOND + us in
        Some (if negative then - off else off)
    | None => None
    end
  else None.

Definition parse_isoformat_time (tstr : list ascii)
    : option (Z * Z * Z * Z * option Z) :=
  let '(timestr, tz) := split_tz tstr in
  match parse_hh_mm_ss_ff timestr with
  | None => None
  | Some (hh, mm, ss, us) =>
    match tz with
    | None => Some (hh, mm, ss, us, None)
    | Some (negative, tzstr) =>
      match parse_tz negative tzstr with
      | Some off => Some (hh, mm, ss, us, Some off)
      | None => None
      end
    end
  end.

Definition fromisoformat_str (date_string : string) : result datetime :=
  match parse_isoformat_date (chars date_string) with
  | None => Raise ValueError
  | Some (y, m, d, []) => new_datetime y m d 0 0 0 0 None
  | Some (y, m, d, _sep :: tstr) =>
    match parse_isoformat_time tstr with
    | None => Raise ValueError
    | Some (hh, mm, ss, us, tz) => new_datetime y m d hh mm ss us tz
    end
  end.

(** [datetime.fromisoformat(v)]: a TypeError unless [v] is a [str]. *)
Definition datetime_fromisoformat (v : pyval) : result datetime :=
  match v with
  | PStr s => fromisoformat_str s
  | _ => Raise TypeError
  end.

(** ** [strftime] *)

Definition digit_char (d : Z) : ascii := ascii_of_N (Z.to_N (48 + d mod 10)).

(** The last [width] decimal digits of [n], zero padded. *)
Fixpoint zero_pad (width : nat) (n : Z) : list ascii :=
  match width with
  | O => []
  | S w => zero_pad w (n / 10) ++ [digit_char n]
  end.

(** The decimal digits of [n], without padding, for [0 <= n < 10000]. *)
Definition decimal (n : Z) : list ascii :=
  if n <? 10 then zero_pad 1 n
  else if n <? 100 then zero_pad 2 n
  else if n <? 1000 then zero_pad 3 n
  else zero_pad 4 n.

(** [t.strftime('%Y-%m-%dT%H:%M:%SZ')]: the wall-clock fields of [t]
    followed by a literal [Z].  The directives are those of the C
    library: [%m], [%d], [%H], [%M] and [%S] are two-digit numbers, and
    [%Y] is the year in decimal, which the GNU C library does not pad
    (year 999 prints as [999]); from year 1000 on it has four digits on
    every platform.  [tzinfo] plays no part. *)
Definition strftime_iso_Z (t : datetime) : string :=
  string_of_list_ascii
    (decimal (year t) ++ ["-"%char] ++ zero_pad 2 (month t)
     ++ ["-"%char] ++ zero_pad 2 (day t) ++ ["T"%char]
     ++ zero_pad 2 (hour t) ++ [":"%char] ++ zero_pad 2 (minute t)
     ++ [":"%char] ++ zero_pad 2 (second t) ++ ["Z"%char]).

(* ===================================================================== *)
(** * Floating point *)
(* ===================================================================== *)

(** Python's [float] is IEEE-754 binary64.  A finite float is kept as the
    rational it denotes, and every operation is the exact operation
    followed by rounding to the nearest value with a 53-bit significand,
    ties to even.  The exponent range is left unbounded: the program's
    floats are quotients and products of integers below 2^63 and of
    [0.9], far from overflow and from the subnormal range. *)
Definition float : Type := Q.

(** Nearest integer, ties to the even one (also Python's [round(x)]). *)
Definition rhe (q : Q) : Z :=
  let f := Qfloor q in
  match (q - inject_Z f ?= 1 # 2)%Q with
  | Lt => f
  | Gt => f + 1
  | Eq => if Z.even f then f else f + 1
  end.

(** [floor (log2 x)] for [0 < x]. *)
Definition mag (x : Q) : Z :=
  let e0 := Z.log2 (Qnum x) - Z.log2 (Zpos (Qden x)) in
  if Qle_bool (2 ^ e0) x then e0 else e0 - 1.

(** Rounding to binary64. *)
Definition round53 (x : Q) : float :=
  if Qeq_bool x 0 then 0%Q
  else
    let e := mag (Qabs x) - 52 in
    Qred (inject_Z (rhe (x / 2 ^ e)) * 2 ^ e).

Definition float_of_int (z : Z) : float := round53 (inject_Z z).

(** [a / b] on two ints (true division is correctly rounded). *)
Definition int_truediv (a b : Z) : float := round53 (inject_Z a / inject_Z b).

Definition float_mul (a b : float) : float := round53 (a * b).

Definition float_div (a b : float) : result float :=
  if Qeq_bool b 0 then Raise ZeroDivisionError else Ok (round53 (a / b)).

(** [a >= b]. *)
Definition float_ge (a b : float) : bool := Qle_bool b a.

(** The literal [0.9]. *)
Definition FLOAT_0_9 : float := round53 (9 # 10).

(** [round(x)]. *)
Definition py_round (x : float) : Z := rhe x.

(** [timedelta.total_seconds()]. *)
Definition total_seconds (us : Z) : float := int_truediv us US_PER_SECOND.

(* ===================================================================== *)
(** * [class HeartbeatMonitor] *)
(* ===================================================================== *)

Record HeartbeatMonitor : Type := mk_monitor {
  expected_interval_seconds : Z;
  allowed_misses : Z
}.

(** [HeartbeatMonitor(expected_interval_seconds, allowed_misses)]. *)
Definition __init__ (expected_interval_seconds allowed_misses : Z)
    : result HeartbeatMonitor :=
  if expected_interval_seconds <=? 0 then Raise ValueError
  else if allowed_misses <=? 0 then Raise ValueError
  else Ok (mk_monitor expected_interval_seconds allowed_misses).

(** An alert: the dict [{'service': ..., 'alert_at': ...}]. *)
Record Alert : Type := mk_alert {
  service : pyval;
  alert_at : string
}.

(** [timestamp_str.endswith('Z')]: only a [str] has the method. *)
Definition py_endswith_Z (v : pyval) : result bool :=
  match v with
  | PStr s => Ok (endswith_Z s)
  | _ => Raise AttributeError
  end.

Definition parse_timestamp (timestamp_str : pyval) : result (option datetime) :=
  try_except
    (z <- py_endswith_Z timestamp_str ;;
     let timestamp_str :=
       match timestamp_str with
       | PStr s => if z then PStr (drop_last s ++ "+00:00") else PStr s
       | v => v
       end in
     t <- datetime_fromisoformat timestamp_str ;;
     Ok (Some t))
    [ValueError; AttributeError; TypeError]
    (Ok None).

Definition validate_event (event : pyval) : result bool :=
  match event with
  | PDict d =>
      if negb (dict_mem "service" d) || negb (dict_mem "timestamp" d)
      then Ok false
      else
        sv <- py_getitem event "service" ;;
        match sv with
        | PStr s =>
            if negb (strip_nonempty s) then Ok false
            else
              ts <- py_getitem event "timestamp" ;;
              t <- parse_timestamp ts ;;
              match t with
              | None => Ok false
              | Some _ => Ok true
              end
        | _ => Ok false
        end
  | _ => Ok false
  end.

(** The filter of [load_events], applied to the decoded list. *)
Fixpoint valid_events (events : list pyval) : result (list pyval) :=
  match events with
  | [] => Ok []
  | event :: rest =>
      ok <- validate_event event ;;
      tl <- valid_events rest ;;
      Ok (if ok then event :: tl else tl)
  end.

(** ** [group_and_sort_events] *)

(** [service_events]: an insertion-ordered dict from service to list. *)
Definition groups : Type := list (pyval * list pyval).

(** [if service not in d: d[service] = []] then [d[service].append(event)]. *)
Fixpoint dict_append (sv event : pyval) (d : groups) : groups :=
  match d with
  | [] => [(sv, [event])]
  | (k, l) :: d' =>
      if py_key_eqb sv k then (k, l ++ [event]) :: d'
      else (k, l) :: dict_append sv event d'
  end.

Fixpoint group_events (events : list pyval) (service_events : groups)
    : result groups :=
  match events with
  | [] => Ok service_events
  | event :: rest =>
      sv <- py_getitem event "service" ;;
      _ <- py_hashable sv ;;
      group_events rest (dict_append sv event service_events)
  end.

(** [self.parse_timestamp(e['timestamp'])]: the sort key of an event and
    the time the scanner reads from it. *)
Definition sort_key (e : pyval) : result (option datetime) :=
  ts <- py_getitem e "timestamp" ;;
  parse_timestamp ts.

(** [list.sort(key=...)]: the keys are computed first, then the list is
    sorted stably with [<] on the keys.  The sort is written as an
    insertion sort.  Any comparison sort that ends without an exception
    yields the one stable ordering, and when two keys cannot be ordered
    (a [None] key among two or more, or naive next to aware datetimes)
    every comparison sort of two or more elements meets such a pair and
    raises TypeError, so result and exception are those of [list.sort]. *)
Fixpoint insert_sorted {A} (x : option datetime * A)
    (l : list (option datetime * A)) : result (list (option datetime * A)) :=
  match l with
  | [] => Ok [x]
  | y :: l' =>
      b <- key_lt (fst y) (fst x) ;;
      if b then (r <- insert_sorted x l' ;; Ok (y :: r))
      else Ok (x :: y :: l')
  end.

Fixpoint insertion_sort {A} (l : list (option datetime * A))
    : result (list (option datetime * A)) :=
  match l with
  | [] => Ok []
  | x :: l' => s <- insertion_sort l' ;; insert_sorted x s
  end.

Definition sort_by_timestamp (l : list pyval) : result (list pyval) :=
  keys <- mapM sort_key l ;;
  sorted <- insertion_sort (combine keys l) ;;
  Ok (map snd sorted).

Definition group_and_sort_events (events : list pyval) : result groups :=
  service_events <- group_events events [] ;;
  mapM (fun g => l <- sort_by_timestamp (snd g) ;; Ok (fst g, l))
       service_events.

(** ** [detect_missed_heartbeats] *)

(** [t + timedelta(seconds=n)]. *)
Definition expected_after (t : datetime) (n : Z) : result datetime :=
  delta <- timedelta_seconds n ;;
  datetime_add t delta.

Section Detector.

Variable self : HeartbeatMonitor.

(** [current_time + delta] where [current_time] may be [None]. *)
Definition opt_add (t : option datetime) (delta : Z) : result datetime :=
  match t with
  | Some t => datetime_add t delta
  | None => Raise TypeError
  end.

(** [next_time - expected_next] where [next_time] may be [None]. *)
Definition opt_sub (t : option datetime) (u : datetime) : result Z :=
  match t with
  | Some t => datetime_sub t u
  | None => Raise TypeError
  end.

(** [time_diff >= self.expected_interval_seconds * 0.9]. *)
Definition is_late (time_diff : float) : bool :=
  float_ge time_diff
    (float_mul (float_of_int (expected_interval_seconds self)) FLOAT_0_9).

(** [round(time_diff / self.expected_interval_seconds)]. *)
Definition intervals_missed (time_diff : float) : result Z :=
  q <- float_div time_diff (float_of_int (expected_interval_seconds self)) ;;
  Ok (py_round q).

(** What one turn of the loop does: return an alert, or go on with a
    new value of [consecutive_misses]. *)
Inductive outcome : Type :=
| Alerted (a : Alert)
| Continue (consecutive_misses : Z).

(** The second half of the loop body, from [time_diff] on; [diff] is the
    timedelta [next_time - expected_next]. *)
Definition check_gap (service_name : pyval) (consecutive_misses : Z)
    (expected_next : datetime) (diff : Z) : result outcome :=
  let time_diff := total_seconds diff in
  if is_late time_diff then
    missed <- intervals_missed time_diff ;;
    let consecutive_misses := consecutive_misses + missed in
    if consecutive_misses >=? allowed_misses self then
      alert_time <- expected_after expected_next
                      (expected_interval_seconds self
                       * (allowed_misses self - 1)) ;;
      Ok (Alerted (mk_alert service_name (strftime_iso_Z alert_time)))
    else Ok (Continue consecutive_misses)
  else Ok (Continue 0).

(** The body of the loop for the pair [events[i]], [events[i + 1]]. *)
Definition scan_pair (service_name : pyval) (consecutive_misses : Z)
    (ev_i ev_next : pyval) : result outcome :=
  current_time <- sort_key ev_i ;;
  next_time <- sort_key ev_next ;;
  delta <- timedelta_seconds (expected_interval_seconds self) ;;
  expected_next <- opt_add current_time delta ;;
  diff <- opt_sub next_time expected_next ;;
  check_gap service_name consecutive_misses expected_next diff.

(** [for i in range(len(events) - 1)], from the pair at the head. *)
Fixpoint scan (service_name : pyval) (consecutive_misses : Z)
    (events : list pyval) : result (option Alert) :=
  match events with
  | ev_i :: ((ev_next :: _) as rest) =>
      o <- scan_pair service_name consecutive_misses ev_i ev_next ;;
      match o with
      | Alerted a => Ok (Some a)
      | Continue c => scan service_name c rest
      end
  | _ => Ok None
  end.

Definition detect_missed_heartbeats (events : list pyval)
    : result (option Alert) :=
  match events with
  | [] => Ok None
  | first :: _ =>
      service_name <- py_getitem first "service" ;;
      scan service_name 0 events
  end.

(** ** [monitor] *)

Fixpoint collect_alerts (service_events : groups) : result (list Alert) :=
  match service_events with
  | [] => Ok []
  | (_, service_event_list) :: rest =>
      alert <- detect_missed_heartbeats service_event_list ;;
      alerts <- collect_alerts rest ;;
      Ok (match alert with
          | Some a => a :: alerts
          | None => alerts
          end)
  end.

Definition monitor (events : list pyval) : result (list Alert) :=
  service_events <- group_and_sort_events events ;;
  collect_alerts service_events.

End Detector.

(** Building an event dict. *)
Definition event (sv ts : string) : pyval :=
  PDict [("service"%string, PStr sv); ("timestamp"%string, PStr ts)].

Definition test_monitor : HeartbeatMonitor := mk_monitor 60 3.

(** ** [load_events] *)

(** Exceptions of [open] and [json.load] that [load_events] does not
    handle, by name. *)
Inductive read_error : Type :=
| PermissionError
| IsADirectoryError
| UnicodeDecodeError
| OtherException (name : string).

(** What [open(filepath, 'r')] followed by [json.load(f)] comes to: the
    decoded document (its numbers read as integers), one of the two
    exceptions [load_events] handles, or another exception. *)
Inductive read_outcome : Type :=
| Decoded (data : pyval)
| FileNotFoundError
| JSONDecodeError (msg : string)
| ReadError (e : read_error).

(** A printed line, kept as the [print] statement it comes from and the
    values the statement interpolates.  The first four go to [stderr],
    the others to [stdout]; the lines of both are kept in the order of
    the calls, and the streams are taken to accept every line. *)
Inductive message : Type :=
| WarnUnexpectedFormat (filepath : string)
| WarnSkipping (index : nat) (event : pyval)
| ErrFileNotFound (filepath : string)
| ErrInvalidJSON (filepath : string) (msg : string)
| Usage
| UsageExample
| Loading (filepath : string)
| Loaded (n : nat)
| AlertsTriggered (n : nat)
| AlertsJson (alerts : list Alert)
| NoAlerts.

(** How a call ends: it returns, raises an exception of the monitor's
    own code, lets an exception of reading the file through, or leaves
    by [sys.exit]. *)
Inductive completion (A : Type) : Type :=
| Returned (a : A)
| Raised (e : exn)
| Failed (e : read_error)
| Exited (status : Z).
Arguments Returned {A} a.
Arguments Raised {A} e.
Arguments Failed {A} e.
Arguments Exited {A} status.

(** [for i, event in enumerate(events)]: from index [i] on, with the
    list [valid_events] built and the lines printed so far. *)
Fixpoint keep_valid (i : nat) (events valid_events : list pyval)
    (printed : list message) : list message * completion (list pyval) :=
  match events with
  | [] => (printed, Returned valid_events)
  | event :: rest =>
      match validate_event event with
      | Ok true => keep_valid (S i) rest (valid_events ++ [event]) printed
      | Ok false =>
          keep_valid (S i) rest valid_events
            (printed ++ [WarnSkipping i event])
      | Raise e => (printed, Raised e)
      end
  end.

(** [load_events(filepath)], given what reading the file comes to:
    the lines printed and the way the call ends. *)
Definition load_events (filepath : string) (read : read_outcome)
    : list message * completion (list pyval) :=
  match read with
  | Decoded data =>
      match data with
      | PDict _ => keep_valid 0 [data] [] []
      | PList events => keep_valid 0 events [] []
      | _ => ([WarnUnexpectedFormat filepath], Returned [])
      end
  | FileNotFoundError => ([ErrFileNotFound filepath], Returned [])
  | JSONDecodeError msg => ([ErrInvalidJSON filepath msg], Returned [])
  | ReadError e => ([], Failed e)
  end.

(** ** [main] *)



(* ===================================================================== *)
(** * Fixtures and notions used in the statements *)
(* ===================================================================== *)

(** ** Fixtures of the test suite *)

(** The event list of [test_malformed_events]. *)
Definition malformed_events : list pyval :=
  [ event "cache" "2025-08-04T10:00:00Z";
    PDict [("service", PStr "cache")];
    PDict [("timestamp", PStr "2025-08-04T10:01:00Z")];
    event "cache" "invalid-timestamp";
    event "" "2025-08-04T10:02:00Z";
    PNone;
    PStr "not a dict";
    event "cache" "2025-08-04T10:03:00Z" ]%string.

(** Two valid events of one service, the first without an offset. *)
Definition naive_and_aware_events : list pyval :=
  [ event "api" "2025-08-04T10:00:00";
    event "api" "2025-08-04T10:01:00Z" ].

(** The fixture of [test_working_alert_case]. *)
Definition working_alert_events : list pyval :=
  [ event "email" "2025-08-04T10:00:00Z";
    event "email" "2025-08-04T10:01:00Z";
    event "email" "2025-08-04T10:02:00Z";
    event "email" "2025-08-04T10:06:00Z" ].

(** The fixture of [test_recovery_after_misses]: two misses, two on-time
    heartbeats, two more misses; four misses in all, no alert. *)
Definition recovery_events : list pyval :=
  [ event "monitor" "2025-08-04T10:00:00Z";
    event "monitor" "2025-08-04T10:03:00Z";
    event "monitor" "2025-08-04T10:04:00Z";
    event "monitor" "2025-08-04T10:05:00Z";
    event "monitor" "2025-08-04T10:08:00Z" ].

(** The fixture of [test_single_event], next to a service that alerts. *)
Definition solo_events : list pyval :=
  [ event "db" "2025-08-04T10:00:00Z";
    event "solo" "2025-08-04T10:00:00Z";
    event "db" "2025-08-04T10:06:00Z" ].

(** The fixture of [test_unordered_input]. *)
Definition unordered_events : list pyval :=
  [ event "api" "2025-08-04T10:06:00Z";
    event "api" "2025-08-04T10:00:00Z";
    event "api" "2025-08-04T10:02:00Z";
    event "api" "2025-08-04T10:01:00Z" ].

(** The same events in chronological order. *)
Definition ordered_events : list pyval :=
  [ event "api" "2025-08-04T10:00:00Z";
    event "api" "2025-08-04T10:01:00Z";
    event "api" "2025-08-04T10:02:00Z";
    event "api" "2025-08-04T10:06:00Z" ].

(** Two events at one instant written in different offsets, and a late
    third one. *)
Definition tie_a : pyval := event "svc" "2025-08-04T10:00:00+00:00".

Definition tie_b : pyval := event "svc" "2025-08-04T11:00:00+01:00".

Definition tie_c : pyval := event "svc" "2025-08-04T10:06:00Z".

(** ** Instants and their text *)

(** An aware datetime at offset zero, whole seconds. *)
Definition utc (y m d hh mm ss : Z) : datetime :=
  mk_datetime y m d hh mm ss 0 (Some 0).

(** The UTC reading of a datetime: the same instant at offset zero. *)
Definition utc_reading (t : datetime) : datetime :=
  of_wall_us (utc_us t) (Some 0).

(** [a == b] on datetimes: the same instant, both naive or both aware. *)
Definition datetime_eqb (a b : datetime) : bool :=
  match tzinfo a, tzinfo b with
  | None, None | Some _, Some _ => utc_us a =? utc_us b
  | _, _ => false
  end.

(** The text [YYYY-MM-DDTHH:MM:SS] of six numbers. *)
Definition iso_text (y m d hh mm ss : Z) : list ascii :=
  zero_pad 4 y ++ "-"%char :: zero_pad 2 m ++ "-"%char :: zero_pad 2 d
  ++ "T"%char :: zero_pad 2 hh ++ ":"%char :: zero_pad 2 mm
  ++ ":"%char :: zero_pad 2 ss.




(** The text has the shape [dddd-dd-ddTdd:dd:ddZ]. *)
Definition iso_Z_shape (s : string) : bool :=
  match chars s with
  | [y1; y2; y3; y4; c1; m1; m2; c2; d1; d2; c3;
     h1; h2; c4; n1; n2; c5; s1; s2; z] =>
      forallb is_digit [y1; y2; y3; y4; m1; m2; d1; d2; h1; h2; n1; n2; s1; s2]
      && Ascii.eqb c1 "-" && Ascii.eqb c2 "-" && Ascii.eqb c3 "T"
      && Ascii.eqb c4 ":" && Ascii.eqb c5 ":" && Ascii.eqb z "Z"
  | _ => false
  end.

(** ** Events of a service *)

(** [e['service'] == v] (false when [e] has no service). *)
Definition service_is (v e : pyval) : bool :=
  match py_getitem e "service" with
  | Ok w => py_key_eqb w v
  | Raise _ => false
  end.

(** The events of a list whose service is [v], in order. *)
Definition events_of (v : pyval) (events : list pyval) : list pyval :=
  filter (service_is v) events.

(** Every group holds events of its own key. *)
Definition keyed (g : groups) : Prop :=
  forall k l e, In (k, l) g -> In e l -> service_is k e = true.

(** No group of a string key is longer than the number of events of
    that service seen so far. *)
Definition bounded_by (seen : list pyval) (g : groups) : Prop :=
  forall s l, In (PStr s, l) g ->
    (List.length l <= List.length (events_of (PStr s) seen))%nat.

(** An event with a string service whose timestamp parses to a datetime
    of [tzinfo] [tz]. *)
Definition well_formed (tz : option Z) (e : pyval) : Prop :=
  (exists s, py_getitem e "service" = Ok (PStr s))
  /\ exists t, sort_key e = Ok (Some t) /\ tzinfo t = tz.

(** [e['service']] when it is a string. *)
Definition service_str (e : pyval) : string :=
  match py_getitem e "service" with
  | Ok (PStr s) => s
  | _ => EmptyString
  end.

(** The wall clock of the parsed timestamp, in microseconds. *)
Definition wall_of (e : pyval) : Z :=
  match sort_key e with
  | Ok (Some t) => wall_us t
  | _ => 0
  end.

(** The sort key of an event, [None] when reading it raises. *)
Definition time_of (e : pyval) : option datetime :=
  match sort_key e with
  | Ok o => o
  | Raise _ => None
  end.

(** Events next to their sort keys. *)
Definition tagged (l : list pyval) : list (option datetime * pyval) :=
  map (fun e => (time_of e, e)) l.

(** Stable insertion sort by wall clock, without the error cases. *)
Fixpoint insert_by_wall (x : pyval) (l : list pyval) : list pyval :=
  match l with
  | [] => [x]
  | y :: l' =>
      if wall_of y <? wall_of x then y :: insert_by_wall x l'
      else x :: y :: l'
  end.

Fixpoint sort_by_wall (l : list pyval) : list pyval :=
  match l with
  | [] => []
  | x :: l' => insert_by_wall x (sort_by_wall l')
  end.

(** One step of grouping, for an event with a string service. *)
Definition add_event (g : groups) (e : pyval) : groups :=
  dict_append (PStr (service_str e)) e g.

(** [d.get(s)] on the groups. *)
Fixpoint find_group (s : string) (g : groups) : option (list pyval) :=
  match g with
  | [] => None
  | (k, l) :: g' => if py_key_eqb (PStr s) k then Some l else find_group s g'
  end.

(** The events of service [s], in order. *)
Definition of_service (s : string) (events : list pyval) : list pyval :=
  filter (fun e => String.eqb s (service_str e)) events.

(** Keys are strings and no key occurs twice. *)
Definition str_keyed (g : groups) : Prop :=
  NoDup (map fst g) /\ Forall (fun kl => exists s, fst kl = PStr s) g.

(** ** Numbers *)

(** The binary64 number nearest to nine tenths. *)
Definition C09 : Q := (8106479329266893 # 9007199254740992)%Q.

(** The integer nearest to a quotient, half-way cases to the even
    integer. *)
Definition nearest_even (n d : Z) : Z :=
  rhe (inject_Z n / inject_Z d)%Q.

(** ** Validated events *)

(** [validate_event(e)] is [True]. *)
Definition passes (e : pyval) : bool :=
  match validate_event e with
  | Ok b => b
  | Raise _ => false
  end.

(** The timestamp of the event parses to an aware datetime. *)
Definition is_aware (e : pyval) : bool :=
  match sort_key e with
  | Ok (Some t) => match tzinfo t with Some _ => true | None => false end
  | _ => false
  end.

(** Two events of one service, one with a naive and one with an aware
    timestamp. *)
Definition mixed (events : list pyval) : Prop :=
  exists e1 e2, In e1 events /\ In e2 events
    /\ py_getitem e1 "service" = py_getitem e2 "service"
    /\ is_aware e1 <> is_aware e2.

(** The indices and values [load_events] warns about. *)
Definition skipped (events : list pyval) : list (nat * pyval) :=
  filter (fun ie => negb (passes (snd ie)))
         (combine (seq 0 (List.length events)) events).

(** The timestamp of the event parses. *)
Definition timed (e : pyval) : Prop := exists t, sort_key e = Ok (Some t).

(** The service of the event is a string. *)
Definition has_service (e : pyval) : Prop :=
  exists s, py_getitem e "service" = Ok (PStr s).

(** The key is an aware datetime. *)
Definition aware_key (k : option datetime) : bool :=
  match k with
  | Some t => match tzinfo t with Some _ => true | None => false end
  | None => false
  end.

(** Keys that are datetimes, all aware or all naive, are sorted without
    an exception. *)
Definition keyed_as {A} (k : bool) (p : option datetime * A) : Prop :=
  (exists t, fst p = Some t) /\ aware_key (fst p) = k.

(** ** Order of the events of a group *)

(** Both timestamps parse and the first denotes an instant not later
    than the second. *)
Definition not_later (a b : pyval) : Prop :=
  exists ta tb, sort_key a = Ok (Some ta) /\ sort_key b = Ok (Some tb)
                /\ utc_us ta <= utc_us tb.

(** The key is a datetime that denotes the instant [v]. *)
Definition key_at (v : Z) (k : option datetime) : bool :=
  match k with
  | Some t => utc_us t =? v
  | None => false
  end.

(** The timestamp of the event parses to the instant [v]. *)
Definition at_instant (v : Z) (e : pyval) : bool := key_at v (time_of e).

(** Keys of the groups: no two are equal as dict keys. *)
Definition distinct_keys (g : groups) : Prop :=
  ForallOrdPairs (fun p q => py_key_eqb (fst q) (fst p) = false) g.

(** The tag of the first is a datetime not later than the second's. *)
Definition key_le {A} (p q : option datetime * A) : Prop :=
  exists tp tq, fst p = Some tp /\ fst q = Some tq /\ utc_us tp <= utc_us tq.

(** The fields pass the checks of the [datetime] constructor. *)
Definition valid_datetime (t : datetime) : Prop :=
  check_date_fields (year t) (month t) (day t) = true
  /\ check_time_fields (hour t) (minute t) (second t) (microsecond t) = true
  /\ match tzinfo t with
     | Some off => check_utcoffset off = true
     | None => True
     end.

(** Two events of a blank service, which fail validation, among two
    events of [db]. *)
Definition blank_and_db_events : list pyval :=
  [ event " " "2025-08-04T10:00:00Z";
    event "db" "2025-08-04T10:00:00Z";
    event " " "2025-08-04T10:08:00Z";
    event "db" "2025-08-04T10:06:00Z" ].

(** Three events of one service, the first and the last at one instant
    written in two ways. *)
Definition tied_events : list pyval :=
  [ event "api" "2025-08-04T10:01:00Z";
    event "api" "2025-08-04T10:00:00Z";
    event "api" "2025-08-04T10:01:00+00:00" ].

(** ** The gap scanner in the words of the specification *)


(** [deviation := next.timestamp - expected_next] with [expected_next :=
    current.timestamp + expected_interval], in microseconds. *)
Definition deviation (I : Z) (current next : datetime) : Z :=
  utc_us next - (utc_us current + I * US_PER_SECOND).










(* ===================================================================== *)
(** * The error monad *)
(* ===================================================================== *)

Lemma bind_ok {A B} (c : result A) (k : A -> result B) (a : A) :
  c = Ok a -> bind c k = k a.
Proof. intros ->. reflexivity. Qed.

Lemma bind_inv {A B} (c : result A) (k : A -> result B) (b : B) :
  bind c k = Ok b -> exists a, c = Ok a /\ k a = Ok b.
Proof. destruct c as [a |]; [eauto | discriminate]. Qed.

(* ===================================================================== *)
(** * The constructor *)
(* ===================================================================== *)

(** C9.  Constructing the monitor fails, with ValueError (the
    InvalidConfiguration error), exactly when the interval or the miss
    threshold is not positive; a failed construction yields no object;
    with both positive it succeeds and stores the two values unchanged. *)
Theorem init_rejects_exactly_nonpositive (i m : Z) :
  (__init__ i m = Raise ValueError <-> (i <= 0 \/ m <= 0))
  /\ ((i <= 0 \/ m <= 0) -> forall obj, __init__ i m <> Ok obj)
  /\ ((0 < i /\ 0 < m) ->
      exists obj, __init__ i m = Ok obj
                  /\ expected_interval_seconds obj = i
                  /\ allowed_misses obj = m).
Proof.
  unfold __init__.
  destruct (Z.leb_spec i 0) as [Hi | Hi];
    [| destruct (Z.leb_spec m 0) as [Hm | Hm]].
  - repeat split; intros; try discriminate; try lia; auto.
  - repeat split; intros; try discriminate; try lia; auto.
  - split; [| split].
    + split; [discriminate | lia].
    + lia.
    + intros _. eexists. repeat split.
Qed.

(** The two rejected constructions of the test suite, and an accepted one. *)
Lemma test_initialization_validation :
  __init__ 0 3 = Raise ValueError
  /\ __init__ 60 (-1) = Raise ValueError
  /\ (exists obj, __init__ 60 3 = Ok obj
                  /\ expected_interval_seconds obj = 60
                  /\ allowed_misses obj = 3).
Proof.
  split; [| split].
  - apply (proj1 (init_rejects_exactly_nonpositive 0 3)). lia.
  - apply (proj1 (init_rejects_exactly_nonpositive 60 (-1))). lia.
  - apply (proj2 (proj2 (init_rejects_exactly_nonpositive 60 3))). lia.
Defined.

(* ===================================================================== *)
(** * Malformed input *)
(* ===================================================================== *)

(** C2.  [monitor] does not validate: on the list of
    [test_malformed_events] (two valid events among six malformed ones)
    grouping reads [event['service']] of the dict that has no such key and
    raises KeyError; a list holding just [None], or just a string, raises
    TypeError.  Validation does not exclude every exception either: a
    naive and an aware timestamp are both valid, and sorting them raises
    TypeError. *)
Theorem monitor_raises_on_malformed_events :
  valid_events malformed_events
  = Ok [event "cache" "2025-08-04T10:00:00Z";
        event "cache" "2025-08-04T10:03:00Z"]
  /\ monitor test_monitor malformed_events = Raise KeyError
  /\ monitor test_monitor [PNone] = Raise TypeError
  /\ monitor test_monitor [PStr "not a dict"] = Raise TypeError
  /\ valid_events naive_and_aware_events = Ok naive_and_aware_events
  /\ monitor test_monitor naive_and_aware_events = Raise TypeError.
Proof. vm_compute. repeat split. Qed.

(** On the valid events alone the call returns, without an alert. *)
Example monitor_on_validated_malformed_events :
  (evs <- valid_events malformed_events ;; monitor test_monitor evs) = Ok [].
Proof. vm_compute. reflexivity. Qed.

(* ===================================================================== *)
(** * Rendering of the alert instant *)
(* ===================================================================== *)

(** C8.  [alert_at] is the wall clock of the alert time in the offset of
    the event before the gap, with a [Z] appended.  Two events at 10:00
    and 10:06 in offset +05:30: the alert time is 10:03 at +05:30, which
    is 04:33 UTC, and the alert says [10:03:00Z]. *)
Theorem alert_at_is_wall_clock_not_utc :
  monitor test_monitor
    [event "db" "2025-08-04T10:00:00+05:30";
     event "db" "2025-08-04T10:06:00+05:30"]
  = Ok [mk_alert (PStr "db") "2025-08-04T10:03:00Z"]
  /\ (t <- fromisoformat_str "2025-08-04T10:00:00+05:30" ;;
      expected_next <- datetime_add t (60 * US_PER_SECOND) ;;
      alert_time <- datetime_add expected_next (120 * US_PER_SECOND) ;;
      Ok (strftime_iso_Z alert_time, strftime_iso_Z (utc_reading alert_time)))
     = Ok ("2025-08-04T10:03:00Z"%string, "2025-08-04T04:33:00Z"%string).
Proof. vm_compute. split; reflexivity. Qed.

(* ===================================================================== *)
(** * Input order *)
(* ===================================================================== *)

(** C6.  Two events of one service at the same instant, written in
    different offsets, keep their input order in the stable sort; the
    later of the two is the event before the gap and its offset decides
    the text of [alert_at].  Swapping them changes the alert. *)
Theorem monitor_depends_on_order_of_ties :
  Permutation [tie_a; tie_b; tie_c] [tie_b; tie_a; tie_c]
  /\ monitor test_monitor [tie_a; tie_b; tie_c]
     = Ok [mk_alert (PStr "svc") "2025-08-04T11:03:00Z"]
  /\ monitor test_monitor [tie_b; tie_a; tie_c]
     = Ok [mk_alert (PStr "svc") "2025-08-04T10:03:00Z"].
Proof.
  split; [apply perm_swap |].
  vm_compute. split; reflexivity.
Qed.

(* ===================================================================== *)
(** * The gap scanner *)
(* ===================================================================== *)

Section Scanner.

Variable self : HeartbeatMonitor.
Variable name : pyval.

Local Abbreviation I := (expected_interval_seconds self).
Local Abbreviation M := (allowed_misses self).

(** The loop body on a pair whose two timestamps parse, once the
    expected instant and the deviation are known. *)
Lemma scan_pair_known c cur nxt t1 t2 en diff :
  sort_key cur = Ok (Some t1) ->
  sort_key nxt = Ok (Some t2) ->
  expected_after t1 I = Ok en ->
  datetime_sub t2 en = Ok diff ->
  scan_pair self name c cur nxt = check_gap self name c en diff.
Proof.
  intros H1 H2 He Hd.
  destruct (bind_inv _ _ _ He) as (delta & Ed & He').
  unfold scan_pair.
  rewrite (bind_ok _ _ _ H1), (bind_ok _ _ _ H2), (bind_ok _ _ _ Ed).
  change (opt_add (Some t1) delta) with (datetime_add t1 delta).
  rewrite (bind_ok _ _ _ He').
  change (opt_sub (Some t2) en) with (datetime_sub t2 en).
  rewrite (bind_ok _ _ _ Hd). reflexivity.
Qed.

End Scanner.

(** The fixture of [test_working_alert_case]: exactly one alert. *)
Example test_working_alert_case :
  monitor test_monitor working_alert_events
  = Ok [mk_alert (PStr "email") "2025-08-04T10:05:00Z"].
Proof. vm_compute. reflexivity. Qed.

(** A later gap that would qualify as well changes nothing. *)
Example later_gap_is_not_reported :
  monitor test_monitor
    (working_alert_events ++ [event "email" "2025-08-04T10:30:00Z"])
  = Ok [mk_alert (PStr "email") "2025-08-04T10:05:00Z"].
Proof. vm_compute. reflexivity. Qed.

(** The fixture of [test_recovery_after_misses]: no alert. *)
Example test_recovery_after_misses :
  monitor test_monitor recovery_events = Ok [].
Proof. vm_compute. reflexivity. Qed.

(* ===================================================================== *)
(** * Grouping and sorting *)
(* ===================================================================== *)

Lemma key_eqb_str_l s k : py_key_eqb (PStr s) k = true -> k = PStr s.
Proof.
  destruct k; simpl; try discriminate.
  intros H. apply String.eqb_eq in H. now subst.
Qed.

Lemma key_eqb_str_r w s : py_key_eqb w (PStr s) = true -> w = PStr s.
Proof.
  destruct w as [| b | z | t | l | d]; simpl; try discriminate.
  intros H. apply String.eqb_eq in H. now subst.
Qed.

Lemma key_eqb_str_refl s : py_key_eqb (PStr s) (PStr s) = true.
Proof. simpl. apply String.eqb_refl. Qed.

Lemma dict_append_in sv e g k l :
  In (k, l) (dict_append sv e g) ->
  In (k, l) g
  \/ (exists l0, In (k, l0) g /\ l = l0 ++ [e] /\ py_key_eqb sv k = true)
  \/ (k = sv /\ l = [e]).
Proof.
  induction g as [| [k' l'] g IH]; simpl.
  - intros [H | []]. inversion H; subst. right; right; auto.
  - destruct (py_key_eqb sv k') eqn:E; simpl.
    + intros [H | H].
      * inversion H; subst. right; left. exists l'. auto.
      * left; auto.
    + intros [H | H].
      * left; auto.
      * destruct (IH H) as [H1 | [(l0 & H1 & H2 & H3) | H1]].
        -- left; auto.
        -- right; left. exists l0. auto.
        -- right; right; auto.
Qed.

Lemma key_eqb_refl_hashable sv : py_hashable sv = Ok tt -> py_key_eqb sv sv = true.
Proof.
  destruct sv; simpl; try discriminate; intros _; auto.
  - destruct b; reflexivity.
  - apply Z.eqb_refl.
  - apply String.eqb_refl.
Qed.

Lemma events_of_snoc v seen e :
  events_of v (seen ++ [e])
  = events_of v seen ++ (if service_is v e then [e] else []).
Proof. unfold events_of. rewrite filter_app. reflexivity. Qed.

Lemma group_events_invariant events : forall g0 g seen,
  group_events events g0 = Ok g ->
  keyed g0 -> bounded_by seen g0 ->
  keyed g /\ bounded_by (seen ++ events) g.
Proof.
  induction events as [| e events IH]; intros g0 g seen Hg Hk Hb.
  - simpl in Hg. inversion Hg; subst. rewrite app_nil_r. auto.
  - simpl in Hg.
    destruct (py_getitem e "service") as [sv |] eqn:Esv; [| discriminate].
    cbn [bind] in Hg.
    destruct (py_hashable sv) as [[] |] eqn:Eh; [| discriminate].
    cbn [bind] in Hg.
    replace (seen ++ e :: events) with ((seen ++ [e]) ++ events)
      by (rewrite <- app_assoc; reflexivity).
    apply (IH _ _ _ Hg).
    + intros k l x Hin Hx.
      destruct (dict_append_in _ _ _ _ _ Hin)
        as [H | [(l0 & H1 & H2 & H3) | [H1 H2]]].
      * eapply Hk; eauto.
      * subst l. apply in_app_or in Hx. destruct Hx as [Hx | [Hx | []]].
        -- eapply Hk; eauto.
        -- subst x. unfold service_is. rewrite Esv. exact H3.
      * subst. destruct Hx as [Hx | []]. subst x.
        unfold service_is. rewrite Esv.
        now apply key_eqb_refl_hashable.
    + intros s l Hin. rewrite events_of_snoc, length_app.
      destruct (dict_append_in _ _ _ _ _ Hin)
        as [H | [(l0 & H1 & H2 & H3) | [H1 H2]]].
      * specialize (Hb s l H). lia.
      * subst l. apply key_eqb_str_r in H3. subst sv.
        assert (Hs : service_is (PStr s) e = true)
          by (unfold service_is; rewrite Esv; apply key_eqb_str_refl).
        rewrite Hs. specialize (Hb s l0 H1). rewrite length_app. simpl. lia.
      * subst sv l.
        assert (Hs : service_is (PStr s) e = true)
          by (unfold service_is; rewrite Esv; apply key_eqb_str_refl).
        rewrite Hs. simpl. lia.
Qed.

(** The sort returns a rearrangement of its input. *)
Lemma insert_sorted_perm {A} (x : option datetime * A) l r :
  insert_sorted x l = Ok r -> Permutation (x :: l) r.
Proof.
  revert r. induction l as [| y l IH]; intros r; simpl.
  - intros H. inversion H. apply Permutation_refl.
  - destruct (key_lt (fst y) (fst x)) as [[|] |]; cbn [bind]; try discriminate.
    + destruct (insert_sorted x l) as [r' |]; cbn [bind]; try discriminate.
      intros H. inversion H; subst.
      eapply perm_trans; [apply perm_swap |].
      apply perm_skip. now apply IH.
    + intros H. inversion H. apply Permutation_refl.
Qed.

Lemma insertion_sort_perm {A} (l : list (option datetime * A)) r :
  insertion_sort l = Ok r -> Permutation l r.
Proof.
  revert r. induction l as [| x l IH]; intros r; simpl.
  - intros H. inversion H. apply perm_nil.
  - destruct (insertion_sort l) as [s |]; cbn [bind]; try discriminate.
    intros H. apply insert_sorted_perm in H.
    eapply perm_trans; [apply perm_skip, IH; reflexivity | exact H].
Qed.

Lemma mapM_length {A B} (f : A -> result B) l r :
  mapM f l = Ok r -> List.length r = List.length l.
Proof.
  revert r. induction l as [| x l IH]; intros r; simpl.
  - intros H. inversion H. reflexivity.
  - destruct (f x); cbn [bind]; try discriminate.
    destruct (mapM f l); cbn [bind]; try discriminate.
    intros H. inversion H. simpl. f_equal. now apply IH.
Qed.

Lemma map_snd_combine {A B} (ks : list A) (l : list B) :
  List.length ks = List.length l -> map snd (combine ks l) = l.
Proof.
  revert l. induction ks as [| k ks IH]; intros [| x l]; simpl;
    intros H; try discriminate; auto.
  f_equal. apply IH. lia.
Qed.

Lemma sort_by_timestamp_perm l r :
  sort_by_timestamp l = Ok r -> Permutation l r.
Proof.
  unfold sort_by_timestamp.
  destruct (mapM sort_key l) as [keys |] eqn:Ek; cbn [bind]; try discriminate.
  destruct (insertion_sort (combine keys l)) as [s |] eqn:Es;
    cbn [bind]; try discriminate.
  intros H. inversion H; subst.
  apply insertion_sort_perm in Es.
  rewrite <- (map_snd_combine keys l) at 1
    by (now apply mapM_length in Ek).
  now apply Permutation_map.
Qed.

Lemma sorted_groups_in (g sorted : groups) k l :
  mapM (fun gr => l' <- sort_by_timestamp (snd gr) ;; Ok (fst gr, l')) g
    = Ok sorted ->
  In (k, l) sorted ->
  exists l0, In (k, l0) g /\ sort_by_timestamp l0 = Ok l.
Proof.
  revert sorted. induction g as [| [k0 l0] g IH]; intros sorted; simpl.
  - intros H. inversion H. intros [].
  - destruct (sort_by_timestamp l0) as [l' |] eqn:E; cbn [bind];
      try discriminate.
    destruct (mapM _ g) as [rest |]; cbn [bind]; try discriminate.
    intros H. inversion H; subst. intros [Hin | Hin].
    + inversion Hin; subst. exists l0. auto.
    + destruct (IH rest eq_refl Hin) as (l1 & H1 & H2). exists l1. auto.
Qed.

Section Alerts.

Variable self : HeartbeatMonitor.

Lemma scan_pair_alert_service name c e1 e2 a :
  scan_pair self name c e1 e2 = Ok (Alerted a) -> service a = name.
Proof.
  unfold scan_pair, check_gap.
  repeat match goal with
         | |- context [bind ?x _] => destruct x; cbn [bind]; try discriminate
         | |- context [if ?b then _ else _] => destruct b; try discriminate
         end.
  intros H. inversion H. reflexivity.
Qed.

Lemma scan_alert name l : forall c a,
  scan self name c l = Ok (Some a) ->
  service a = name /\ (2 <= List.length l)%nat.
Proof.
  induction l as [| e1 l IH]; intros c a; [discriminate |].
  destruct l as [| e2 l]; [discriminate |].
  cbn [scan].
  destruct (scan_pair self name c e1 e2) as [[a' | c'] |] eqn:E;
    cbn [bind]; try discriminate.
  - intros H. inversion H; subst. split.
    + eapply scan_pair_alert_service; eauto.
    + simpl. lia.
  - intros H. apply IH in H. destruct H as [H1 H2]. split; auto.
    simpl in *. lia.
Qed.

Lemma detect_alert l a :
  detect_missed_heartbeats self l = Ok (Some a) ->
  exists first rest,
    l = first :: rest
    /\ py_getitem first "service" = Ok (service a)
    /\ (2 <= List.length l)%nat.
Proof.
  destruct l as [| first rest]; [discriminate |].
  unfold detect_missed_heartbeats.
  destruct (py_getitem first "service") as [nm |] eqn:E; cbn [bind];
    try discriminate.
  intros H. apply scan_alert in H. destruct H as [H1 H2].
  exists first, rest. subst nm. auto.
Qed.

Lemma collect_alerts_in g : forall alerts a,
  collect_alerts self g = Ok alerts -> In a alerts ->
  exists k l, In (k, l) g /\ detect_missed_heartbeats self l = Ok (Some a).
Proof.
  induction g as [| [k l] g IH]; intros alerts a; simpl.
  - intros H. inversion H. intros [].
  - destruct (detect_missed_heartbeats self l) as [o |] eqn:E; cbn [bind];
      try discriminate.
    destruct (collect_alerts self g) as [rest |]; cbn [bind];
      try discriminate.
    intros H Hin. inversion H; subst.
    destruct o as [a0 |].
    + destruct Hin as [Hin | Hin].
      * subst. exists k, l. auto.
      * destruct (IH rest a eq_refl Hin) as (k1 & l1 & H1 & H2).
        exists k1, l1. auto.
    + destruct (IH rest a eq_refl Hin) as (k1 & l1 & H1 & H2).
      exists k1, l1. auto.
Qed.

(** When fewer than two events of the list carry the service [s], no
    alert of the returned list names [s]. *)
Lemma few_events_no_alert (events : list pyval) (s : string)
    (alerts : list Alert) (a : Alert) :
  (List.length (events_of (PStr s) events) < 2)%nat ->
  monitor self events = Ok alerts -> In a alerts ->
  service a <> PStr s.
Proof.
  intros Hfew Hmon Hin Hsv.
    unfold monitor, group_and_sort_events in Hmon.
    destruct (group_events events []) as [g |] eqn:Eg; cbn [bind] in Hmon;
      try discriminate.
    destruct (mapM _ g) as [sorted |] eqn:Es; cbn [bind] in Hmon;
      try discriminate.
    destruct (collect_alerts_in _ _ _ Hmon Hin) as (k & l & Hkl & Hdet).
    destruct (detect_alert _ _ Hdet) as (first & rest & Hl & Hfirst & Hlen).
    destruct (sorted_groups_in _ _ _ _ Es Hkl) as (l0 & Hin0 & Hsort).
    apply sort_by_timestamp_perm in Hsort.
    destruct (group_events_invariant events [] g [] Eg) as [Hkeyed Hbound].
    { intros ? ? ? []. }
    { intros ? ? []. }
    assert (Hk : k = PStr s).
    { assert (Hf : In first l0).
      { eapply Permutation_in; [apply Permutation_sym; exact Hsort |].
        subst l. left; reflexivity. }
      specialize (Hkeyed k l0 first Hin0 Hf).
      unfold service_is in Hkeyed. rewrite Hfirst, Hsv in Hkeyed.
      now apply key_eqb_str_l. }
    subst k. specialize (Hbound s l0 Hin0). simpl in Hbound.
    apply Permutation_length in Hsort. lia.
Qed.


End Alerts.


Example test_single_event :
  monitor test_monitor [event "solo" "2025-08-04T10:00:00Z"] = Ok [].
Proof. vm_compute. reflexivity. Qed.

(** C5.  [monitor] does not validate, so events that fail validation are
    grouped and scanned like any others.  Two events whose service is
    the empty string both fail [validate_event]: the service has no
    valid event, and [monitor] returns an alert for it.  On the
    validated events (there are none) no alert is returned. *)
Theorem monitor_alerts_on_invalid_events :
  validate_event (event "" "2025-08-04T10:00:00Z") = Ok false
  /\ validate_event (event "" "2025-08-04T10:06:00Z") = Ok false
  /\ valid_events [event "" "2025-08-04T10:00:00Z";
                   event "" "2025-08-04T10:06:00Z"] = Ok []
  /\ monitor test_monitor [event "" "2025-08-04T10:00:00Z";
                           event "" "2025-08-04T10:06:00Z"]
     = Ok [mk_alert (PStr "") "2025-08-04T10:03:00Z"]
  /\ (evs <- valid_events [event "" "2025-08-04T10:00:00Z";
                           event "" "2025-08-04T10:06:00Z"] ;;
      monitor test_monitor evs) = Ok [].
Proof. vm_compute. repeat split. Qed.

(* ===================================================================== *)
(** * Calendar facts *)
(* ===================================================================== *)

Ltac zlia := Z.to_euclidean_division_equations; lia.

Lemma is_leap_spec y : is_leap y = true <-> (y mod 4 = 0 /\ (y mod 100 <> 0 \/ y mod 400 = 0)).
Proof.
  unfold is_leap. rewrite andb_true_iff, orb_true_iff, negb_true_iff, !Z.eqb_eq, Z.eqb_neq. tauto.
Qed.

Lemma ymd2ord_ord2ymd n :
  match ord2ymd n with (y, m, d) => ymd2ord y m d = n end.
Proof.
  unfold ord2ymd, DI400Y, DI100Y, DI4Y.
  set (a := n - 1).
  pose proof (Z.div_mod a 146097 ltac:(lia)) as H400.
  pose proof (Z.mod_pos_bound a 146097 ltac:(lia)) as B400.
  set (n400 := a / 146097) in *. set (r400 := a mod 146097) in *.
  pose proof (Z.div_mod r400 36524 ltac:(lia)) as H100.
  pose proof (Z.mod_pos_bound r400 36524 ltac:(lia)) as B100.
  set (n100 := r400 / 36524) in *. set (r100 := r400 mod 36524) in *.
  pose proof (Z.div_mod r100 1461 ltac:(lia)) as H4.
  pose proof (Z.mod_pos_bound r100 1461 ltac:(lia)) as B4.
  set (n4 := r100 / 1461) in *. set (r4 := r100 mod 1461) in *.
  pose proof (Z.div_mod r4 365 ltac:(lia)) as H1.
  pose proof (Z.mod_pos_bound r4 365 ltac:(lia)) as B1.
  set (n1 := r4 / 365) in *. set (r1 := r4 mod 365) in *.
  assert (0 <= n100 <= 4) by zlia.
  assert (0 <= n4 <= 24) by zlia.
  assert (0 <= n1 <= 4) by zlia.
  set (y := n400 * 400 + 1 + n100 * 100 + n4 * 4 + n1).
  destruct ((n1 =? 4) || (n100 =? 4)) eqn:E.
  - unfold ymd2ord, days_before_year, days_before_month.
    assert (Hl : is_leap (y - 1) = true).
    { apply is_leap_spec. apply orb_true_iff in E. rewrite !Z.eqb_eq in E. unfold y. 
      destruct E; subst; zlia. }
    rewrite Hl. simpl. apply orb_true_iff in E. rewrite !Z.eqb_eq in E. unfold y. zlia.
  - apply orb_false_iff in E. rewrite !Z.eqb_neq in E.
    set (leapyear := (n1 =? 3) && (negb (n4 =? 24) || (n100 =? 3))).
    assert (Hl : is_leap y = leapyear).
    { unfold leapyear.
      destruct (is_leap y) eqn:El.
      - apply is_leap_spec in El. symmetry. rewrite andb_true_iff, orb_true_iff, negb_true_iff, !Z.eqb_eq, Z.eqb_neq. unfold y in El. zlia.
      - symmetry. apply not_true_iff_false. intros Hc. apply not_true_iff_false in El. apply El. apply is_leap_spec.
        rewrite andb_true_iff, orb_true_iff, negb_true_iff, !Z.eqb_eq, Z.eqb_neq in Hc. unfold y. zlia. }
    rewrite Z.shiftr_div_pow2 by zlia. change (2 ^ 5) with 32.
    pose proof (Z.div_mod (r1 + 50) 32 ltac:(lia)) as Hm.
    pose proof (Z.mod_pos_bound (r1 + 50) 32 ltac:(lia)) as Bm.
    set (m := (r1 + 50) / 32) in *.
    assert (Hm' : m = 1 \/ m = 2 \/ m = 3 \/ m = 4 \/ m = 5 \/ m = 6 \/ m = 7 \/ m = 8 \/ m = 9 \/ m = 10 \/ m = 11 \/ m = 12) by zlia.
    assert (Hdby : days_before_year y = n - 1 - r1).
    { unfold days_before_year, y. zlia. }
    unfold ymd2ord, days_before_month. 
    destruct leapyear;
      repeat (destruct Hm' as [Hm' | Hm']);
      rewrite Hm' in *; cbn -[Z.add Z.sub Z.mul];
      match goal with
      | |- context [?a <? ?b] => destruct (Z.ltb_spec a b)
      end; cbn -[Z.add Z.sub Z.mul]; rewrite ?Hl, ?Hdby; cbn; zlia.
Qed.

Lemma wall_us_of_wall_us total tz : wall_us (of_wall_us total tz) = total.
Proof.
  unfold of_wall_us.
  pose proof (ymd2ord_ord2ymd (total / US_PER_DAY)) as Ho.
  destruct (ord2ymd (total / US_PER_DAY)) as [[y m] d].
  unfold wall_us. cbn [year month day hour minute second microsecond].
  rewrite Ho. unfold US_PER_DAY, US_PER_SECOND. zlia.
Qed.

Lemma tzinfo_of_wall_us total tz : tzinfo (of_wall_us total tz) = tz.
Proof.
  unfold of_wall_us. destruct (ord2ymd (total / US_PER_DAY)) as [[y m] d].
  reflexivity.
Qed.

Lemma datetime_add_ok t delta u :
  datetime_add t delta = Ok u ->
  wall_us u = wall_us t + delta /\ tzinfo u = tzinfo t.
Proof.
  unfold datetime_add.
  destruct ((0 <? (wall_us t + delta) / US_PER_DAY)
            && ((wall_us t + delta) / US_PER_DAY <=? MAXORDINAL));
    [| discriminate].
  intros H. inversion H; subst.
  split; [apply wall_us_of_wall_us | apply tzinfo_of_wall_us].
Qed.

Lemma expected_after_ok t n u :
  expected_after t n = Ok u ->
  wall_us u = wall_us t + n * US_PER_SECOND /\ tzinfo u = tzinfo t.
Proof.
  unfold expected_after, timedelta_seconds, mk_timedelta.
  destruct (timedelta_in_range (n * US_PER_SECOND)); [| discriminate].
  cbn [bind]. apply datetime_add_ok.
Qed.

(* ===================================================================== *)
(** * Floating-point facts *)
(* ===================================================================== *)

Local Open Scope Q_scope.

(** ** Powers of two *)

Lemma pow2_pos e : 0 < 2 ^ e.
Proof. apply Qpower_0_lt. reflexivity. Qed.

Lemma pow2_add a b : 2 ^ (a + b) == 2 ^ a * 2 ^ b.
Proof. apply Qpower_plus. discriminate. Qed.

Lemma pow2_succ a : 2 ^ (a + 1) == 2 * 2 ^ a.
Proof. rewrite pow2_add. change (2 ^ 1) with 2. ring. Qed.

Lemma pow2_le a b : (a <= b)%Z -> 2 ^ a <= 2 ^ b.
Proof. intros. apply Qpower_le_compat_l; [assumption | discriminate]. Qed.

Lemma pow2_lt a b : (a < b)%Z -> 2 ^ a < 2 ^ b.
Proof. intros. apply Qpower_lt_compat_l; [assumption | reflexivity]. Qed.

Lemma pow2_lt_inv a b : 2 ^ a < 2 ^ b -> (a < b)%Z.
Proof.
  intros H. destruct (Z_lt_le_dec a b) as [|Hle]; [assumption|].
  apply pow2_le in Hle. lra.
Qed.

Lemma pow2_inject k : (0 <= k)%Z -> inject_Z (2 ^ k) == 2 ^ k.
Proof. intros. now rewrite Zpower_Qpower. Qed.


Lemma pow2_sub a b : 2 ^ (a - b) == 2 ^ a / 2 ^ b.
Proof. apply Qpower_minus. discriminate. Qed.

Lemma mag_bracket (x N D A B P : Q) :
  0 < x -> A <= N -> N < 2 * A -> B <= D -> D < 2 * B -> 0 < B ->
  x * D == N -> P * B == A ->
  (P <= x -> x < 2 * P) /\ (x < P -> P <= 2 * x).
Proof.
  intros Hx Hn1 Hn2 Hd1 Hd2 HB HxD HAB. split; intros E.
  - assert (x * B <= x * D) by (apply Qmult_le_l; lra).
    apply Qmult_lt_r with (z := B); [assumption |]. lra.
  - assert (x * D <= x * (2 * B)) by (apply Qmult_le_l; lra).
    apply Qmult_le_r with (z := B); [assumption |]. lra.
Qed.

Lemma mag_spec x : 0 < x -> 2 ^ mag x <= x /\ x < 2 ^ (mag x + 1).
Proof.
  destruct x as [n d]. intros Hx.
  assert (Hn : (0 < n)%Z) by (unfold Qlt in Hx; simpl in Hx; lia).
  pose proof (Z.log2_spec n Hn) as [Hn1 Hn2].
  pose proof (Z.log2_spec (Z.pos d) (Pos2Z.is_pos d)) as [Hd1 Hd2].
  pose proof (Z.log2_nonneg n) as Hln.
  pose proof (Z.log2_nonneg (Z.pos d)) as Hld.
  unfold mag. cbn [Qnum Qden].
  set (ln := Z.log2 n) in *. set (ld := Z.log2 (Z.pos d)) in *.
  rewrite Zle_Qle, pow2_inject in Hn1, Hd1 by assumption.
  rewrite Zlt_Qlt, pow2_inject in Hn2, Hd2 by lia.
  unfold Z.succ in *. rewrite pow2_succ in Hn2, Hd2.
  pose proof (pow2_pos ld) as HB.
  assert (HxD : (n # d) * inject_Z (Z.pos d) == inject_Z n).
  { rewrite (Qmake_Qdiv n d). field. intros Hc.
    assert (0 < inject_Z (Z.pos d)) by lra. lra. }
  assert (HAB : 2 ^ (ln - ld) * 2 ^ ld == 2 ^ ln).
  { rewrite <- pow2_add. now replace (ln - ld + ld)%Z with ln by lia. }
  destruct (mag_bracket _ _ _ _ _ _ Hx Hn1 Hn2 Hd1 Hd2 HB HxD HAB) as [K1 K2].
  destruct (Qle_bool (2 ^ (ln - ld)) (n # d)) eqn:E.
  - apply Qle_bool_iff in E. split; [exact E |].
    rewrite pow2_succ. auto.
  - assert (E' : n # d < 2 ^ (ln - ld)).
    { apply Qnot_le_lt. intros Hc. apply Qle_bool_iff in Hc. congruence. }
    replace (ln - ld - 1 + 1)%Z with (ln - ld)%Z by lia.
    split; [| exact E'].
    specialize (K2 E').
    assert (Hh : 2 ^ (ln - ld) == 2 * 2 ^ (ln - ld - 1)).
    { rewrite <- pow2_succ. now replace (ln - ld - 1 + 1)%Z with (ln - ld)%Z by lia. }
    rewrite Hh in K2. lra.
Qed.

Lemma mag_unique x e : 0 < x -> 2 ^ e <= x -> x < 2 ^ (e + 1) -> mag x = e.
Proof.
  intros Hx H1 H2. destruct (mag_spec x Hx) as [M1 M2].
  assert (mag x < e + 1)%Z by (apply pow2_lt_inv; lra).
  assert (e < mag x + 1)%Z by (apply pow2_lt_inv; lra).
  lia.
Qed.

Lemma mag_comp x y : 0 < x -> x == y -> mag x = mag y.
Proof.
  intros Hx Hxy. destruct (mag_spec x Hx) as [M1 M2].
  symmetry. apply mag_unique; lra.
Qed.

(** ** Rounding to an integer *)

Lemma rhe_comp x y : x == y -> rhe x = rhe y.
Proof.
  intros H. unfold rhe. rewrite (Qfloor_comp _ _ H).
  assert (Hc : (x - inject_Z (Qfloor y) ?= 1 # 2) = (y - inject_Z (Qfloor y) ?= 1 # 2)).
  { apply Qcompare_comp; [rewrite H |]; reflexivity. }
  rewrite Hc. reflexivity.
Qed.

Lemma rhe_cases x :
  let f := Qfloor x in
  (x - inject_Z f < 1 # 2 /\ rhe x = f)
  \/ (1 # 2 < x - inject_Z f /\ rhe x = (f + 1)%Z)
  \/ (x - inject_Z f == 1 # 2 /\ (rhe x = f \/ rhe x = (f + 1)%Z)).
Proof.
  intros f. unfold rhe. fold f.
  destruct (x - inject_Z f ?= 1 # 2) eqn:E.
  - apply Qeq_alt in E. right; right. split; [exact E |].
    destruct (Z.even f); auto.
  - apply Qlt_alt in E. left. auto.
  - apply Qgt_alt in E. right; left. auto.
Qed.

Lemma floor_bounds x : inject_Z (Qfloor x) <= x /\ x < inject_Z (Qfloor x) + 1.
Proof.
  split; [apply Qfloor_le |].
  pose proof (Qlt_floor x) as H. rewrite inject_Z_plus in H. exact H.
Qed.

Lemma rhe_error x : x - (1 # 2) <= inject_Z (rhe x) /\ inject_Z (rhe x) <= x + (1 # 2).
Proof.
  pose proof (floor_bounds x) as [F1 F2].
  destruct (rhe_cases x) as [[H1 H2] | [[H1 H2] | [H1 [H2 | H2]]]];
    rewrite H2; try rewrite inject_Z_plus; change (inject_Z 1) with 1; lra.
Qed.

Lemma rhe_near x z :
  inject_Z z - (1 # 2) < x -> x < inject_Z z + (1 # 2) -> rhe x = z.
Proof.
  intros H1 H2. pose proof (rhe_error x) as [E1 E2].
  assert (A1 : inject_Z (z + -1) < inject_Z (rhe x)).
  { rewrite inject_Z_plus. change (inject_Z (-1)) with (-1). lra. }
  assert (A2 : inject_Z (rhe x) < inject_Z (z + 1)).
  { rewrite inject_Z_plus. change (inject_Z 1) with 1. lra. }
  rewrite <- Zlt_Qlt in A1, A2. lia.
Qed.

Lemma rhe_Z z : rhe (inject_Z z) = z.
Proof. apply rhe_near; lra. Qed.

(** ** Rounding to binary64 *)

Lemma round53_eq x :
  ~ x == 0 ->
  round53 x == inject_Z (rhe (x / 2 ^ (mag (Qabs x) - 52))) * 2 ^ (mag (Qabs x) - 52).
Proof.
  intros Hx. unfold round53.
  destruct (Qeq_bool x 0) eqn:E.
  - apply Qeq_bool_iff in E. contradiction.
  - apply Qred_correct.
Qed.

Lemma round53_comp x y : x == y -> round53 x = round53 y.
Proof.
  intros H. unfold round53.
  assert (Hb : Qeq_bool x 0 = Qeq_bool y 0).
  { destruct (Qeq_bool y 0) eqn:E.
    - apply Qeq_bool_iff. apply Qeq_bool_iff in E. now rewrite H.
    - apply not_true_iff_false. intros Hc. apply Qeq_bool_iff in Hc.
      rewrite H in Hc. apply Qeq_bool_iff in Hc. congruence. }
  rewrite Hb. destruct (Qeq_bool y 0) eqn:E; [reflexivity |].
  assert (Hy : ~ y == 0).
  { intros Hc. apply Qeq_bool_iff in Hc. congruence. }
  assert (Ha : 0 < Qabs x).
  { rewrite H. apply Qabs_case; intros; lra. }
  assert (Hm : mag (Qabs x) = mag (Qabs y)).
  { apply mag_comp; [exact Ha | now rewrite H]. }
  rewrite Hm. apply Qred_complete.
  rewrite (rhe_comp (x / 2 ^ (mag (Qabs y) - 52)) (y / 2 ^ (mag (Qabs y) - 52))).
  - reflexivity.
  - now rewrite H.
Qed.

(** For [0 < x], with [e] the exponent of the last place. *)
Lemma scaled_bounds x :
  0 < x ->
  let e := (mag x - 52)%Z in
  2 ^ 52 <= x / 2 ^ e /\ x / 2 ^ e < 2 ^ 53.
Proof.
  intros Hx e. destruct (mag_spec x Hx) as [M1 M2].
  pose proof (pow2_pos e) as He.
  assert (E1 : 2 ^ mag x == 2 ^ 52 * 2 ^ e).
  { rewrite <- pow2_add. unfold e. now replace (52 + (mag x - 52))%Z with (mag x) by lia. }
  assert (E2 : 2 ^ (mag x + 1) == 2 ^ 53 * 2 ^ e).
  { rewrite <- pow2_add. unfold e. now replace (53 + (mag x - 52))%Z with (mag x + 1)%Z by lia. }
  split.
  - apply Qle_shift_div_l; [exact He |]. lra.
  - apply Qlt_shift_div_r; [exact He |]. lra.
Qed.

Lemma mag_abs_pos x : 0 < x -> mag (Qabs x) = mag x.
Proof.
  intros Hx. apply mag_comp.
  - apply Qabs_case; intros; lra.
  - apply Qabs_pos. lra.
Qed.

Lemma mag_abs_neg x : x < 0 -> mag (Qabs x) = mag (- x).
Proof.
  intros Hx. apply mag_comp.
  - apply Qabs_case; intros; lra.
  - apply Qabs_neg. lra.
Qed.

Lemma round53_pos x : 0 < x -> 0 < round53 x.
Proof.
  intros Hx. rewrite round53_eq by lra.
  rewrite (mag_abs_pos x) by lra.
  destruct (scaled_bounds x Hx) as [S1 S2].
  pose proof (pow2_pos (mag x - 52)) as He.
  pose proof (rhe_error (x / 2 ^ (mag x - 52))) as [E1 E2].
  change (2 ^ 52) with 4503599627370496 in S1.
  apply Qmult_lt_0_compat; [lra | exact He].
Qed.

Lemma round53_neg x : x < 0 -> round53 x < 0.
Proof.
  intros Hx. rewrite round53_eq by lra.
  rewrite (mag_abs_neg x) by lra.
  assert (Hx' : 0 < - x) by lra.
  destruct (scaled_bounds (- x) Hx') as [S1 S2].
  pose proof (pow2_pos (mag (- x) - 52)) as He.
  set (e := (mag (- x) - 52)%Z) in *.
  pose proof (rhe_error (x / 2 ^ e)) as [E1 E2].
  change (2 ^ 52) with 4503599627370496 in S1.
  assert (Hd : - x / 2 ^ e == - (x / 2 ^ e)) by (field; lra).
  rewrite Hd in S1.
  assert (Hr : inject_Z (rhe (x / 2 ^ e)) < 0) by lra.
  setoid_replace 0 with (0 * 2 ^ e) by ring.
  apply Qmult_lt_r; assumption.
Qed.

Lemma round53_near x N :
  0 < x ->
  inject_Z N - (1 # 2) < x / 2 ^ (mag x - 52) ->
  x / 2 ^ (mag x - 52) < inject_Z N + (1 # 2) ->
  round53 x == inject_Z N * 2 ^ (mag x - 52).
Proof.
  intros Hx H1 H2. rewrite round53_eq by lra.
  rewrite (mag_abs_pos x Hx). now rewrite (rhe_near _ N H1 H2).
Qed.

(** A value with a significand below 2^53 is not changed. *)
Lemma round53_exact m k :
  (0 < m < 2 ^ 53)%Z -> round53 (inject_Z m * 2 ^ k) == inject_Z m * 2 ^ k.
Proof.
  intros [Hm1 Hm2].
  pose proof (pow2_pos k) as Hk.
  assert (Hm1' : 0 < inject_Z m) by (rewrite Zlt_Qlt in Hm1; exact Hm1).
  assert (Hm2' : inject_Z m < 2 ^ 53).
  { rewrite Zlt_Qlt in Hm2. rewrite pow2_inject in Hm2 by lia. exact Hm2. }
  set (x := inject_Z m * 2 ^ k).
  assert (Hx : 0 < x) by (apply Qmult_lt_0_compat; assumption).
  destruct (mag_spec x Hx) as [M1 M2].
  assert (Hlt : x < 2 ^ (53 + k)).
  { rewrite pow2_add. unfold x. apply Qmult_lt_r; assumption. }
  assert (He : (mag x - 52 <= k)%Z).
  { assert (mag x < 53 + k)%Z by (apply pow2_lt_inv; lra). lia. }
  set (e := (mag x - 52)%Z) in *.
  pose proof (pow2_pos e) as Hpe.
  assert (Hj : 2 ^ k == inject_Z (2 ^ (k - e)) * 2 ^ e).
  { rewrite pow2_inject by lia. rewrite <- pow2_add.
    now replace (k - e + e)%Z with k by lia. }
  assert (Hs : x / 2 ^ e == inject_Z (m * 2 ^ (k - e))).
  { unfold x. rewrite Hj, inject_Z_mult. field. lra. }
  rewrite (round53_near x (m * 2 ^ (k - e)) Hx); fold e.
  - unfold x. rewrite Hj, inject_Z_mult. ring.
  - rewrite Hs. lra.
  - rewrite Hs. lra.
Qed.

Lemma round53_exact_Z z :
  (0 <= z < 2 ^ 53)%Z -> round53 (inject_Z z) == inject_Z z.
Proof.
  intros [Hz1 Hz2]. destruct (Z.eq_dec z 0) as [-> | Hnz]; [reflexivity |].
  rewrite (round53_comp (inject_Z z) (inject_Z z * 2 ^ 0))
    by (change (2 ^ 0) with 1; ring).
  rewrite round53_exact by lia. change (2 ^ 0) with 1. ring.
Qed.

(** The relative error of rounding is at most 2^-53. *)
Lemma round53_error x :
  0 < x ->
  x - x * (1 # 9007199254740992) <= round53 x
  /\ round53 x <= x + x * (1 # 9007199254740992).
Proof.
  intros Hx. rewrite round53_eq by lra. rewrite (mag_abs_pos x Hx).
  destruct (scaled_bounds x Hx) as [S1 _].
  pose proof (pow2_pos (mag x - 52)) as He.
  pose proof (rhe_error (x / 2 ^ (mag x - 52))) as [E1 E2].
  assert (Hxe : x == (x / 2 ^ (mag x - 52)) * 2 ^ (mag x - 52)) by (field; lra).
  change (2 ^ 52) with 4503599627370496 in S1.
  revert S1 E1 E2 Hxe He.
  generalize (inject_Z (rhe (x / 2 ^ (mag x - 52)))).
  generalize (x / 2 ^ (mag x - 52)). generalize (2 ^ (mag x - 52)).
  intros p u r S1 E1 E2 Hxe He.
  assert (L0 : 4503599627370496 * p <= u * p) by (apply Qmult_le_r; assumption).
  assert (L1 : (u - (1 # 2)) * p <= r * p) by (apply Qmult_le_r; assumption).
  assert (L2 : r * p <= (u + (1 # 2)) * p) by (apply Qmult_le_r; assumption).
  split; lra.
Qed.

Lemma small_excess (zq eta p : Q) :
  0 <= eta ->
  zq + eta < 9007199254740992 * p -> eta * 18014398509481984 <= zq ->
  eta < (1 # 2) * p.
Proof. intros. lra. Qed.

(** An integer plus a small excess rounds to the integer. *)
Lemma round53_int_plus z eta :
  (0 < z)%Z -> 0 <= eta -> inject_Z z + eta < 2 ^ 53 ->
  eta * 2 ^ 54 <= inject_Z z ->
  round53 (inject_Z z + eta) == inject_Z z.
Proof.
  intros Hz Heta Hlt Hsmall.
  assert (Hz' : 0 < inject_Z z) by (rewrite Zlt_Qlt in Hz; exact Hz).
  set (x := inject_Z z + eta) in *.
  assert (Hx : 0 < x) by (unfold x; lra).
  destruct (mag_spec x Hx) as [M1 M2].
  assert (He : (mag x - 52 <= 0)%Z).
  { assert (mag x < 53)%Z by (apply pow2_lt_inv; lra). lia. }
  set (e := (mag x - 52)%Z) in *.
  pose proof (pow2_pos e) as Hpe.
  assert (Hj : inject_Z (2 ^ (- e)) * 2 ^ e == 1).
  { rewrite pow2_inject by lia. rewrite <- pow2_add.
    now replace (- e + e)%Z with 0%Z by lia. }
  assert (Hup : 2 ^ (mag x + 1) == 2 ^ 53 * 2 ^ e).
  { rewrite <- pow2_add. unfold e.
    now replace (53 + (mag x - 52))%Z with (mag x + 1)%Z by lia. }
  change (2 ^ 53) with 9007199254740992 in *.
  change (2 ^ 54) with 18014398509481984 in *.
  assert (Hs : x / 2 ^ e == inject_Z (z * 2 ^ (- e)) + eta / 2 ^ e).
  { unfold x. rewrite inject_Z_mult.
    setoid_replace (inject_Z z * inject_Z (2 ^ (- e)))
      with (inject_Z z * (inject_Z (2 ^ (- e)) * 2 ^ e) / 2 ^ e) by (field; lra).
    rewrite Hj. field. lra. }
  assert (Hq : eta / 2 ^ e < 1 # 2).
  { apply Qlt_shift_div_r; [exact Hpe |].
    apply (small_excess (inject_Z z)); [exact Heta | | exact Hsmall].
    rewrite <- Hup. exact M2. }
  assert (Hq0 : 0 <= eta / 2 ^ e).
  { apply Qle_shift_div_l; [exact Hpe |]. lra. }
  rewrite (round53_near x (z * 2 ^ (- e)) Hx); fold e.
  - rewrite inject_Z_mult.
    setoid_replace (inject_Z z * inject_Z (2 ^ (- e)) * 2 ^ e)
      with (inject_Z z * (inject_Z (2 ^ (- e)) * 2 ^ e)) by ring.
    rewrite Hj. ring.
  - rewrite Hs. lra.
  - rewrite Hs. lra.
Qed.

(** ** The program's float expressions on whole seconds *)

Lemma inject_Z_pos z : (0 < z)%Z -> 0 < inject_Z z.
Proof. intros H. change 0 with (inject_Z 0). now rewrite <- Zlt_Qlt. Qed.

Lemma inject_Z_neg z : (z < 0)%Z -> inject_Z z < 0.
Proof. intros H. change 0 with (inject_Z 0). now rewrite <- Zlt_Qlt. Qed.

Lemma FLOAT_0_9_value : FLOAT_0_9 = C09.
Proof. vm_compute. reflexivity. Qed.

Lemma total_seconds_whole d :
  total_seconds (d * US_PER_SECOND) = round53 (inject_Z d).
Proof.
  unfold total_seconds, int_truediv, US_PER_SECOND. apply round53_comp.
  rewrite inject_Z_mult. field.
Qed.

Section WholeSeconds.

Variable self : HeartbeatMonitor.
Local Abbreviation I := (expected_interval_seconds self).

Hypothesis I_pos : (0 < I)%Z.
Hypothesis I_small : (I < 2 ^ 48)%Z.

Lemma I_bounds : 0 < inject_Z I /\ inject_Z I < 281474976710656.
Proof.
  split.
  - now apply inject_Z_pos.
  - change 281474976710656 with (inject_Z (2 ^ 48)). now rewrite <- Zlt_Qlt.
Qed.

Lemma float_of_int_I : float_of_int I == inject_Z I.
Proof. unfold float_of_int. apply round53_exact_Z. lia. Qed.

Lemma threshold_eq :
  float_mul (float_of_int I) FLOAT_0_9 = round53 (inject_Z I * C09).
Proof.
  unfold float_mul. apply round53_comp.
  rewrite float_of_int_I, FLOAT_0_9_value. reflexivity.
Qed.

Lemma threshold_pos : 0 < round53 (inject_Z I * C09).
Proof.
  apply round53_pos. destruct I_bounds. unfold C09.
  apply Qmult_lt_0_compat; [assumption | reflexivity].
Qed.

Lemma threshold_bounds :
  let x := inject_Z I * C09 in
  x - x * (1 # 9007199254740992) <= round53 x
  /\ round53 x <= x + x * (1 # 9007199254740992).
Proof.
  apply round53_error. destruct I_bounds. unfold C09.
  apply Qmult_lt_0_compat; [assumption | reflexivity].
Qed.

Lemma threshold_at_tolerance d :
  (0 < d < 2 ^ 48)%Z -> (10 * d = 9 * I)%Z ->
  round53 (inject_Z I * C09) == inject_Z d.
Proof.
  intros Hd Heq. destruct I_bounds as [Ib1 Ib2].
  assert (Hdq : 0 < inject_Z d) by (apply inject_Z_pos; lia).
  assert (Hq : 10 * inject_Z d == 9 * inject_Z I).
  { change 10 with (inject_Z 10). change 9 with (inject_Z 9).
    rewrite <- !inject_Z_mult. now rewrite Heq. }
  rewrite (round53_comp _ (inject_Z d + inject_Z I * (1 # 45035996273704960))).
  - apply round53_int_plus.
    + lia.
    + lra.
    + change (2 ^ 53) with 9007199254740992. lra.
    + change (2 ^ 54) with 18014398509481984. lra.
  - unfold C09. lra.
Qed.

Lemma is_late_whole d :
  (- 2 ^ 48 < d < 2 ^ 48)%Z ->
  is_late self (total_seconds (d * US_PER_SECOND)) = true
  <-> (9 * I <= 10 * d)%Z.
Proof.
  intros Hd. unfold is_late, float_ge.
  rewrite threshold_eq, total_seconds_whole, Qle_bool_iff.
  pose proof threshold_pos as Tp. pose proof threshold_bounds as [T1 T2].
  destruct I_bounds as [Ib1 Ib2].
  cbv zeta in T1, T2.
  fold C09 in *.
  destruct (Z_le_gt_dec d 0) as [Hneg | Hpos].
  - (* not later than expected *)
    split; [| lia]. intros Hle. exfalso.
    destruct (Z.eq_dec d 0) as [-> | Hnz].
    + change (round53 (inject_Z 0)) with 0 in Hle. lra.
    + assert (inject_Z d < 0) by (apply inject_Z_neg; lia).
      pose proof (round53_neg (inject_Z d) H). lra.
  - rewrite (round53_exact_Z d) by lia.
    assert (Hdq : 0 < inject_Z d) by (apply inject_Z_pos; lia).
    destruct (Z_lt_le_dec (10 * d) (9 * I)) as [Hlt | Hge].
    + (* below the tolerance *)
      split; [| lia]. intros Hle. exfalso.
      assert (Hq : 10 * inject_Z d + 1 <= 9 * inject_Z I).
      { change 10 with (inject_Z 10). change 9 with (inject_Z 9).
        change 1 with (inject_Z 1).
        rewrite <- !inject_Z_mult, <- inject_Z_plus, <- Zle_Qle. lia. }
      unfold C09 in *. lra.
    + split; [intros _; exact Hge |]. intros _.
      destruct (Z.eq_dec (10 * d) (9 * I)) as [Heq | Hne].
      * (* exactly at the tolerance *)
        assert (Hq : 10 * inject_Z d == 9 * inject_Z I).
        { change 10 with (inject_Z 10). change 9 with (inject_Z 9).
          rewrite <- !inject_Z_mult. now rewrite Heq. }
        rewrite (threshold_at_tolerance d) by lia. lra.
      * assert (Hq : 9 * inject_Z I + 1 <= 10 * inject_Z d).
        { change 10 with (inject_Z 10). change 9 with (inject_Z 9).
          change 1 with (inject_Z 1).
          rewrite <- !inject_Z_mult, <- inject_Z_plus, <- Zle_Qle. lia. }
        unfold C09 in *. lra.
Qed.

(** Rounding the quotient of two integers to binary64 does not change
    the integer nearest to it. *)
Lemma rhe_round53_quotient d :
  (0 < d < 2 ^ 52)%Z ->
  rhe (round53 (inject_Z d / inject_Z I)) = rhe (inject_Z d / inject_Z I).
Proof.
  intros Hd. destruct I_bounds as [Ib1 _].
  assert (Hdq : 0 < inject_Z d) by (apply inject_Z_pos; lia).
  assert (Hdq' : inject_Z d < 4503599627370496).
  { change 4503599627370496 with (inject_Z (2 ^ 52)). rewrite <- Zlt_Qlt. lia. }
  set (q := inject_Z d / inject_Z I).
  set (w := / inject_Z I).
  assert (Hw : 0 < w) by (apply Qinv_lt_0_compat; exact Ib1).
  assert (HIw : inject_Z I * w == 1) by (unfold w; field; lra).
  assert (Hqw : q == inject_Z d * w) by (unfold q, w; field; lra).
  assert (HqI : q * inject_Z I == inject_Z d) by (unfold q; field; lra).
  assert (Hq : 0 < q) by (rewrite Hqw; apply Qmult_lt_0_compat; assumption).
  destruct (round53_error q Hq) as [R1 R2].
  assert (Herr : q * (1 # 9007199254740992) < w * (1 # 2)).
  { assert (inject_Z d * w < 4503599627370496 * w)
      by (apply Qmult_lt_r; assumption).
    rewrite Hqw. lra. }
  pose proof (floor_bounds q) as [F1 F2].
  set (f := Qfloor q) in *.
  assert (Hf0 : (0 <= f)%Z).
  { assert (inject_Z (-1) < inject_Z f).
    { change (inject_Z (-1)) with (-1). lra. }
    rewrite <- Zlt_Qlt in H. lia. }
  (* the remainder of the division, as an integer *)
  set (r := (d + - (f * I))%Z).
  assert (Hr : inject_Z r == (q - inject_Z f) * inject_Z I).
  { unfold r. rewrite inject_Z_plus, inject_Z_opp, inject_Z_mult.
    rewrite <- HqI. ring. }
  assert (Hrw : q - inject_Z f == inject_Z r * w).
  { rewrite Hr. 
    setoid_replace ((q - inject_Z f) * inject_Z I * w)
      with ((q - inject_Z f) * (inject_Z I * w)) by ring.
    rewrite HIw. ring. }
  assert (HIq : inject_Z I == inject_Z I * 1) by ring.
  assert (HI1 : 1 <= inject_Z I).
  { change 1 with (inject_Z 1). rewrite <- Zle_Qle. lia. }
  assert (Hw1 : w <= 1).
  { assert (1 * w <= inject_Z I * w) by (apply Qmult_le_r; assumption).
    lra. }
  pose proof (rhe_cases q) as Hc. cbv zeta in Hc. fold f in Hc.
  destruct Hc as [[H1 H2] | [[H1 H2] | [H1 _]]].
  - (* below the half *)
    rewrite H2. apply rhe_near.
    + lra.
    + assert (Hz : (2 * r + 1 <= I)%Z).
      { assert (inject_Z (2 * r) < inject_Z I).
        { rewrite inject_Z_mult, Hr. change (inject_Z 2) with 2.
          assert ((q - inject_Z f) * inject_Z I < (1 # 2) * inject_Z I)
            by (apply Qmult_lt_r; assumption).
          lra. }
        rewrite <- Zlt_Qlt in H. lia. }
      rewrite Zle_Qle, inject_Z_plus, inject_Z_mult in Hz.
      change (inject_Z 2) with 2 in Hz. change (inject_Z 1) with 1 in Hz.
      assert ((2 * inject_Z r + 1) * w <= inject_Z I * w)
        by (apply Qmult_le_r; assumption).
      lra.
  - (* above the half *)
    rewrite H2. apply rhe_near.
    + assert (Hz : (I + 1 <= 2 * r)%Z).
      { assert (inject_Z I < inject_Z (2 * r)).
        { rewrite inject_Z_mult, Hr. change (inject_Z 2) with 2.
          assert ((1 # 2) * inject_Z I < (q - inject_Z f) * inject_Z I)
            by (apply Qmult_lt_r; assumption).
          lra. }
        rewrite <- Zlt_Qlt in H. lia. }
      rewrite Zle_Qle, inject_Z_plus, inject_Z_mult in Hz.
      change (inject_Z 2) with 2 in Hz. change (inject_Z 1) with 1 in Hz.
      assert ((inject_Z I + 1) * w <= (2 * inject_Z r) * w)
        by (apply Qmult_le_r; assumption).
      rewrite (inject_Z_plus f 1). change (inject_Z 1) with 1. lra.
    + rewrite (inject_Z_plus f 1). change (inject_Z 1) with 1. lra.
  - (* a tie: the quotient is a half-integer, hence a float *)
    apply rhe_comp.
    assert (Hh : q == inject_Z (2 * f + 1) * 2 ^ (-1)).
    { rewrite inject_Z_plus, inject_Z_mult.
      change (inject_Z 2) with 2. change (inject_Z 1) with 1.
      change (2 ^ (-1)) with (1 # 2). lra. }
    rewrite (round53_comp _ _ Hh), round53_exact.
    + symmetry. exact Hh.
    + split; [lia |].
      assert (inject_Z f < inject_Z (2 ^ 52)).
      { change (inject_Z (2 ^ 52)) with 4503599627370496.
        assert (q <= inject_Z d).
        { assert (q * 1 <= q * inject_Z I) by (apply Qmult_le_l; assumption).
          lra. }
        lra. }
      rewrite <- Zlt_Qlt in H. lia.
Qed.

(** [intervals_missed] on a positive whole number of seconds. *)
Lemma intervals_missed_whole d :
  (0 < d < 2 ^ 52)%Z ->
  intervals_missed self (total_seconds (d * US_PER_SECOND))
  = Ok (rhe (inject_Z d / inject_Z I)).
Proof.
  intros Hd. destruct I_bounds as [Ib1 _].
  unfold intervals_missed, float_div.
  pose proof float_of_int_I as HI.
  destruct (Qeq_bool (float_of_int I) 0) eqn:E.
  - apply Qeq_bool_iff in E. rewrite HI in E. lra.
  - cbn [bind]. unfold py_round. f_equal.
    rewrite total_seconds_whole.
    rewrite <- rhe_round53_quotient by exact Hd.
    f_equal. apply round53_comp.
    rewrite HI, (round53_exact_Z d) by lia. reflexivity.
Qed.

End WholeSeconds.

(** A negative deviation is never late, whatever the interval. *)
Lemma is_late_negative self us :
  (0 < expected_interval_seconds self)%Z -> (us < 0)%Z ->
  is_late self (total_seconds us) = false.
Proof.
  intros HI Hus.
  unfold is_late, float_ge, float_mul, float_of_int, total_seconds,
    int_truediv, US_PER_SECOND.
  apply not_true_iff_false. intros Hc. apply Qle_bool_iff in Hc.
  assert (H1 : round53 (inject_Z us / inject_Z 1000000) < 0).
  { apply round53_neg. apply Qlt_shift_div_r; [reflexivity |].
    rewrite Qmult_0_l. now apply inject_Z_neg. }
  assert (H2 : 0 < round53 (round53 (inject_Z (expected_interval_seconds self))
                            * FLOAT_0_9)).
  { apply round53_pos. apply Qmult_lt_0_compat.
    - apply round53_pos. now apply inject_Z_pos.
    - rewrite FLOAT_0_9_value. reflexivity. }
  lra.
Qed.

Lemma nearest_even_is_nearest n d :
  (0 < d)%Z -> (2 * Z.abs (nearest_even n d * d - n) <= d)%Z.
Proof.
  intros Hd. unfold nearest_even.
  pose proof (inject_Z_pos d Hd) as Hdq.
  pose proof (rhe_error (inject_Z n / inject_Z d)) as [E1 E2].
  set (k := rhe (inject_Z n / inject_Z d)) in *.
  assert (Hq : inject_Z n / inject_Z d * inject_Z d == inject_Z n)
    by (field; lra).
  assert (L1 : (inject_Z n / inject_Z d - (1 # 2)) * inject_Z d
               <= inject_Z k * inject_Z d)
    by (apply Qmult_le_r; assumption).
  assert (L2 : inject_Z k * inject_Z d
               <= (inject_Z n / inject_Z d + (1 # 2)) * inject_Z d)
    by (apply Qmult_le_r; assumption).
  revert Hq L1 L2. generalize (inject_Z n / inject_Z d). intros q Hq L1 L2.
  assert (A1 : inject_Z (2 * n + - d) <= inject_Z (2 * (k * d))).
  { rewrite inject_Z_plus, inject_Z_opp, !inject_Z_mult.
    change (inject_Z 2) with 2. lra. }
  assert (A2 : inject_Z (2 * (k * d)) <= inject_Z (2 * n + d)).
  { rewrite inject_Z_plus, !inject_Z_mult. change (inject_Z 2) with 2. lra. }
  rewrite <- Zle_Qle in A1, A2. lia.
Qed.

Local Close Scope Q_scope.

(** ** Agreement with the Standard Library's IEEE-754 specification *)

(** [SpecFloat] at precision 53 and maximal exponent 1024 is binary64.
    On the values below, conversion, product and quotient computed there
    are the ones of [round53]. *)
Module Binary64.

Definition of_Z (z : Z) : SpecFloat.spec_float :=
  SpecFloat.binary_normalize 53 1024 z 0 false.

Definition mul : SpecFloat.spec_float -> SpecFloat.spec_float
                 -> SpecFloat.spec_float := SpecFloat.SFmul 53 1024.

Definition div : SpecFloat.spec_float -> SpecFloat.spec_float
                 -> SpecFloat.spec_float := SpecFloat.SFdiv 53 1024.

Definition value (x : SpecFloat.spec_float) : option Q :=
  match x with
  | SpecFloat.S754_zero _ => Some 0%Q
  | SpecFloat.S754_finite s m e =>
      Some (Qred (inject_Z (if s then Z.neg m else Z.pos m) * 2 ^ e)%Q)
  | _ => None
  end.

(** [a / b] and [a * 0.9] agree for all [1 <= a, b <= n]. *)
Definition agree_on (a b : Z) : bool :=
  match value (div (of_Z a) (of_Z b)),
        value (mul (of_Z a) (div (of_Z 9) (of_Z 10))) with
  | Some q, Some p =>
      Qeq_bool q (int_truediv a b)
      && Qeq_bool p (float_mul (float_of_int a) FLOAT_0_9)
  | _, _ => false
  end.

Definition agree_upto (n : nat) : bool :=
  forallb (fun a => forallb (fun b => agree_on (Z.of_nat a) (Z.of_nat b))
                            (seq 1 n))
          (seq 1 n).

Example FLOAT_0_9_is_binary64 :
  value (div (of_Z 9) (of_Z 10)) = Some FLOAT_0_9.
Proof. vm_compute. reflexivity. Qed.

Example threshold_13_is_binary64 :
  value (mul (of_Z 13) (div (of_Z 9) (of_Z 10)))
  = Some (float_mul (float_of_int 13) FLOAT_0_9).
Proof. vm_compute. reflexivity. Qed.

Example total_seconds_is_binary64 :
  value (div (of_Z 11700000) (of_Z 1000000)) = Some (total_seconds 11700000).
Proof. vm_compute. reflexivity. Qed.

Example negative_quotient_is_binary64 :
  value (div (of_Z (-180)) (of_Z 7)) = Some (round53 (-180 # 7)).
Proof. vm_compute. reflexivity. Qed.

Example quotients_and_thresholds_are_binary64 : agree_upto 24 = true.
Proof. vm_compute. reflexivity. Qed.

End Binary64.

(* ===================================================================== *)
(** * The late-arrival test *)
(* ===================================================================== *)

(** C3, as stated, fails.  Interval 13 s and a deviation of 11.7 s, which
    is 0.9 x 13 s exactly: the float [13 * 0.9] is the double next above
    the double of 11.7, so the gap is not treated as missed and the
    counter is reset; with [allowed_misses = 1] no alert is raised. *)
Lemma late_test_is_done_in_binary64 :
  (9 * 13 * US_PER_SECOND <=? 10 * 11700000) = true
  /\ datetime_sub (mk_datetime 2025 8 4 10 0 24 700000 (Some 0))
                  (utc 2025 8 4 10 0 13) = Ok 11700000
  /\ is_late (mk_monitor 13 1) (total_seconds 11700000) = false
  /\ scan_pair (mk_monitor 13 1) (PStr "a") 0
       (event "a" "2025-08-04T10:00:00Z")
       (event "a" "2025-08-04T10:00:24.700Z") = Ok (Continue 0)
  /\ monitor (mk_monitor 13 1)
       [event "a" "2025-08-04T10:00:00Z";
        event "a" "2025-08-04T10:00:24.700Z"] = Ok [].
Proof. vm_compute. repeat split. Qed.

(** The loop body in exact arithmetic, on a pair whose deviation is a
    whole number of seconds. *)
Lemma scan_pair_whole_seconds self name c cur nxt t1 t2 en d :
  0 < expected_interval_seconds self < 2 ^ 48 ->
  - 2 ^ 48 < d < 2 ^ 48 ->
  sort_key cur = Ok (Some t1) ->
  sort_key nxt = Ok (Some t2) ->
  expected_after t1 (expected_interval_seconds self) = Ok en ->
  datetime_sub t2 en = Ok (d * US_PER_SECOND) ->
  scan_pair self name c cur nxt =
    if 9 * expected_interval_seconds self <=? 10 * d then
      let missed := nearest_even d (expected_interval_seconds self) in
      if c + missed >=? allowed_misses self then
        alert_time <- expected_after en
                        (expected_interval_seconds self
                         * (allowed_misses self - 1)) ;;
        Ok (Alerted (mk_alert name (strftime_iso_Z alert_time)))
      else Ok (Continue (c + missed))
    else Ok (Continue 0).
Proof.
  intros HI Hd H1 H2 He Hs.
  rewrite (scan_pair_known self name c cur nxt t1 t2 en _ H1 H2 He Hs).
  unfold check_gap.
  pose proof (is_late_whole self (proj1 HI) (proj2 HI) d Hd) as Hlate.
  destruct (Z.leb_spec (9 * expected_interval_seconds self) (10 * d))
    as [Hle | Hgt].
  - rewrite (proj2 Hlate Hle).
    rewrite (intervals_missed_whole self (proj1 HI) (proj2 HI) d)
      by lia.
    reflexivity.
  - destruct (is_late self (total_seconds (d * US_PER_SECOND)));
      [| reflexivity].
    pose proof (proj1 Hlate eq_refl). lia.
Qed.

(* ===================================================================== *)
(** * Duplicate timestamps *)
(* ===================================================================== *)

(** C10.  Two adjacent events with equal timestamps: the deviation is
    minus the expected interval, the late test fails, and the loop goes
    on with [consecutive_misses = 0] whatever the counter was. *)
Theorem duplicate_timestamp_resets_the_streak
    (self : HeartbeatMonitor) (name : pyval) (c : Z)
    (cur nxt : pyval) (t1 t2 expected_next : datetime) :
  0 < expected_interval_seconds self ->
  sort_key cur = Ok (Some t1) ->
  sort_key nxt = Ok (Some t2) ->
  datetime_eqb t1 t2 = true ->
  expected_after t1 (expected_interval_seconds self) = Ok expected_next ->
  datetime_sub t2 expected_next
  = Ok (- expected_interval_seconds self * US_PER_SECOND)
  /\ is_late self
       (total_seconds (- expected_interval_seconds self * US_PER_SECOND))
     = false
  /\ scan_pair self name c cur nxt = Ok (Continue 0).
Proof.
  intros HI H1 H2 Heq He.
  destruct (expected_after_ok _ _ _ He) as [Hw Htz].
  assert (Hsub : datetime_sub t2 expected_next
                 = Ok (- expected_interval_seconds self * US_PER_SECOND)).
  { unfold datetime_sub. rewrite Htz.
    replace (- expected_interval_seconds self * US_PER_SECOND)
      with (- (expected_interval_seconds self * US_PER_SECOND)) by ring.
    revert Heq Hw. unfold datetime_eqb, utc_us.
    generalize (wall_us t1) (wall_us t2) (wall_us expected_next)
               (expected_interval_seconds self * US_PER_SECOND).
    intros w1 w2 wn step.
    destruct (tzinfo t2) as [o2 |], (tzinfo t1) as [o1 |];
      intros Heq Hw; try discriminate Heq; apply Z.eqb_eq in Heq;
      f_equal; lia. }
  assert (Hlate : is_late self
                    (total_seconds
                       (- expected_interval_seconds self * US_PER_SECOND))
                  = false).
  { apply is_late_negative; [exact HI |]. unfold US_PER_SECOND. lia. }
  split; [exact Hsub |]. split; [exact Hlate |].
  rewrite (scan_pair_known self name c cur nxt t1 t2 expected_next _
             H1 H2 He Hsub).
  unfold check_gap. rewrite Hlate. reflexivity.
Qed.

(** A heartbeat reported twice at 10:03 after two missed intervals. *)
Lemma duplicate_heartbeat_breaks_streak :
  scan_pair test_monitor (PStr "monitor") 2
    (event "monitor" "2025-08-04T10:03:00Z")
    (event "monitor" "2025-08-04T10:03:00Z") = Ok (Continue 0).
Proof.
  apply (duplicate_timestamp_resets_the_streak test_monitor (PStr "monitor") 2
           (event "monitor" "2025-08-04T10:03:00Z")
           (event "monitor" "2025-08-04T10:03:00Z")
           (utc 2025 8 4 10 3 0) (utc 2025 8 4 10 3 0) (utc 2025 8 4 10 4 0));
    vm_compute; reflexivity.
Defined.

(** Without the duplicate the same three gaps reach the threshold. *)
Example duplicate_changes_the_outcome :
  monitor test_monitor
    [event "m" "2025-08-04T10:00:00Z"; event "m" "2025-08-04T10:03:00Z";
     event "m" "2025-08-04T10:03:00Z"; event "m" "2025-08-04T10:05:00Z"]
  = Ok []
  /\ monitor test_monitor
       [event "m" "2025-08-04T10:00:00Z"; event "m" "2025-08-04T10:03:00Z";
        event "m" "2025-08-04T10:05:00Z"]
     = Ok [mk_alert (PStr "m") "2025-08-04T10:06:00Z"].
Proof. vm_compute. split; reflexivity. Qed.

(* ===================================================================== *)
(** * Timestamp parsing *)
(* ===================================================================== *)

Lemma chars_of_list l : chars (string_of_list_ascii l) = l.
Proof. apply list_ascii_of_string_of_list_ascii. Qed.

Lemma chars_append a b : chars (a ++ b)%string = (chars a ++ chars b)%list.
Proof. induction a as [| c a IH]; simpl; [reflexivity | now rewrite IH]. Qed.

Lemma string_of_chars s : string_of_list_ascii (chars s) = s.
Proof. apply string_of_list_ascii_of_string. Qed.

Lemma endswith_Z_app s : endswith_Z (s ++ "Z") = true.
Proof.
  unfold endswith_Z. rewrite chars_append, rev_app_distr. reflexivity.
Qed.

Lemma drop_last_app s : drop_last (s ++ "Z") = s.
Proof.
  unfold drop_last. rewrite chars_append. simpl (chars "Z").
  rewrite removelast_last. apply string_of_chars.
Qed.

Lemma endswith_Z_offset s : endswith_Z (s ++ "+00:00") = false.
Proof.
  unfold endswith_Z. rewrite chars_append, rev_app_distr. reflexivity.
Qed.

Lemma parse_timestamp_str s :
  parse_timestamp (PStr s) =
    match fromisoformat_str
            (if endswith_Z s then (drop_last s ++ "+00:00")%string else s) with
    | Ok t => Ok (Some t)
    | Raise _ => Ok None
    end.
Proof.
  unfold parse_timestamp, py_endswith_Z. cbn [bind].
  destruct (endswith_Z s); cbn [datetime_fromisoformat].
  - unfold fromisoformat_str, new_datetime.
    repeat match goal with
           | |- context [match ?x with _ => _ end] => destruct x
           end; reflexivity.
  - unfold fromisoformat_str, new_datetime.
    repeat match goal with
           | |- context [match ?x with _ => _ end] => destruct x
           end; reflexivity.
Qed.

(** Digits *)
Lemma code_digit_char d : code (digit_char d) = 48 + d mod 10.
Proof.
  unfold code, digit_char.
  rewrite N_ascii_embedding.
  - rewrite Z2N.id; [reflexivity | zlia].
  - assert (Z.to_N (48 + d mod 10) < Z.to_N 256)%N; [| assumption].
    apply Z2N.inj_lt; zlia.
Qed.

Lemma is_digit_digit_char d : is_digit (digit_char d) = true.
Proof.
  unfold is_digit. rewrite code_digit_char.
  apply andb_true_iff. split; apply Z.leb_le; zlia.
Qed.

Lemma digit_char_eqb d c :
  is_digit c = false -> Ascii.eqb (digit_char d) c = false.
Proof.
  intros H. destruct (Ascii.eqb (digit_char d) c) eqn:E; [| reflexivity].
  apply Ascii.eqb_eq in E. subst c. rewrite is_digit_digit_char in H.
  discriminate.
Qed.

Lemma parse_digits_2 n rest :
  0 <= n < 100 ->
  parse_digits 2 0 (zero_pad 2 n ++ rest) = Some (n, rest).
Proof.
  intros Hn. cbn [zero_pad app parse_digits].
  rewrite !is_digit_digit_char, !code_digit_char. do 2 f_equal. zlia.
Qed.

Lemma parse_digits_4 n rest :
  0 <= n < 10000 ->
  parse_digits 4 0 (zero_pad 4 n ++ rest) = Some (n, rest).
Proof.
  intros Hn. cbn [zero_pad app parse_digits].
  rewrite !is_digit_digit_char, !code_digit_char. do 2 f_equal. zlia.
Qed.

Lemma decimal_four y : 1000 <= y -> decimal y = zero_pad 4 y.
Proof.
  intros Hy. unfold decimal.
  destruct (Z.ltb_spec y 10); [lia |].
  destruct (Z.ltb_spec y 100); [lia |].
  destruct (Z.ltb_spec y 1000); [lia | reflexivity].
Qed.

(** From year 1000 on the text of [strftime] is the zero-padded one. *)
Lemma strftime_iso_Z_text t :
  1000 <= year t ->
  strftime_iso_Z t
  = string_of_list_ascii
      (iso_text (year t) (month t) (day t) (hour t) (minute t) (second t)
       ++ ["Z"%char]).
Proof.
  intros Hy. unfold strftime_iso_Z, iso_text. rewrite (decimal_four _ Hy).
  repeat (rewrite <- ?app_assoc; cbn [app]). reflexivity.
Qed.

Lemma parse_clock hh mm ss :
  0 <= hh < 100 -> 0 <= mm < 100 -> 0 <= ss < 100 ->
  parse_hh_mm_ss_ff
    (zero_pad 2 hh ++ ":"%char :: zero_pad 2 mm ++ ":"%char :: zero_pad 2 ss)
  = Some (hh, mm, ss, 0).
Proof.
  intros Hh Hm Hs. unfold parse_hh_mm_ss_ff.
  rewrite parse_digits_2 by assumption. cbn [expect Ascii.eqb Bool.eqb].
  rewrite parse_digits_2 by assumption. cbn [expect Ascii.eqb Bool.eqb].
  rewrite <- (app_nil_r (zero_pad 2 ss)).
  rewrite parse_digits_2 by assumption. reflexivity.
Qed.

Lemma split_tz_clock hh mm ss tz :
  split_tz (zero_pad 2 hh ++ ":"%char :: zero_pad 2 mm ++ ":"%char
            :: zero_pad 2 ss ++ tz)
  = let '(t, z) := split_tz tz in
    (zero_pad 2 hh ++ ":"%char :: zero_pad 2 mm ++ ":"%char
       :: zero_pad 2 ss ++ t, z).
Proof.
  cbn [zero_pad app split_tz].
  rewrite !digit_char_eqb by reflexivity.
  cbn [Ascii.eqb Bool.eqb]. 
  destruct (split_tz tz) as [t z]. reflexivity.
Qed.

Lemma check_fields_bounds y m d hh mm ss :
  check_date_fields y m d = true -> check_time_fields hh mm ss 0 = true ->
  0 <= y < 10000 /\ 0 <= m < 100 /\ 0 <= d < 100
  /\ 0 <= hh < 100 /\ 0 <= mm < 100 /\ 0 <= ss < 100.
Proof.
  unfold check_date_fields, check_time_fields, MINYEAR, MAXYEAR.
  rewrite !andb_true_iff, !Z.leb_le. intros Hd Ht.
  assert (Hdim : days_in_month y m <= 31).
  { unfold days_in_month.
    destruct ((m =? 2) && is_leap y); [lia |].
    assert (Hm : m = 1 \/ m = 2 \/ m = 3 \/ m = 4 \/ m = 5 \/ m = 6 \/ m = 7
                 \/ m = 8 \/ m = 9 \/ m = 10 \/ m = 11 \/ m = 12) by lia.
    repeat (destruct Hm as [Hm | Hm]); subst m; simpl; lia. }
  lia.
Qed.

Lemma parse_tz_utc :
  parse_tz false ["0"; "0"; ":"; "0"; "0"]%char = Some 0.
Proof. reflexivity. Qed.

(** A text [YYYY-MM-DDTHH:MM:SS] of digits is read as its six numbers,
    without an offset and with [+00:00]; what is left to decide is the
    check of the [datetime] constructor. *)
Lemma fromisoformat_digits y m d hh mm ss :
  0 <= y < 10000 -> 0 <= m < 100 -> 0 <= d < 100 ->
  0 <= hh < 100 -> 0 <= mm < 100 -> 0 <= ss < 100 ->
  fromisoformat_str (string_of_list_ascii (iso_text y m d hh mm ss))
  = new_datetime y m d hh mm ss 0 None
  /\ fromisoformat_str
       (string_of_list_ascii (iso_text y m d hh mm ss) ++ "+00:00")
     = new_datetime y m d hh mm ss 0 (Some 0).
Proof.
  intros By Bm Bd Bh Bmi Bs.
  assert (Hdate : forall rest,
    parse_isoformat_date
      (zero_pad 4 y ++ "-"%char :: zero_pad 2 m ++ "-"%char :: zero_pad 2 d
       ++ rest) = Some (y, m, d, rest)).
  { intros rest. unfold parse_isoformat_date.
    rewrite parse_digits_4 by assumption. cbn [expect Ascii.eqb Bool.eqb].
    rewrite parse_digits_2 by assumption. cbn [expect Ascii.eqb Bool.eqb].
    rewrite parse_digits_2 by assumption. reflexivity. }
  unfold fromisoformat_str. rewrite chars_append, chars_of_list.
  unfold iso_text at 1 2.
  repeat (rewrite <- ?app_assoc; cbn [app]).
  rewrite !Hdate.
  unfold parse_isoformat_time.
  rewrite <- (app_nil_r (zero_pad 2 ss)) at 1.
  rewrite !split_tz_clock.
  cbn [split_tz chars list_ascii_of_string Ascii.eqb Bool.eqb].
  rewrite !app_nil_r, !parse_clock by assumption.
  rewrite parse_tz_utc. split; reflexivity.
Qed.

(** A well-formed timestamp text parses, without an offset, with
    [+00:00], and with [Z]. *)
Lemma fromisoformat_iso_text y m d hh mm ss :
  check_date_fields y m d = true -> check_time_fields hh mm ss 0 = true ->
  fromisoformat_str (string_of_list_ascii (iso_text y m d hh mm ss))
  = Ok (mk_datetime y m d hh mm ss 0 None)
  /\ fromisoformat_str
       (string_of_list_ascii (iso_text y m d hh mm ss) ++ "+00:00")
     = Ok (mk_datetime y m d hh mm ss 0 (Some 0)).
Proof.
  intros Hd Ht.
  destruct (check_fields_bounds _ _ _ _ _ _ Hd Ht)
    as (By & Bm & Bd & Bh & Bmi & Bs).
  destruct (fromisoformat_digits y m d hh mm ss By Bm Bd Bh Bmi Bs)
    as [-> ->].
  unfold new_datetime. rewrite Hd, Ht. split; reflexivity.
Qed.



Lemma parse_timestamp_never_raises :
  (forall v, exists r, parse_timestamp v = Ok r)
  /\ (forall s, parse_timestamp (PStr (s ++ "Z"))
                = parse_timestamp (PStr (s ++ "+00:00"))).
Proof.
  split.
  - intros v. destruct v as [| b | z | s | l | d];
      try (exists None; reflexivity).
    rewrite parse_timestamp_str.
    destruct (fromisoformat_str _); eauto.
  - intros s. rewrite !parse_timestamp_str.
    now rewrite endswith_Z_app, drop_last_app, endswith_Z_offset.
Qed.





Example test_timestamp_formats :
  valid_events
    [event "format" "2025-08-04T10:00:00Z";
     event "format" "2025-08-04T10:01:00+00:00";
     event "format" "2025-08-04T10:02:00Z"]
  = Ok [event "format" "2025-08-04T10:00:00Z";
        event "format" "2025-08-04T10:01:00+00:00";
        event "format" "2025-08-04T10:02:00Z"].
Proof. vm_compute. reflexivity. Qed.

(** Unparseable or nonsensical texts give [None]. *)
Example nonsense_timestamps_rejected :
  parse_timestamp (PStr "invalid-timestamp") = Ok None
  /\ parse_timestamp (PStr "2025-13-45T25:61:61Z") = Ok None
  /\ parse_timestamp (PStr "2025-02-30T10:00:00Z") = Ok None
  /\ parse_timestamp (PStr "2025-08-04T10:00:00+24:00") = Ok None
  /\ parse_timestamp (PStr "") = Ok None
  /\ parse_timestamp (PInt 5) = Ok None
  /\ parse_timestamp PNone = Ok None.
Proof. vm_compute. repeat split. Qed.

(* ===================================================================== *)
(** * Shape of the alerts *)
(* ===================================================================== *)

Lemma strftime_iso_Z_shape t :
  1000 <= year t -> iso_Z_shape (strftime_iso_Z t) = true.
Proof.
  intros Hy. unfold iso_Z_shape, strftime_iso_Z.
  rewrite chars_of_list, (decimal_four _ Hy).
  cbn [zero_pad app forallb]. rewrite !is_digit_digit_char. reflexivity.
Qed.

(** X3.  [validate_event] returns a boolean on every value, whatever its
    shape; it never raises. *)
Lemma validate_event_total e : exists b, validate_event e = Ok b.
Proof.
  destruct e as [| b | z | s | l | d]; try (eexists; reflexivity).
  unfold validate_event, dict_mem, py_getitem.
  destruct (dict_get "service" d) as [sv |]; [| eexists; reflexivity].
  destruct (dict_get "timestamp" d) as [ts |]; [| eexists; reflexivity].
  cbn [negb orb bind].
  destruct sv as [| b | z | s | l | d']; try (eexists; reflexivity).
  destruct (strip_nonempty s); [| eexists; reflexivity].
  cbn [negb bind].
  destruct (proj1 parse_timestamp_never_raises ts) as [[t |] ->];
    eexists; reflexivity.
Qed.

(** ** Alerts of events written in UTC *)

Lemma of_wall_us_stable total tz :
  of_wall_us (wall_us (of_wall_us total tz)) tz = of_wall_us total tz.
Proof. now rewrite wall_us_of_wall_us. Qed.

Lemma datetime_add_utc_reading t delta u :
  tzinfo t = Some 0 -> datetime_add t delta = Ok u -> utc_reading u = u.
Proof.
  unfold datetime_add. intros Htz.
  destruct ((0 <? (wall_us t + delta) / US_PER_DAY)
            && ((wall_us t + delta) / US_PER_DAY <=? MAXORDINAL));
    [| discriminate].
  intros H. inversion H; subst. unfold utc_reading, utc_us.
  rewrite tzinfo_of_wall_us, Htz, Z.sub_0_r. apply of_wall_us_stable.
Qed.

(** X4.  When the event before the gap is written with offset zero ([Z]
    or [+00:00]), the alert text is the UTC reading of the alert time. *)
Lemma alert_at_is_utc_for_offset_zero self name c expected_next diff a :
  tzinfo expected_next = Some 0 ->
  check_gap self name c expected_next diff = Ok (Alerted a) ->
  exists alert_time,
    expected_after expected_next
      (expected_interval_seconds self * (allowed_misses self - 1))
    = Ok alert_time
    /\ alert_at a = strftime_iso_Z (utc_reading alert_time).
Proof.
  intros Htz. unfold check_gap.
  destruct (is_late self (total_seconds diff)); [| discriminate].
  destruct (intervals_missed self (total_seconds diff)) as [missed |];
    [| discriminate].
  cbn [bind]. destruct (c + missed >=? allowed_misses self); [| discriminate].
  destruct (expected_after expected_next _) as [alert_time |] eqn:E;
    [| discriminate].
  cbn [bind]. intros H. inversion H; subst. exists alert_time. split; auto.
  cbn [alert_at]. f_equal. symmetry.
  destruct (bind_inv _ _ _ E) as (delta & _ & Hadd).
  eapply datetime_add_utc_reading; eauto.
Qed.

Lemma utc_events_alert_in_utc :
  exists alert_time,
    expected_after (utc 2025 8 4 10 3 0)
      (expected_interval_seconds test_monitor
       * (allowed_misses test_monitor - 1))
    = Ok alert_time
    /\ alert_at (mk_alert (PStr "email") "2025-08-04T10:05:00Z")
       = strftime_iso_Z (utc_reading alert_time).
Proof.
  apply (alert_at_is_utc_for_offset_zero test_monitor (PStr "email") 0
           (utc 2025 8 4 10 3 0) 180000000).
  - reflexivity.
  - vm_compute. reflexivity.
Defined.

(* ===================================================================== *)
(** * Order of the input *)
(* ===================================================================== *)

(** ** The scanner reads wall clock and offset only *)

Section Stamps.

Variable self : HeartbeatMonitor.
Variable tz : option Z.

Lemma datetime_add_stamp t t' delta :
  wall_us t = wall_us t' -> tzinfo t = tzinfo t' ->
  datetime_add t delta = datetime_add t' delta.
Proof. unfold datetime_add. now intros -> ->. Qed.

Lemma datetime_sub_stamp t t' u :
  wall_us t = wall_us t' -> tzinfo t = tzinfo t' ->
  datetime_sub t u = datetime_sub t' u.
Proof. unfold datetime_sub. now intros -> ->. Qed.

Lemma scan_pair_stamp name c e1 e2 e1' e2' :
  well_formed tz e1 -> well_formed tz e1' ->
  well_formed tz e2 -> well_formed tz e2' ->
  wall_of e1 = wall_of e1' -> wall_of e2 = wall_of e2' ->
  scan_pair self name c e1 e2 = scan_pair self name c e1' e2'.
Proof.
  intros (_ & t1 & K1 & Z1) (_ & t1' & K1' & Z1')
         (_ & t2 & K2 & Z2) (_ & t2' & K2' & Z2').
  unfold wall_of. rewrite K1, K1', K2, K2'. intros W1 W2.
  unfold scan_pair.
  rewrite (bind_ok _ _ _ K1), (bind_ok _ _ _ K1'),
          (bind_ok _ _ _ K2), (bind_ok _ _ _ K2').
  destruct (timedelta_seconds (expected_interval_seconds self)) as [delta |];
    [| reflexivity].
  cbn [bind opt_add].
  rewrite (datetime_add_stamp t1 t1' delta W1) by congruence.
  destruct (datetime_add t1' delta) as [en |]; [| reflexivity].
  cbn [bind opt_sub].
  rewrite (datetime_sub_stamp t2 t2' en W2) by congruence.
  reflexivity.
Qed.

Lemma scan_step name c e1 e2 l :
  scan self name c (e1 :: e2 :: l)
  = (o <- scan_pair self name c e1 e2 ;;
     match o with
     | Alerted a => Ok (Some a)
     | Continue c' => scan self name c' (e2 :: l)
     end).
Proof. reflexivity. Qed.

Lemma scan_stamps name l l' : forall c,
  Forall (well_formed tz) l -> Forall (well_formed tz) l' ->
  map wall_of l = map wall_of l' ->
  scan self name c l = scan self name c l'.
Proof.
  revert l'. induction l as [| e1 l IH]; intros [| e1' l'] c Hl Hl' Hm;
    try discriminate; [reflexivity |].
  destruct l as [| e2 l], l' as [| e2' l']; try discriminate; [reflexivity |].
  inversion Hl as [| ? ? W1 Hl1]; subst. inversion Hl' as [| ? ? W1' Hl1']; subst.
  pose proof Hl1 as Hl1c. pose proof Hl1' as Hl1c'.
  inversion Hl1 as [| ? ? W2 _]; subst. inversion Hl1' as [| ? ? W2' _]; subst.
  cbn [map] in Hm. injection Hm as M1 M2 M3.
  rewrite !scan_step.
  rewrite (scan_pair_stamp name c e1 e2 e1' e2' W1 W1' W2 W2' M1 M2).
  destruct (scan_pair self name c e1' e2') as [[a | c'] |]; try reflexivity.
  cbn [bind]. apply IH; auto. cbn [map]. congruence.
Qed.

End Stamps.

(** ** Sorting events of one offset *)

Lemma insert_by_wall_perm x l : Permutation (x :: l) (insert_by_wall x l).
Proof.
  induction l as [| y l IH]; simpl; [apply Permutation_refl |].
  destruct (wall_of y <? wall_of x); [| apply Permutation_refl].
  eapply perm_trans; [apply perm_swap |]. now apply perm_skip.
Qed.

Lemma sort_by_wall_perm l : Permutation l (sort_by_wall l).
Proof.
  induction l as [| x l IH]; simpl; [apply perm_nil |].
  eapply perm_trans; [apply perm_skip, IH | apply insert_by_wall_perm].
Qed.

Lemma insert_by_wall_sorted x l :
  Sorted Z.le (map wall_of l) -> Sorted Z.le (map wall_of (insert_by_wall x l)).
Proof.
  induction l as [| y l IH]; simpl; intros Hs.
  - repeat constructor.
  - destruct (Z.ltb_spec (wall_of y) (wall_of x)) as [Hlt | Hge].
    + inversion Hs as [| ? ? Hs' Hhd]; subst. simpl. constructor.
      * now apply IH.
      * destruct l as [| z l]; simpl.
        -- constructor. lia.
        -- destruct (wall_of z <? wall_of x); simpl; constructor;
             [inversion Hhd; subst; assumption | lia].
    + simpl. constructor; [exact Hs | constructor; exact Hge].
Qed.

Lemma sort_by_wall_sorted l : Sorted Z.le (map wall_of (sort_by_wall l)).
Proof.
  induction l as [| x l IH]; simpl; [constructor |].
  now apply insert_by_wall_sorted.
Qed.

(** Two sorted lists of integers with the same elements are equal. *)
Lemma sorted_perm_eq (l1 l2 : list Z) :
  Sorted Z.le l1 -> Sorted Z.le l2 -> Permutation l1 l2 -> l1 = l2.
Proof.
  intros S1 S2.
  apply Sorted_StronglySorted in S1; [| intros ? ? ?; lia].
  apply Sorted_StronglySorted in S2; [| intros ? ? ?; lia].
  revert l2 S2. induction S1 as [| a l1 S1 IH H1]; intros l2 S2 Hp.
  - apply Permutation_nil in Hp. now subst.
  - destruct S2 as [| b l2 S2 H2].
    + apply Permutation_sym, Permutation_nil in Hp. discriminate.
    + assert (Hab : a = b).
      { assert (Ha : In a (b :: l2))
          by (eapply Permutation_in; [exact Hp | now left]).
        assert (Hb : In b (a :: l1))
          by (eapply Permutation_in;
              [apply Permutation_sym; exact Hp | now left]).
        rewrite Forall_forall in H1, H2.
        destruct Ha as [Ha | Ha]; [now subst |].
        destruct Hb as [Hb | Hb]; [now subst |].
        specialize (H1 _ Hb). specialize (H2 _ Ha). lia. }
      subst b. f_equal. apply IH; [exact S2 |].
      eapply Permutation_cons_inv; exact Hp.
Qed.

Lemma sort_by_wall_unique l l' :
  Permutation l l' ->
  map wall_of (sort_by_wall l) = map wall_of (sort_by_wall l').
Proof.
  intros Hp. apply sorted_perm_eq; try apply sort_by_wall_sorted.
  apply Permutation_map.
  eapply perm_trans; [apply Permutation_sym, sort_by_wall_perm |].
  eapply perm_trans; [exact Hp | apply sort_by_wall_perm].
Qed.

Section SortOneOffset.

Variable tz : option Z.

Lemma well_formed_key e :
  well_formed tz e -> sort_key e = Ok (time_of e).
Proof. intros (_ & t & K & _). unfold time_of. now rewrite K. Qed.

Lemma key_lt_wall x y :
  well_formed tz x -> well_formed tz y ->
  key_lt (time_of y) (time_of x) = Ok (wall_of y <? wall_of x).
Proof.
  intros (_ & tx & Kx & Zx) (_ & ty & Ky & Zy).
  unfold time_of, wall_of. rewrite Kx, Ky. cbn [key_lt].
  unfold datetime_lt, utc_us. rewrite Zx, Zy.
  assert (Heq : forall o, (wall_us ty - o <? wall_us tx - o)
                          = (wall_us ty <? wall_us tx)).
  { intros o. destruct (Z.ltb_spec (wall_us ty - o) (wall_us tx - o)),
      (Z.ltb_spec (wall_us ty) (wall_us tx)); auto; lia. }
  destruct tz as [o |]; now rewrite Heq.
Qed.

Lemma insert_sorted_wall x l :
  well_formed tz x -> Forall (well_formed tz) l ->
  insert_sorted (time_of x, x) (tagged l) = Ok (tagged (insert_by_wall x l)).
Proof.
  intros Hx Hl. induction Hl as [| y l Hy Hl IH]; [reflexivity |].
  cbn [tagged map insert_sorted insert_by_wall fst].
  rewrite (key_lt_wall x y Hx Hy). cbn [bind].
  destruct (wall_of y <? wall_of x); [| reflexivity].
  fold (tagged l). rewrite IH. reflexivity.
Qed.

Lemma Forall_perm {A} (P : A -> Prop) l l' :
  Permutation l l' -> Forall P l -> Forall P l'.
Proof.
  intros Hp Hl. rewrite Forall_forall in *. intros x Hx.
  apply Hl. eapply Permutation_in; [apply Permutation_sym; exact Hp | exact Hx].
Qed.

Lemma insertion_sort_wall l :
  Forall (well_formed tz) l ->
  insertion_sort (tagged l) = Ok (tagged (sort_by_wall l)).
Proof.
  intros Hl. induction Hl as [| x l Hx Hl IH]; [reflexivity |].
  cbn [tagged map insertion_sort sort_by_wall]. fold (tagged l).
  rewrite IH. cbn [bind]. apply insert_sorted_wall; [exact Hx |].
  eapply Forall_perm; [apply sort_by_wall_perm | exact Hl].
Qed.

Lemma mapM_sort_key l :
  Forall (well_formed tz) l -> mapM sort_key l = Ok (map time_of l).
Proof.
  intros Hl. induction Hl as [| x l Hx Hl IH]; [reflexivity |].
  cbn [mapM map]. rewrite (well_formed_key x Hx), IH. reflexivity.
Qed.

Lemma combine_tagged l : combine (map time_of l) l = tagged l.
Proof. induction l as [| x l IH]; simpl; [reflexivity | now rewrite IH]. Qed.

Lemma map_snd_tagged l : map snd (tagged l) = l.
Proof.
  unfold tagged. rewrite map_map. simpl. apply map_id.
Qed.

(** On events of one offset the sort does not raise and is the
    insertion sort by wall clock. *)
Lemma sort_by_timestamp_wall l :
  Forall (well_formed tz) l -> sort_by_timestamp l = Ok (sort_by_wall l).
Proof.
  intros Hl. unfold sort_by_timestamp.
  rewrite (mapM_sort_key l Hl). cbn [bind].
  rewrite combine_tagged, (insertion_sort_wall l Hl). cbn [bind].
  now rewrite map_snd_tagged.
Qed.

End SortOneOffset.

(** ** Grouping events with string services *)

Lemma well_formed_service tz e :
  well_formed tz e -> py_getitem e "service" = Ok (PStr (service_str e)).
Proof.
  intros ((s & Hs) & _). unfold service_str. now rewrite Hs.
Qed.

Lemma group_events_fold tz events : forall g,
  Forall (well_formed tz) events ->
  group_events events g = Ok (fold_left add_event events g).
Proof.
  induction events as [| e events IH]; intros g Hl; [reflexivity |].
  inversion Hl as [| ? ? He Hl']; subst.
  cbn [group_events fold_left].
  rewrite (well_formed_service tz e He). cbn [bind py_hashable].
  now apply IH.
Qed.

Lemma key_eqb_str_iff s k : py_key_eqb (PStr s) k = true <-> k = PStr s.
Proof.
  split; [apply key_eqb_str_l | intros ->; apply key_eqb_str_refl].
Qed.

Lemma key_eqb_str_trans s s' k :
  py_key_eqb (PStr s') k = true ->
  py_key_eqb (PStr s) k = String.eqb s s'.
Proof. intros H. apply key_eqb_str_l in H. now subst. Qed.

Lemma find_group_add s e g :
  find_group s (add_event g e)
  = if String.eqb s (service_str e)
    then Some (match find_group s g with
               | Some l => l ++ [e]
               | None => [e]
               end)
    else find_group s g.
Proof.
  unfold add_event. set (s' := service_str e).
  induction g as [| [k l] g IH].
  - cbn [dict_append find_group py_key_eqb].
    destruct (String.eqb s s'); reflexivity.
  - cbn [dict_append find_group].
    destruct (py_key_eqb (PStr s') k) eqn:E.
    + cbn [find_group]. rewrite (key_eqb_str_trans s s' k E).
      destruct (String.eqb s s'); reflexivity.
    + cbn [find_group].
      destruct (py_key_eqb (PStr s) k) eqn:E'.
      * destruct (String.eqb s s') eqn:Es; [| reflexivity].
        apply String.eqb_eq in Es. subst s'. rewrite <- Es in E. congruence.
      * exact IH.
Qed.

Lemma find_group_fold s events : forall g,
  find_group s (fold_left add_event events g)
  = match find_group s g, of_service s events with
    | Some l, f => Some (l ++ f)
    | None, [] => None
    | None, f => Some f
    end.
Proof.
  induction events as [| e events IH]; intros g.
  - cbn [fold_left of_service filter].
    destruct (find_group s g); [now rewrite app_nil_r | reflexivity].
  - cbn [fold_left of_service filter]. rewrite IH, find_group_add.
    fold (of_service s events).
    destruct (String.eqb s (service_str e)).
    + destruct (find_group s g) as [l |].
      * now rewrite <- app_assoc.
      * reflexivity.
    + reflexivity.
Qed.

Lemma dict_append_keys s e g :
  map fst (dict_append (PStr s) e g) = map fst g
  \/ (map fst (dict_append (PStr s) e g) = map fst g ++ [PStr s]
      /\ ~ In (PStr s) (map fst g)).
Proof.
  induction g as [| [k l] g IH]; cbn [dict_append map fst].
  - right. split; [reflexivity | intros []].
  - destruct (py_key_eqb (PStr s) k) eqn:E.
    + left. reflexivity.
    + cbn [map fst]. destruct IH as [IH | [IH Hn]].
      * left. now rewrite IH.
      * right. split; [now rewrite IH |].
        intros [Hk | Hin]; [| contradiction].
        subst k. rewrite key_eqb_str_refl in E. discriminate.
Qed.

Lemma dict_append_str_keys s e g :
  Forall (fun kl => exists s, fst kl = PStr s) g ->
  Forall (fun kl => exists s, fst kl = PStr s) (dict_append (PStr s) e g).
Proof.
  induction g as [| [k l] g IH]; cbn [dict_append]; intros Hg.
  - constructor; [eexists; reflexivity | constructor].
  - inversion Hg as [| ? ? Hk Hg']; subst.
    destruct (py_key_eqb (PStr s) k); constructor; auto.
Qed.

Lemma str_keyed_add g e : str_keyed g -> str_keyed (add_event g e).
Proof.
  intros [Hn Hs]. split; [| now apply dict_append_str_keys].
  unfold add_event.
  destruct (dict_append_keys (service_str e) e g) as [-> | [-> Hnot]];
    [exact Hn |].
  apply NoDup_app_remove_l with (l := []). simpl.
  apply Permutation_NoDup with (l := PStr (service_str e) :: map fst g).
  - apply Permutation_cons_append.
  - now constructor.
Qed.

Lemma str_keyed_fold events : forall g,
  str_keyed g -> str_keyed (fold_left add_event events g).
Proof.
  induction events as [| e events IH]; intros g Hg; [exact Hg |].
  cbn [fold_left]. apply IH. now apply str_keyed_add.
Qed.

Lemma find_group_in g s l :
  str_keyed g -> (In (PStr s, l) g <-> find_group s g = Some l).
Proof.
  intros [Hn _]. induction g as [| [k l0] g IH]; cbn [find_group].
  - split; [intros [] | discriminate].
  - cbn [map fst] in Hn. inversion Hn as [| ? ? Hnot Hn']; subst.
    destruct (py_key_eqb (PStr s) k) eqn:E.
    + apply key_eqb_str_l in E. subst k. split.
      * intros [H | H]; [now inversion H |].
        exfalso. apply Hnot. apply (in_map fst) in H. exact H.
      * intros H. inversion H. now left.
    + rewrite <- (IH Hn'). split.
      * intros [H | H]; [| exact H].
        inversion H; subst. rewrite key_eqb_str_refl in E. discriminate.
      * intros H. now right.
Qed.

(** ** [monitor] on events of one offset *)

Lemma mapM_map {A B} (f : A -> result B) (h : A -> B) l :
  (forall x, In x l -> f x = Ok (h x)) -> mapM f l = Ok (map h l).
Proof.
  induction l as [| x l IH]; intros H; [reflexivity |].
  cbn [mapM map]. rewrite (H x (or_introl eq_refl)). cbn [bind].
  rewrite IH; [reflexivity |]. intros y Hy. apply H. now right.
Qed.

Lemma Permutation_of_service s events events' :
  Permutation events events' ->
  Permutation (of_service s events) (of_service s events').
Proof.
  unfold of_service. induction 1 as [| x l l' Hp IH | x y l | l l' l'' H1 IH1 H2 IH2];
    cbn [filter].
  - apply perm_nil.
  - destruct (String.eqb s (service_str x)); [now apply perm_skip | exact IH].
  - destruct (String.eqb s (service_str x)), (String.eqb s (service_str y));
      try apply Permutation_refl. apply perm_swap.
  - eapply perm_trans; eauto.
Qed.

Section Order.

Variable self : HeartbeatMonitor.
Variable tz : option Z.

Definition grouped (events : list pyval) : groups :=
  fold_left add_event events [].

Definition sorted_groups (events : list pyval) : groups :=
  map (fun kl => (fst kl, sort_by_wall (snd kl))) (grouped events).

(** What the scanner returns for service [s]. *)
Definition verdict (s : string) (events : list pyval) : result (option Alert) :=
  scan self (PStr s) 0 (sort_by_wall (of_service s events)).

Lemma grouped_str_keyed events : str_keyed (grouped events).
Proof.
  apply str_keyed_fold. split; constructor.
Qed.

Lemma grouped_find s events :
  find_group s (grouped events)
  = match of_service s events with
    | [] => None
    | f => Some f
    end.
Proof. unfold grouped. now rewrite find_group_fold. Qed.

Lemma grouped_in events k l :
  In (k, l) (grouped events) <->
  exists s, k = PStr s /\ l = of_service s events /\ l <> [].
Proof.
  pose proof (grouped_str_keyed events) as Hk. split.
  - intros Hin. destruct Hk as [Hn Hs]. rewrite Forall_forall in Hs.
    destruct (Hs _ Hin) as [s Hks]. cbn [fst] in Hks. subst k.
    exists s. split; [reflexivity |].
    apply (find_group_in _ _ _ (conj Hn (proj2 (Forall_forall _ _) Hs))) in Hin.
    rewrite grouped_find in Hin.
    destruct (of_service s events) as [| x f]; [discriminate |].
    inversion Hin. split; [reflexivity | discriminate].
  - intros (s & -> & -> & Hne). apply (find_group_in _ _ _ Hk).
    rewrite grouped_find.
    destruct (of_service s events); [contradiction | reflexivity].
Qed.

Lemma of_service_wf s events :
  Forall (well_formed tz) events -> Forall (well_formed tz) (of_service s events).
Proof.
  intros H. rewrite Forall_forall in *. intros x Hx.
  apply H. unfold of_service in Hx. apply filter_In in Hx. tauto.
Qed.

Lemma group_and_sort_wf events :
  Forall (well_formed tz) events ->
  group_and_sort_events events = Ok (sorted_groups events).
Proof.
  intros Hwf. unfold group_and_sort_events.
  rewrite (group_events_fold tz events [] Hwf). cbn [bind].
  apply mapM_map. intros [k l] Hin. cbn [fst snd].
  apply grouped_in in Hin. destruct Hin as (s & -> & -> & _).
  rewrite (sort_by_timestamp_wall tz); [reflexivity |].
  now apply of_service_wf.
Qed.

Lemma sorted_groups_spec events k l :
  In (k, l) (sorted_groups events) <->
  exists s, k = PStr s /\ of_service s events <> []
            /\ l = sort_by_wall (of_service s events).
Proof.
  unfold sorted_groups. rewrite in_map_iff. split.
  - intros ([k0 l0] & Heq & Hin). cbn [fst snd] in Heq. inversion Heq; subst.
    apply grouped_in in Hin. destruct Hin as (s & -> & -> & Hne).
    exists s. auto.
  - intros (s & -> & Hne & ->).
    exists (PStr s, of_service s events). split; [reflexivity |].
    apply grouped_in. exists s. auto.
Qed.

Lemma sorted_groups_keys events :
  map fst (sorted_groups events) = map fst (grouped events).
Proof. unfold sorted_groups. rewrite map_map. reflexivity. Qed.

Lemma detect_sorted_group s events :
  Forall (well_formed tz) events -> of_service s events <> [] ->
  detect_missed_heartbeats self (sort_by_wall (of_service s events))
  = verdict s events.
Proof.
  intros Hwf Hne. unfold verdict, detect_missed_heartbeats.
  pose proof (sort_by_wall_perm (of_service s events)) as Hp.
  destruct (sort_by_wall (of_service s events)) as [| first rest] eqn:E.
  - apply Permutation_sym, Permutation_nil in Hp. contradiction.
  - assert (Hin : In first (of_service s events)).
    { eapply Permutation_in; [apply Permutation_sym; exact Hp | now left]. }
    unfold of_service in Hin. apply filter_In in Hin. destruct Hin as [Hin Hs].
    apply String.eqb_eq in Hs.
    rewrite Forall_forall in Hwf.
    rewrite (well_formed_service tz first (Hwf _ Hin)), <- Hs. reflexivity.
Qed.

Lemma verdict_perm s events events' :
  Forall (well_formed tz) events -> Permutation events events' ->
  verdict s events = verdict s events'.
Proof.
  intros Hwf Hp. unfold verdict.
  pose proof (Permutation_of_service s _ _ Hp) as Hps.
  apply (scan_stamps self tz).
  - eapply Forall_perm; [apply sort_by_wall_perm |]. now apply of_service_wf.
  - eapply Forall_perm; [apply sort_by_wall_perm |]. apply of_service_wf.
    eapply Forall_perm; eauto.
  - now apply sort_by_wall_unique.
Qed.

Lemma collect_alerts_each g : forall alerts k l,
  collect_alerts self g = Ok alerts -> In (k, l) g ->
  exists o, detect_missed_heartbeats self l = Ok o
            /\ forall a, o = Some a -> In a alerts.
Proof.
  induction g as [| [k0 l0] g IH]; intros alerts k l Hc Hin; [destruct Hin |].
  cbn [collect_alerts] in Hc.
  destruct (detect_missed_heartbeats self l0) as [o |] eqn:E; [| discriminate].
  cbn [bind] in Hc.
  destruct (collect_alerts self g) as [rest |] eqn:Er; [| discriminate].
  cbn [bind] in Hc. inversion Hc; subst. destruct Hin as [Hin | Hin].
  - inversion Hin; subst. exists o. split; [exact E |].
    intros a ->. now left.
  - destruct (IH rest k l eq_refl Hin) as (o' & Ho' & Hall).
    exists o'. split; [exact Ho' |]. intros a Ha.
    destruct o; [right |]; now apply Hall.
Qed.

Lemma collect_alerts_total g :
  (forall k l, In (k, l) g -> exists o, detect_missed_heartbeats self l = Ok o) ->
  exists alerts, collect_alerts self g = Ok alerts.
Proof.
  induction g as [| [k0 l0] g IH]; intros H; [eexists; reflexivity |].
  destruct (H k0 l0 (or_introl eq_refl)) as [o Ho].
  destruct IH as [rest Hr]; [intros k l Hin; apply (H k l); now right |].
  cbn [collect_alerts]. rewrite Ho, Hr. eexists. reflexivity.
Qed.

Lemma collect_alerts_nodup g : forall alerts,
  collect_alerts self g = Ok alerts ->
  NoDup (map fst g) ->
  (forall k l a, In (k, l) g ->
     detect_missed_heartbeats self l = Ok (Some a) -> service a = k) ->
  NoDup (map service alerts)
  /\ forall a, In a alerts -> In (service a) (map fst g).
Proof.
  induction g as [| [k0 l0] g IH]; intros alerts Hc Hn Hs.
  - inversion Hc. split; [constructor | intros a []].
  - cbn [collect_alerts] in Hc.
    destruct (detect_missed_heartbeats self l0) as [o |] eqn:E; [| discriminate].
    cbn [bind] in Hc.
    destruct (collect_alerts self g) as [rest |] eqn:Er; [| discriminate].
    cbn [bind] in Hc. inversion Hc; subst.
    cbn [map fst] in Hn. inversion Hn as [| ? ? Hnot Hn']; subst.
    destruct (IH rest eq_refl Hn') as [Hnd Hin].
    { intros k l a Hkl. apply Hs. now right. }
    destruct o as [a0 |].
    + assert (Ha0 : service a0 = k0) by (apply (Hs k0 l0); [now left | exact E]).
      split.
      * cbn [map]. constructor; [| exact Hnd].
        rewrite Ha0. intros Hc'. apply Hnot.
        apply in_map_iff in Hc'. destruct Hc' as (a & Hsa & Ha).
        rewrite <- Hsa. now apply Hin.
      * intros a [-> | Ha]; [left; now rewrite Ha0 | right; now apply Hin].
    + split; [exact Hnd |]. intros a Ha. right. now apply Hin.
Qed.

Lemma sorted_group_alert_service events k l a :
  Forall (well_formed tz) events ->
  In (k, l) (sorted_groups events) ->
  detect_missed_heartbeats self l = Ok (Some a) -> service a = k.
Proof.
  intros Hwf Hin Hdet. apply sorted_groups_spec in Hin.
  destruct Hin as (s & -> & Hne & ->).
  rewrite (detect_sorted_group s events Hwf Hne) in Hdet.
  unfold verdict in Hdet. apply scan_alert in Hdet. tauto.
Qed.

(** X1.  On events with string services whose timestamps all carry the
    same offset (or all none), [monitor] returns the same alerts,
    possibly in another order, for every permutation of the input. *)
Theorem monitor_order_insensitive (events events' : list pyval)
    (alerts : list Alert) :
  Forall (well_formed tz) events ->
  Permutation events events' ->
  monitor self events = Ok alerts ->
  exists alerts', monitor self events' = Ok alerts'
                  /\ Permutation alerts alerts'.
Proof.
  intros Hwf Hp Hmon.
  assert (Hwf' : Forall (well_formed tz) events')
    by (eapply Forall_perm; eauto).
  unfold monitor in *.
  rewrite (group_and_sort_wf events Hwf) in Hmon.
  rewrite (group_and_sort_wf events' Hwf'). cbn [bind] in *.
  (* each group of the permuted input has the verdict of its service *)
  assert (Hsame : forall s, of_service s events' <> [] ->
                            of_service s events <> []).
  { intros s Hne He. apply Hne.
    pose proof (Permutation_of_service s _ _ Hp) as Hps. rewrite He in Hps.
    now apply Permutation_nil in Hps. }
  assert (Hsame' : forall s, of_service s events <> [] ->
                             of_service s events' <> []).
  { intros s Hne He. apply Hne.
    pose proof (Permutation_of_service s _ _ Hp) as Hps. rewrite He in Hps.
    now apply Permutation_sym, Permutation_nil in Hps. }
  destruct (collect_alerts_total (sorted_groups events')) as [alerts' Hc'].
  { intros k l Hin. apply sorted_groups_spec in Hin.
    destruct Hin as (s & -> & Hne & ->).
    destruct (collect_alerts_each _ _ (PStr s)
                (sort_by_wall (of_service s events)) Hmon) as (o & Ho & _).
    { apply sorted_groups_spec. exists s. auto. }
    exists o.
    rewrite (detect_sorted_group s events' Hwf' Hne).
    rewrite <- (verdict_perm s events events' Hwf Hp).
    rewrite <- (detect_sorted_group s events Hwf (Hsame s Hne)). exact Ho. }
  exists alerts'. split; [exact Hc' |].
  apply NoDup_Permutation.
  - apply (NoDup_map_inv service).
    apply (collect_alerts_nodup _ _ Hmon).
    + rewrite sorted_groups_keys. apply grouped_str_keyed.
    + intros k l a. now apply sorted_group_alert_service.
  - apply (NoDup_map_inv service).
    apply (collect_alerts_nodup _ _ Hc').
    + rewrite sorted_groups_keys. apply grouped_str_keyed.
    + intros k l a. now apply sorted_group_alert_service.
  - intros a. split; intros Ha.
    + destruct (collect_alerts_in self _ _ _ Hmon Ha) as (k & l & Hin & Hdet).
      apply sorted_groups_spec in Hin. destruct Hin as (s & -> & Hne & ->).
      destruct (collect_alerts_each _ _ (PStr s)
                  (sort_by_wall (of_service s events')) Hc') as (o & Ho & Hall).
      { apply sorted_groups_spec. exists s. auto. }
      apply Hall.
      rewrite (detect_sorted_group s events' Hwf' (Hsame' s Hne)) in Ho.
      rewrite <- (verdict_perm s events events' Hwf Hp) in Ho.
      rewrite <- (detect_sorted_group s events Hwf Hne) in Ho. congruence.
    + destruct (collect_alerts_in self _ _ _ Hc' Ha) as (k & l & Hin & Hdet).
      apply sorted_groups_spec in Hin. destruct Hin as (s & -> & Hne & ->).
      destruct (collect_alerts_each _ _ (PStr s)
                  (sort_by_wall (of_service s events)) Hmon) as (o & Ho & Hall).
      { apply sorted_groups_spec. exists s. auto. }
      apply Hall.
      rewrite (detect_sorted_group s events Hwf (Hsame s Hne)) in Ho.
      rewrite (verdict_perm s events events' Hwf Hp) in Ho.
      rewrite <- (detect_sorted_group s events' Hwf' Hne) in Ho. congruence.
Qed.

End Order.

Lemma unordered_input_same_alerts :
  exists alerts',
    monitor test_monitor unordered_events = Ok alerts'
    /\ Permutation [mk_alert (PStr "api") "2025-08-04T10:05:00Z"] alerts'.
Proof.
  apply (monitor_order_insensitive test_monitor (Some 0) ordered_events).
  - repeat constructor; try (eexists; reflexivity);
      eexists; split; vm_compute; reflexivity.
  - unfold ordered_events, unordered_events.
    apply Permutation_sym.
    apply (Permutation_cons_app
             [event "api" "2025-08-04T10:00:00Z";
              event "api" "2025-08-04T10:01:00Z";
              event "api" "2025-08-04T10:02:00Z"] []).
    rewrite app_nil_r. apply perm_skip, perm_swap.
  - vm_compute. reflexivity.
Defined.

Example test_unordered_input :
  monitor test_monitor unordered_events
  = Ok [mk_alert (PStr "api") "2025-08-04T10:05:00Z"].
Proof. vm_compute. reflexivity. Qed.

(* ===================================================================== *)
(** * Loading events *)
(* ===================================================================== *)

Lemma validate_event_passes e : validate_event e = Ok (passes e).
Proof.
  unfold passes.
  destruct e as [| b | z | s | l | d]; try reflexivity.
  unfold validate_event, dict_mem, py_getitem.
  destruct (dict_get "service" d) as [sv |]; [| reflexivity].
  destruct (dict_get "timestamp" d) as [ts |]; [| reflexivity].
  cbn [negb orb bind].
  destruct sv as [| b | z | s | l | d']; try reflexivity.
  destruct (strip_nonempty s); [| reflexivity].
  cbn [negb bind].
  destruct (proj1 parse_timestamp_never_raises ts) as [[t |] ->];
    reflexivity.
Qed.

(** What a validated event is: a dict whose service is a string with a
    character that is not white space and whose timestamp parses. *)
Lemma passes_inv e :
  passes e = true ->
  exists s t, py_getitem e "service" = Ok (PStr s)
              /\ strip_nonempty s = true
              /\ sort_key e = Ok (Some t).
Proof.
  unfold passes, validate_event, sort_key.
  destruct e as [| b | z | s | l | d]; try discriminate.
  unfold dict_mem, py_getitem.
  destruct (dict_get "service" d) as [sv |]; [| discriminate].
  destruct (dict_get "timestamp" d) as [ts |]; [| discriminate].
  cbn [negb orb bind].
  destruct sv as [| b | z | s | l | d']; try discriminate.
  destruct (strip_nonempty s) eqn:Es; [| discriminate].
  cbn [negb bind].
  destruct (parse_timestamp ts) as [[t |] | e]; try discriminate.
  intros _. exists s, t. auto.
Qed.

Lemma keep_valid_spec events : forall i valid printed,
  keep_valid i events valid printed
  = (printed
     ++ map (fun ie => WarnSkipping (fst ie) (snd ie))
          (filter (fun ie => negb (passes (snd ie)))
                  (combine (seq i (List.length events)) events)),
     Returned (valid ++ filter passes events)).
Proof.
  induction events as [| e events IH]; intros i valid printed.
  - cbn. now rewrite !app_nil_r.
  - cbn [keep_valid List.length seq combine filter snd fst].
    rewrite (validate_event_passes e).
    destruct (passes e); cbn [negb map]; rewrite IH.
    + now rewrite <- app_assoc.
    + now rewrite <- app_assoc.
Qed.

Lemma load_events_list (filepath : string) (events : list pyval) :
  load_events filepath (Decoded (PList events))
  = (map (fun ie => WarnSkipping (fst ie) (snd ie)) (skipped events),
     Returned (filter passes events)).
Proof. unfold load_events, skipped. now rewrite keep_valid_spec. Qed.


Lemma events_of_filter (p : pyval -> bool) v events :
  events_of v (filter p events) = filter p (events_of v events).
Proof.
  unfold events_of. induction events as [| e events IH]; [reflexivity |].
  cbn [filter].
  destruct (p e) eqn:Ep, (service_is v e) eqn:Es; cbn [filter];
    rewrite ?Ep, ?Es, IH; reflexivity.
Qed.

Lemma filter_passes_valid events :
  Forall (fun e => passes e = true) (filter passes events).
Proof.
  apply Forall_forall. intros e He. apply filter_In in He. apply He.
Qed.

(** The warnings name exactly the positions that fail validation. *)
Lemma skipped_spec events i e :
  In (i, e) (skipped events)
  <-> nth_error events i = Some e /\ passes e = false.
Proof.
  unfold skipped. rewrite filter_In. cbn [snd].
  rewrite negb_true_iff.
  assert (H : forall l k, In (i, e) (combine (seq k (List.length l)) l)
                          <-> (k <= i)%nat /\ nth_error l (i - k) = Some e).
  { induction l as [| x l IH]; intros k; cbn [List.length seq combine].
    - split; [intros [] |]. intros [_ H]. now destruct (i - k)%nat.
    - cbn [In]. rewrite IH. split.
      + intros [H | [H1 H2]].
        * inversion H; subst. rewrite Nat.sub_diag. split; [lia | reflexivity].
        * split; [lia |]. replace (i - k)%nat with (S (i - S k)) by lia.
          exact H2.
      + intros [H1 H2]. destruct (Nat.eq_dec k i) as [-> | Hne].
        * left. rewrite Nat.sub_diag in H2. cbn in H2. now inversion H2.
        * right. split; [lia |].
          replace (i - k)%nat with (S (i - S k)) in H2 by lia. exact H2. }
  rewrite H, Nat.sub_0_r. intuition lia.
Qed.

Lemma filter_passes_idem events :
  filter passes (filter passes events) = filter passes events.
Proof.
  induction events as [| e events IH]; [reflexivity |].
  cbn [filter]. destruct (passes e) eqn:E; [| exact IH].
  cbn [filter]. now rewrite E, IH.
Qed.

Lemma skipped_of_valid events :
  Forall (fun e => passes e = true) events -> skipped events = [].
Proof.
  intros H. unfold skipped.
  assert (G : forall l k, Forall (fun e => passes e = true) l ->
            filter (fun ie : nat * pyval => negb (passes (snd ie)))
                   (combine (seq k (List.length l)) l) = []).
  { induction l as [| x l IH]; intros k Hl; [reflexivity |].
    inversion Hl as [| ? ? Hx Hl']; subst.
    cbn [List.length seq combine filter snd]. rewrite Hx. cbn [negb].
    now apply IH. }
  now apply G.
Qed.

(** X5.  On a decoded list [load_events] returns the events that pass
    [validate_event], in their order, and prints one warning for each
    other element, with its index and value, and nothing else; it never
    raises. *)
Theorem load_events_filters (filepath : string) (events : list pyval) :
  exists printed,
    load_events filepath (Decoded (PList events))
    = (printed, Returned (filter passes events))
    /\ (forall m, In m printed -> exists i e, m = WarnSkipping i e)
    /\ (forall i e, In (WarnSkipping i e) printed
                    <-> nth_error events i = Some e /\ passes e = false)
    /\ (List.length printed + List.length (filter passes events)
        = List.length events)%nat.
Proof.
  eexists. split; [apply load_events_list |]. split; [| split].
  - intros m Hm. apply in_map_iff in Hm. destruct Hm as ([i e] & <- & _).
    now exists i, e.
  - intros i e. rewrite <- skipped_spec, in_map_iff. split.
    + intros ([i' e'] & Heq & Hin). cbn [fst snd] in Heq.
      now inversion Heq; subst.
    + intros Hin. now exists (i, e).
  - rewrite length_map. unfold skipped.
    assert (G : forall l k,
              (List.length
                 (filter (fun ie : nat * pyval => negb (passes (snd ie)))
                    (combine (seq k (List.length l)) l))
               + List.length (filter passes l) = List.length l)%nat).
    { induction l as [| x l IH]; intros k; [reflexivity |].
      cbn [List.length seq combine filter snd].
      destruct (passes x); cbn [negb List.length]; specialize (IH (S k)); lia. }
    apply G.
Qed.

(** X6.  Whatever reading the file comes to, short of an exception that
    is let through, [load_events] returns a list, every member of which
    is a dict with a string service that is not blank and a timestamp
    that parses; a single dict is taken as a list of one; a missing
    file, invalid JSON and any other document give the empty list; and
    loading the returned list again returns it unchanged with no
    warning. *)
Theorem load_events_returns_valid_events (filepath : string)
    (read : read_outcome) :
  (forall e, read <> ReadError e) ->
  exists printed valid,
    load_events filepath read = (printed, Returned valid)
    /\ Forall (fun e => exists s t,
                 py_getitem e "service" = Ok (PStr s)
                 /\ strip_nonempty s = true
                 /\ sort_key e = Ok (Some t)) valid
    /\ load_events filepath (Decoded (PList valid)) = ([], Returned valid)
    /\ (forall d, read = Decoded (PDict d) ->
          load_events filepath read
          = load_events filepath (Decoded (PList [PDict d])))
    /\ ((forall d, read <> Decoded (PDict d)) ->
        (forall l, read <> Decoded (PList l)) ->
        valid = [] /\ List.length printed = 1%nat).
Proof.
  intros Hread.
  assert (Hvalid : forall l,
            Forall (fun e => exists s t,
                      py_getitem e "service" = Ok (PStr s)
                      /\ strip_nonempty s = true
                      /\ sort_key e = Ok (Some t)) (filter passes l)).
  { intros l. apply Forall_forall. intros e He.
    apply filter_In in He. apply passes_inv, He. }
  assert (Hagain : forall l,
            load_events filepath (Decoded (PList (filter passes l)))
            = ([], Returned (filter passes l))).
  { intros l. rewrite load_events_list, filter_passes_idem.
    rewrite skipped_of_valid; [reflexivity |]. apply filter_passes_valid. }
  assert (Hnil : load_events filepath (Decoded (PList []))
                 = ([], Returned [])) by reflexivity.
  destruct read as [data | | msg | e].
  - destruct data as [| b | z | s | l | d].
    1-4: eexists _, []; cbn [load_events]; repeat split;
         try constructor; try discriminate; try exact Hnil.
    + exists (map (fun ie => WarnSkipping (fst ie) (snd ie)) (skipped l)),
             (filter passes l).
      split; [apply load_events_list |].
      split; [apply Hvalid |]. split; [apply Hagain |].
      split; [discriminate |]. intros _ H. now destruct (H l).
    + exists (map (fun ie => WarnSkipping (fst ie) (snd ie))
                  (skipped [PDict d])),
             (filter passes [PDict d]).
      change (load_events filepath (Decoded (PDict d)))
        with (load_events filepath (Decoded (PList [PDict d]))).
      split; [apply load_events_list |].
      split; [apply Hvalid |]. split; [apply Hagain |].
      split; [intros d0 H0; inversion H0; reflexivity |].
      intros H. now destruct (H d).
  - eexists _, []. cbn [load_events]. repeat split;
      try constructor; try discriminate; exact Hnil.
  - eexists _, []. cbn [load_events]. repeat split;
      try constructor; try discriminate; exact Hnil.
  - now destruct (Hread e).
Qed.

Lemma malformed_batch_loaded :
  (forall e, Decoded (PList malformed_events) <> ReadError e)
  /\ exists printed valid,
       load_events "events.json" (Decoded (PList malformed_events))
       = (printed, Returned valid)
       /\ valid = [event "cache" "2025-08-04T10:00:00Z";
                   event "cache" "2025-08-04T10:03:00Z"]
       /\ map (fun m => match m with
                        | WarnSkipping i _ => i
                        | _ => 0%nat
                        end) printed = [1; 2; 3; 4; 5; 6]%nat.
Proof.
  split; [discriminate |].
  destruct (load_events_returns_valid_events "events.json"
              (Decoded (PList malformed_events)))
    as (printed & valid & Hload & _); [discriminate |].
  exists printed, valid. split; [exact Hload |].
  vm_compute in Hload. inversion Hload; subst. split; reflexivity.
Defined.

(** X19.  On the path of [main], where [monitor] is handed what
    [load_events] returns: a service with fewer than two valid events in
    the decoded array is named by no alert, however many invalid events
    carry it. *)
Theorem few_valid_events_never_alert (self : HeartbeatMonitor)
    (filepath : string) (events : list pyval) (s : string)
    (printed : list message) (valid : list pyval)
    (alerts : list Alert) (a : Alert) :
  (List.length (filter passes (events_of (PStr s) events)) < 2)%nat ->
  load_events filepath (Decoded (PList events)) = (printed, Returned valid) ->
  monitor self valid = Ok alerts -> In a alerts ->
  service a <> PStr s.
Proof.
  intros Hfew Hload Hmon Hin.
  rewrite load_events_list in Hload. inversion Hload; subst valid.
  apply (few_events_no_alert self (filter passes events) s alerts a);
    [| exact Hmon | exact Hin].
  now rewrite events_of_filter.
Qed.

(** Two events of a blank service eight minutes apart, among two events
    of [db]: the blank ones are skipped with a warning and only [db] is
    alerted. *)
Lemma blank_service_is_not_alerted :
  (List.length (filter passes (events_of (PStr " ") blank_and_db_events))
   < 2)%nat
  /\ load_events "events.json" (Decoded (PList blank_and_db_events))
     = ([WarnSkipping 0 (event " " "2025-08-04T10:00:00Z");
         WarnSkipping 2 (event " " "2025-08-04T10:08:00Z")],
        Returned [event "db" "2025-08-04T10:00:00Z";
                  event "db" "2025-08-04T10:06:00Z"])
  /\ monitor test_monitor [event "db" "2025-08-04T10:00:00Z";
                           event "db" "2025-08-04T10:06:00Z"]
     = Ok [mk_alert (PStr "db") "2025-08-04T10:03:00Z"]
  /\ service (mk_alert (PStr "db") "2025-08-04T10:03:00Z") <> PStr " ".
Proof.
  assert (Hfew : (List.length
                    (filter passes (events_of (PStr " ") blank_and_db_events))
                  < 2)%nat) by (vm_compute; lia).
  assert (Hload : load_events "events.json"
                    (Decoded (PList blank_and_db_events))
                  = ([WarnSkipping 0 (event " " "2025-08-04T10:00:00Z");
                      WarnSkipping 2 (event " " "2025-08-04T10:08:00Z")],
                     Returned [event "db" "2025-08-04T10:00:00Z";
                               event "db" "2025-08-04T10:06:00Z"]))
    by (vm_compute; reflexivity).
  assert (Hmon : monitor test_monitor [event "db" "2025-08-04T10:00:00Z";
                                       event "db" "2025-08-04T10:06:00Z"]
                 = Ok [mk_alert (PStr "db") "2025-08-04T10:03:00Z"])
    by (vm_compute; reflexivity).
  split; [exact Hfew |]. split; [exact Hload |]. split; [exact Hmon |].
  apply (few_valid_events_never_alert test_monitor "events.json"
           blank_and_db_events " " _ _ _ _ Hfew Hload Hmon).
  now left.
Defined.

(* ===================================================================== *)
(** * Exceptions on validated events *)
(* ===================================================================== *)

(** ** The sort *)

Lemma is_aware_time_of e : is_aware e = aware_key (time_of e).
Proof.
  unfold is_aware, time_of, aware_key.
  destruct (sort_key e) as [[t |] |]; reflexivity.
Qed.

Lemma timed_time_of e : timed e -> exists t, time_of e = Some t.
Proof. intros [t H]. exists t. unfold time_of. now rewrite H. Qed.

Lemma key_lt_some x y :
  key_lt (Some x) (Some y)
  = if Bool.eqb (aware_key (Some x)) (aware_key (Some y))
    then Ok (utc_us x <? utc_us y) else Raise TypeError.
Proof.
  unfold key_lt, datetime_lt, aware_key.
  destruct (tzinfo x), (tzinfo y); reflexivity.
Qed.

Lemma key_lt_raises a b e : key_lt a b = Raise e -> e = TypeError.
Proof.
  destruct a as [x |], b as [y |]; cbn [key_lt]; try congruence.
  unfold datetime_lt. destruct (tzinfo x), (tzinfo y); congruence.
Qed.

Lemma insert_sorted_raises {A} (x : option datetime * A) l e :
  insert_sorted x l = Raise e -> e = TypeError.
Proof.
  induction l as [| y l IH]; cbn [insert_sorted]; [discriminate |].
  destruct (key_lt (fst y) (fst x)) as [b |] eqn:E; cbn [bind].
  - destruct b; [| discriminate].
    destruct (insert_sorted x l); cbn [bind]; [discriminate |].
    intros H. apply IH. congruence.
  - intros H. inversion H; subst. eapply key_lt_raises; eauto.
Qed.

Lemma insertion_sort_raises {A} (l : list (option datetime * A)) e :
  insertion_sort l = Raise e -> e = TypeError.
Proof.
  induction l as [| x l IH]; cbn [insertion_sort]; [discriminate |].
  destruct (insertion_sort l) as [s |]; cbn [bind].
  - apply insert_sorted_raises.
  - intros H. apply IH. congruence.
Qed.

Lemma insert_sorted_uniform {A} k (x : option datetime * A) l :
  keyed_as k x -> Forall (keyed_as k) l -> exists r, insert_sorted x l = Ok r.
Proof.
  intros [[tx Hx] Kx]. induction l as [| y l IH]; intros Hl.
  - eexists. reflexivity.
  - destruct (proj1 (Forall_cons_iff _ _ _) Hl) as [[[ty Hy] Ky] Hl'].
    cbn [insert_sorted]. rewrite Hx, Hy, key_lt_some.
    rewrite <- Hx, <- Hy, Kx, Ky, Bool.eqb_reflx. cbn [bind].
    destruct (utc_us ty <? utc_us tx); [| eexists; reflexivity].
    destruct (IH Hl') as [r ->]. eexists. reflexivity.
Qed.

Lemma insertion_sort_uniform {A} k (l : list (option datetime * A)) :
  Forall (keyed_as k) l -> exists r, insertion_sort l = Ok r.
Proof.
  induction l as [| x l IH]; intros Hl; [eexists; reflexivity |].
  destruct (proj1 (Forall_cons_iff _ _ _) Hl) as [Hx Hl'].
  destruct (IH Hl') as [s Hs]. cbn [insertion_sort]. rewrite Hs.
  cbn [bind]. apply (insert_sorted_uniform k); [exact Hx |].
  eapply Forall_perm; [| exact Hl']. now apply insertion_sort_perm.
Qed.

(** Keys that are datetimes, some aware and some naive, make the sort
    raise TypeError. *)
Lemma insertion_sort_mixed {A} (l : list (option datetime * A)) :
  Forall (fun p => exists t, fst p = Some t) l ->
  (exists x y, In x l /\ In y l /\ aware_key (fst x) <> aware_key (fst y)) ->
  insertion_sort l = Raise TypeError.
Proof.
  induction l as [| a l IH]; intros Hl (x & y & Hx & Hy & Hxy).
  - destruct Hx.
  - inversion Hl as [| ? ? [ta Ha] Hl']; subst.
    cbn [insertion_sort].
    destruct (insertion_sort l) as [s | e] eqn:E; cbn [bind].
    + assert (U : forall u v, In u l -> In v l ->
                              aware_key (fst u) = aware_key (fst v)).
      { intros u v Hu Hv.
        destruct (bool_dec (aware_key (fst u)) (aware_key (fst v)))
          as [? | Hne]; [assumption |].
        assert (Hr : Ok s = Raise TypeError)
          by (apply IH; [exact Hl' | exists u, v; auto]).
        discriminate Hr. }
      assert (Hz : exists z, In z l
                             /\ aware_key (fst z) <> aware_key (fst a)).
      { destruct Hx as [<- | Hx], Hy as [<- | Hy].
        - now destruct Hxy.
        - exists y. split; [exact Hy | congruence].
        - exists x. split; [exact Hx | congruence].
        - destruct Hxy. now apply U. }
      destruct Hz as (z & Hz & Hza).
      pose proof (insertion_sort_perm _ _ E) as Hp.
      destruct s as [| w s].
      * apply Permutation_sym, Permutation_nil in Hp. subst. destruct Hz.
      * assert (Hw : In w l).
        { eapply Permutation_in; [apply Permutation_sym, Hp | now left]. }
        destruct (proj1 (Forall_forall _ _) Hl' w Hw) as [tw Htw].
        cbn [insert_sorted]. rewrite Htw, Ha, key_lt_some.
        rewrite <- Htw, <- Ha.
        rewrite (U w z Hw Hz).
        destruct (Bool.eqb (aware_key (fst z)) (aware_key (fst a))) eqn:Eq;
          [| reflexivity].
        apply Bool.eqb_prop in Eq. now destruct Hza.
    + now rewrite (insertion_sort_raises _ _ E).
Qed.

Lemma mapM_sort_key_timed l :
  Forall timed l -> mapM sort_key l = Ok (map time_of l).
Proof.
  intros Hl. apply mapM_map. intros x Hx.
  destruct (proj1 (Forall_forall _ _) Hl x Hx) as [t Ht].
  unfold time_of. now rewrite Ht.
Qed.

Lemma sort_by_timestamp_timed l :
  Forall timed l ->
  sort_by_timestamp l
  = (sorted <- insertion_sort (tagged l) ;; Ok (map snd sorted)).
Proof.
  intros Hl. unfold sort_by_timestamp.
  rewrite (mapM_sort_key_timed l Hl). cbn [bind].
  now rewrite combine_tagged.
Qed.

Lemma tagged_in l p : In p (tagged l) <-> exists e, In e l /\ p = (time_of e, e).
Proof.
  unfold tagged. rewrite in_map_iff. split.
  - intros (e & <- & He). eauto.
  - intros (e & He & ->). eauto.
Qed.

(** Sorting the events of a group either succeeds, and then they are all
    aware or all naive, or raises TypeError, and then they are not. *)
Lemma sort_by_timestamp_cases l :
  Forall timed l ->
  (exists r, sort_by_timestamp l = Ok r /\ Permutation l r
             /\ forall x y, In x l -> In y l -> is_aware x = is_aware y)
  \/ (sort_by_timestamp l = Raise TypeError
      /\ exists x y, In x l /\ In y l /\ is_aware x <> is_aware y).
Proof.
  intros Hl.
  assert (Hk : Forall (fun p : option datetime * pyval =>
                         exists t, fst p = Some t) (tagged l)).
  { apply Forall_forall. intros p Hp. apply tagged_in in Hp.
    destruct Hp as (e & He & ->). cbn [fst].
    apply timed_time_of. exact (proj1 (Forall_forall _ _) Hl e He). }
  rewrite (sort_by_timestamp_timed l Hl).
  destruct (insertion_sort (tagged l)) as [s | e] eqn:E; cbn [bind].
  - left. exists (map snd s). split; [reflexivity |]. split.
    + rewrite <- (map_snd_tagged l) at 1.
      apply Permutation_map. now apply insertion_sort_perm.
    + intros x y Hx Hy.
      destruct (bool_dec (is_aware x) (is_aware y)) as [? | Hne];
        [assumption |].
      assert (Hr : insertion_sort (tagged l) = Raise TypeError);
        [| congruence].
      apply insertion_sort_mixed; [exact Hk |].
      exists (time_of x, x), (time_of y, y). cbn [fst].
      rewrite <- !is_aware_time_of.
      repeat split; try exact Hne; apply tagged_in; eauto.
  - right. rewrite (insertion_sort_raises _ _ E). split; [reflexivity |].
    destruct l as [| h l]; [discriminate |].
    destruct (Forall_Exists_dec (fun e => is_aware e = is_aware h)
                (fun e => bool_dec (is_aware e) (is_aware h)) (h :: l))
      as [Hu | Hx].
    + destruct (insertion_sort_uniform (is_aware h) (tagged (h :: l)))
        as [r Hr]; [| congruence].
      apply Forall_forall. intros p Hp.
      pose proof (proj1 (Forall_forall _ _) Hk p Hp) as Hs.
      apply tagged_in in Hp. destruct Hp as (x & Hx & ->).
      split; [exact Hs |]. cbn [fst]. rewrite <- is_aware_time_of.
      exact (proj1 (Forall_forall _ _) Hu x Hx).
    + apply Exists_exists in Hx. destruct Hx as (x & Hx & Hne).
      exists x, h. split; [exact Hx |]. split; [now left | exact Hne].
Qed.

(** ** Grouping *)

Lemma has_service_str e :
  has_service e -> py_getitem e "service" = Ok (PStr (service_str e)).
Proof. intros [s Hs]. unfold service_str. now rewrite Hs. Qed.

Lemma group_events_str events : forall g,
  Forall has_service events ->
  group_events events g = Ok (fold_left add_event events g).
Proof.
  induction events as [| e events IH]; intros g Hl; [reflexivity |].
  inversion Hl as [| ? ? He Hl']; subst.
  cbn [group_events fold_left].
  rewrite (has_service_str e He). cbn [bind py_hashable].
  now apply IH.
Qed.

Lemma of_service_in s events e :
  In e (of_service s events) <-> In e events /\ service_str e = s.
Proof.
  unfold of_service. rewrite filter_In, String.eqb_eq. intuition congruence.
Qed.

Lemma mapM_cases {A B} (f : A -> result B) l :
  (exists r, mapM f l = Ok r /\ Forall2 (fun x y => f x = Ok y) l r)
  \/ (exists x e, In x l /\ f x = Raise e /\ mapM f l = Raise e).
Proof.
  induction l as [| a l IH].
  - left. exists []. split; [reflexivity | constructor].
  - cbn [mapM]. destruct (f a) as [b | e] eqn:Ea; cbn [bind].
    + destruct IH as [(r & -> & Hr) | (x & e & Hx & Hfx & ->)];
        cbn [bind].
      * left. exists (b :: r). split; [reflexivity |]. now constructor.
      * right. exists x, e. split; [now right | auto].
    + right. exists a, e. split; [now left | auto].
Qed.

Lemma Forall2_in_l {A B} (R : A -> B -> Prop) l r x :
  Forall2 R l r -> In x l -> exists y, In y r /\ R x y.
Proof.
  induction 1 as [| a b l r Hab _ IH]; intros Hx; [destruct Hx |].
  destruct Hx as [<- | Hx].
  - exists b. split; [now left | exact Hab].
  - destruct (IH Hx) as (y & Hy & Hxy). exists y. split; [now right | auto].
Qed.

Lemma Forall2_in_r {A B} (R : A -> B -> Prop) l r y :
  Forall2 R l r -> In y r -> exists x, In x l /\ R x y.
Proof.
  induction 1 as [| a b l r Hab _ IH]; intros Hy; [destruct Hy |].
  destruct Hy as [<- | Hy].
  - exists a. split; [now left | exact Hab].
  - destruct (IH Hy) as (x & Hx & Hxy). exists x. split; [now right | auto].
Qed.

(** On events with a string service and a timestamp that parses,
    grouping and sorting either succeeds, each group being the events of
    one service reordered, all aware or all naive, or raises TypeError,
    some service having both kinds. *)
Lemma group_and_sort_cases events :
  Forall has_service events -> Forall timed events ->
  (exists g, group_and_sort_events events = Ok g
     /\ (forall k l, In (k, l) g ->
           exists s, k = PStr s /\ l <> []
             /\ Permutation (of_service s events) l
             /\ forall x y, In x l -> In y l -> is_aware x = is_aware y)
     /\ (forall s, of_service s events <> [] ->
           exists l, In (PStr s, l) g))
  \/ (group_and_sort_events events = Raise TypeError /\ mixed events).
Proof.
  intros Hs Ht. unfold group_and_sort_events.
  rewrite (group_events_str events [] Hs). cbn [bind].
  fold (grouped events).
  assert (Hg : forall k l0, In (k, l0) (grouped events) -> Forall timed l0).
  { intros k l0 Hin. apply grouped_in in Hin.
    destruct Hin as (s & -> & -> & _). apply Forall_forall. intros e He.
    apply of_service_in in He.
    exact (proj1 (Forall_forall _ _) Ht e (proj1 He)). }
  destruct (mapM_cases
              (fun g => l <- sort_by_timestamp (snd g) ;; Ok (fst g, l))
              (grouped events))
    as [(g & Hmap & Hall) | ([k l0] & e & Hin & Hf & Hmap)].
  - left. exists g. split; [exact Hmap |]. split.
    + intros k l Hin.
      destruct (Forall2_in_r _ _ _ _ Hall Hin) as ([k0 l0] & Hin0 & Hf).
      cbn [fst snd] in Hf.
      destruct (sort_by_timestamp_cases l0 (Hg _ _ Hin0))
        as [(r & Hr & Hp & Hu) | (Hr & _)]; rewrite Hr in Hf;
        cbn [bind] in Hf; [| discriminate].
      inversion Hf; subst. apply grouped_in in Hin0.
      destruct Hin0 as (s & -> & -> & Hne). exists s.
      split; [reflexivity |]. split.
      { intros ->. apply Hne. now apply Permutation_sym, Permutation_nil in Hp. }
      split; [exact Hp |]. intros x y Hx Hy.
      apply Hu; eapply Permutation_in; try apply Permutation_sym; eauto.
    + intros s Hne.
      assert (Hin : In (PStr s, of_service s events) (grouped events)).
      { apply grouped_in. exists s. auto. }
      destruct (Forall2_in_l _ _ _ _ Hall Hin) as ([k l] & Hin' & Hf).
      cbn [fst snd] in Hf.
      destruct (sort_by_timestamp (of_service s events)); cbn [bind] in Hf;
        [| discriminate].
      inversion Hf; subst. eauto.
  - right. cbn [fst snd] in Hf.
    destruct (sort_by_timestamp_cases l0 (Hg _ _ Hin))
      as [(r & Hr & _) | (Hr & x & y & Hx & Hy & Hxy)]; rewrite Hr in Hf;
      cbn [bind] in Hf; [discriminate |].
    inversion Hf; subst. split; [exact Hmap |].
    apply grouped_in in Hin. destruct Hin as (s & -> & -> & _).
    apply of_service_in in Hx, Hy. destruct Hx as [Hx Sx], Hy as [Hy Sy].
    exists x, y. repeat split; auto.
    rewrite (has_service_str x), (has_service_str y);
      [congruence | |]; eapply Forall_forall; eauto.
Qed.

(** ** The scan *)

Lemma timedelta_seconds_raises n e :
  timedelta_seconds n = Raise e -> e = OverflowError.
Proof.
  unfold timedelta_seconds, mk_timedelta.
  destruct (timedelta_in_range _); congruence.
Qed.

Lemma datetime_add_raises t delta e :
  datetime_add t delta = Raise e -> e = OverflowError.
Proof.
  unfold datetime_add. destruct (_ && _); congruence.
Qed.

Lemma expected_after_raises t n e :
  expected_after t n = Raise e -> e = OverflowError.
Proof.
  unfold expected_after.
  destruct (timedelta_seconds n) as [delta |] eqn:E; cbn [bind].
  - apply datetime_add_raises.
  - intros H. inversion H; subst. eapply timedelta_seconds_raises; eauto.
Qed.

Lemma float_of_int_nonzero z :
  0 < z -> Qeq_bool (float_of_int z) 0 = false.
Proof.
  intros Hz. unfold float_of_int.
  assert (H : (0 < round53 (inject_Z z))%Q).
  { apply round53_pos. change 0%Q with (inject_Z 0). now rewrite <- Zlt_Qlt. }
  destruct (Qeq_bool (round53 (inject_Z z)) 0) eqn:E; [| reflexivity].
  apply Qeq_bool_iff in E. rewrite E in H. now apply Qlt_irrefl in H.
Qed.

Section Safe.

Variable self : HeartbeatMonitor.
Hypothesis interval_positive : 0 < expected_interval_seconds self.

Lemma check_gap_raises name c en diff e :
  check_gap self name c en diff = Raise e -> e = OverflowError.
Proof.
  unfold check_gap, intervals_missed, float_div.
  rewrite (float_of_int_nonzero _ interval_positive).
  destruct (is_late self (total_seconds diff)); [| discriminate].
  cbn [bind]. destruct (_ >=? _); [| discriminate].
  destruct (expected_after en _) as [t |] eqn:E; cbn [bind]; [discriminate |].
  intros H. inversion H; subst. eapply expected_after_raises; eauto.
Qed.

Lemma scan_pair_raises name c e1 e2 e :
  timed e1 -> timed e2 -> is_aware e1 = is_aware e2 ->
  scan_pair self name c e1 e2 = Raise e -> e = OverflowError.
Proof.
  intros [t1 H1] [t2 H2] Ha. unfold is_aware in Ha. rewrite H1, H2 in Ha.
  unfold scan_pair. rewrite H1, H2. cbn [bind].
  destruct (timedelta_seconds (expected_interval_seconds self))
    as [delta |] eqn:Ed; cbn [bind].
  2: { intros H. inversion H; subst. eapply timedelta_seconds_raises; eauto. }
  cbn [opt_add].
  destruct (datetime_add t1 delta) as [en |] eqn:Ea; cbn [bind].
  2: { intros H. inversion H; subst. eapply datetime_add_raises; eauto. }
  destruct (datetime_add_ok _ _ _ Ea) as [_ Htz].
  cbn [opt_sub]. unfold datetime_sub. rewrite Htz.
  destruct (tzinfo t2), (tzinfo t1); try discriminate; cbn [bind];
    apply check_gap_raises.
Qed.

Lemma scan_raises name l : forall c e,
  Forall timed l ->
  (forall x y, In x l -> In y l -> is_aware x = is_aware y) ->
  scan self name c l = Raise e -> e = OverflowError.
Proof.
  induction l as [| e1 l IH]; intros c e Ht Hu; [discriminate |].
  destruct l as [| e2 l]; [discriminate |].
  rewrite scan_step.
  inversion Ht as [| ? ? T1 Ht']; subst.
  inversion Ht' as [| ? ? T2 _]; subst.
  destruct (scan_pair self name c e1 e2) as [[a | c'] | e'] eqn:E;
    cbn [bind].
  - discriminate.
  - apply IH; [exact Ht' |]. intros x y Hx Hy. apply Hu; now right.
  - intros H. inversion H; subst.
    apply (scan_pair_raises name c e1 e2); auto.
    apply Hu; [now left | right; now left].
Qed.

Lemma detect_raises l e :
  Forall has_service l -> Forall timed l ->
  (forall x y, In x l -> In y l -> is_aware x = is_aware y) ->
  detect_missed_heartbeats self l = Raise e -> e = OverflowError.
Proof.
  intros Hs Ht Hu. destruct l as [| first rest]; [discriminate |].
  cbn [detect_missed_heartbeats].
  inversion Hs as [| ? ? [s H1] _]; subst. rewrite H1. cbn [bind].
  now apply scan_raises.
Qed.

Lemma collect_alerts_raises g e :
  (forall k l e', In (k, l) g ->
     detect_missed_heartbeats self l = Raise e' -> e' = OverflowError) ->
  collect_alerts self g = Raise e -> e = OverflowError.
Proof.
  induction g as [| [k l] g IH]; intros Hg; [discriminate |].
  cbn [collect_alerts].
  destruct (detect_missed_heartbeats self l) as [o | e'] eqn:E; cbn [bind].
  - destruct (collect_alerts self g) as [alerts | e''] eqn:Ec; cbn [bind];
      [discriminate |].
    intros H. inversion H; subst. apply IH; [| reflexivity].
    intros k' l' e' Hin. apply (Hg k' l' e'). now right.
  - intros H. inversion H; subst. apply (Hg k l e); [now left | exact E].
Qed.

Lemma passes_has_service events :
  Forall (fun e => passes e = true) events -> Forall has_service events.
Proof.
  intros Hv. eapply Forall_impl; [| exact Hv]. intros e He.
  destruct (passes_inv e He) as (s & t & H1 & _). now exists s.
Qed.

Lemma passes_timed events :
  Forall (fun e => passes e = true) events -> Forall timed events.
Proof.
  intros Hv. eapply Forall_impl; [| exact Hv]. intros e He.
  destruct (passes_inv e He) as (s & t & _ & _ & H3). now exists t.
Qed.

(** Two events of one service lie in one sorted group. *)
Lemma mixed_in_group events g :
  Forall has_service events ->
  (forall k l, In (k, l) g ->
     exists s, k = PStr s /\ l <> []
       /\ Permutation (of_service s events) l
       /\ forall x y, In x l -> In y l -> is_aware x = is_aware y) ->
  (forall s, of_service s events <> [] -> exists l, In (PStr s, l) g) ->
  ~ mixed events.
Proof.
  intros Hs Hg Hall (e1 & e2 & H1 & H2 & Hsv & Hne).
  pose proof (has_service_str e1 (proj1 (Forall_forall _ _) Hs e1 H1)) as S1.
  pose proof (has_service_str e2 (proj1 (Forall_forall _ _) Hs e2 H2)) as S2.
  rewrite S1, S2 in Hsv. inversion Hsv as [Heq].
  assert (I1 : In e1 (of_service (service_str e1) events))
    by (apply of_service_in; auto).
  assert (I2 : In e2 (of_service (service_str e1) events))
    by (apply of_service_in; auto).
  destruct (Hall (service_str e1)) as [l Hin].
  { intros Hnil. rewrite Hnil in I1. destruct I1. }
  destruct (Hg _ _ Hin) as (s & Hks & _ & Hp & Hu).
  inversion Hks; subst s. apply Hne.
  apply Hu; eapply Permutation_in; eauto.
Qed.

Lemma monitor_raise_cases (events : list pyval) :
  Forall (fun e => passes e = true) events ->
  forall e, monitor self events = Raise e ->
    (e = TypeError /\ mixed events)
    \/ (e = OverflowError /\ ~ mixed events).
Proof.
  intros Hv e.
  pose proof (passes_has_service events Hv) as Hs.
  pose proof (passes_timed events Hv) as Ht.
  unfold monitor.
  destruct (group_and_sort_cases events Hs Ht)
    as [(g & -> & Hg & Hall) | (-> & Hm)]; cbn [bind].
  - intros Hc. right. split.
    + apply (collect_alerts_raises g); [| exact Hc].
      intros k l e' Hin.
      destruct (Hg k l Hin) as (s & -> & _ & Hp & Hu).
      assert (Hsub : forall x, In x l -> In x events).
      { intros x Hx. eapply Permutation_in in Hx;
          [| apply Permutation_sym, Hp].
        now apply of_service_in in Hx. }
      apply detect_raises; [| | exact Hu]; apply Forall_forall;
        intros x Hx; eapply Forall_forall; eauto.
    + now apply (mixed_in_group events g).
  - intros H. inversion H; subst. left. auto.
Qed.

Lemma mixed_raises (events : list pyval) :
  Forall (fun e => passes e = true) events ->
  mixed events -> monitor self events = Raise TypeError.
Proof.
  intros Hv Hm.
  pose proof (passes_has_service events Hv) as Hs.
  pose proof (passes_timed events Hv) as Ht.
  unfold monitor.
  destruct (group_and_sort_cases events Hs Ht)
    as [(g & Hgs & Hg & Hall) | (-> & _)]; [| reflexivity].
  now destruct (mixed_in_group events g Hs Hg Hall).
Qed.

(** X7.  On events that all pass [validate_event], with a positive
    interval, [monitor] raises TypeError exactly when some service has
    both a timestamp with an offset and one without; any other exception
    it raises is OverflowError. *)
Theorem monitor_on_validated_events (events : list pyval) :
  Forall (fun e => passes e = true) events ->
  (monitor self events = Raise TypeError <-> mixed events)
  /\ (forall e, monitor self events = Raise e ->
        e = TypeError \/ e = OverflowError).
Proof.
  intros Hv. split; [split |].
  - intros H. destruct (monitor_raise_cases events Hv _ H)
      as [[_ Hm] | [He _]]; [exact Hm | discriminate].
  - now apply mixed_raises.
  - intros e H. destruct (monitor_raise_cases events Hv _ H)
      as [[-> _] | [-> _]]; auto.
Qed.

End Safe.

Lemma validated_pair_of_kinds_raises :
  0 < expected_interval_seconds test_monitor
  /\ Forall (fun e => passes e = true) naive_and_aware_events
  /\ mixed naive_and_aware_events
  /\ monitor test_monitor naive_and_aware_events = Raise TypeError.
Proof.
  assert (Hv : Forall (fun e => passes e = true) naive_and_aware_events)
    by (repeat constructor).
  assert (Hm : mixed naive_and_aware_events).
  { exists (event "api" "2025-08-04T10:00:00"),
           (event "api" "2025-08-04T10:01:00Z").
    split; [now left |]. split; [right; now left |].
    split; [reflexivity |]. vm_compute. discriminate. }
  split; [reflexivity |]. split; [exact Hv |]. split; [exact Hm |].
  apply (monitor_on_validated_events test_monitor eq_refl
           naive_and_aware_events Hv).
  exact Hm.
Defined.

Example monitor_overflows_at_the_end_of_time :
  passes (event "a" "9999-12-31T23:59:00Z") = true
  /\ passes (event "a" "9999-12-31T23:59:30Z") = true
  /\ monitor test_monitor
       [event "a" "9999-12-31T23:59:00Z"; event "a" "9999-12-31T23:59:30Z"]
     = Raise OverflowError.
Proof. vm_compute. repeat split. Qed.

(* ===================================================================== *)
(** * The command *)
(* ===================================================================== *)




(* ===================================================================== *)
(** * What [group_and_sort_events] returns *)
(* ===================================================================== *)

(** ** Nothing is lost *)

Lemma dict_append_concat sv e d :
  Permutation (List.concat (map snd (dict_append sv e d)))
              (List.concat (map snd d) ++ [e]).
Proof.
  induction d as [| [k l] d IH]; cbn [dict_append].
  - apply Permutation_refl.
  - destruct (py_key_eqb sv k); cbn [map snd List.concat].
    + rewrite <- !app_assoc. apply Permutation_app_head.
      apply Permutation_app_comm.
    + rewrite <- app_assoc. now apply Permutation_app_head.
Qed.

Lemma group_events_concat events : forall g0 g,
  group_events events g0 = Ok g ->
  Permutation (List.concat (map snd g)) (List.concat (map snd g0) ++ events).
Proof.
  induction events as [| e events IH]; intros g0 g; cbn [group_events].
  - intros H. inversion H; subst. now rewrite app_nil_r.
  - destruct (py_getitem e "service") as [sv |]; cbn [bind];
      [| discriminate].
    destruct (py_hashable sv); cbn [bind]; [| discriminate].
    intros H. eapply perm_trans; [apply (IH _ _ H) |].
    change (e :: events) with ([e] ++ events). rewrite app_assoc.
    apply Permutation_app_tail, dict_append_concat.
Qed.

Lemma dict_append_nonempty sv e d :
  Forall (fun kl : pyval * list pyval => snd kl <> []) d ->
  Forall (fun kl : pyval * list pyval => snd kl <> []) (dict_append sv e d).
Proof.
  induction d as [| [k l] d IH]; intros Hd; cbn [dict_append].
  - constructor; [discriminate | constructor].
  - inversion Hd as [| ? ? Hl Hd']; subst.
    destruct (py_key_eqb sv k).
    + constructor; [| exact Hd']. cbn [snd]. now destruct l.
    + constructor; [exact Hl | now apply IH].
Qed.

Lemma group_events_nonempty events : forall g0 g,
  group_events events g0 = Ok g ->
  Forall (fun kl : pyval * list pyval => snd kl <> []) g0 ->
  Forall (fun kl : pyval * list pyval => snd kl <> []) g.
Proof.
  induction events as [| e events IH]; intros g0 g; cbn [group_events].
  - intros H. now inversion H.
  - destruct (py_getitem e "service") as [sv |]; cbn [bind];
      [| discriminate].
    destruct (py_hashable sv); cbn [bind]; [| discriminate].
    intros H Hg. apply (IH _ _ H). now apply dict_append_nonempty.
Qed.

Lemma dict_append_distinct sv e d :
  distinct_keys d -> distinct_keys (dict_append sv e d).
Proof.
  unfold distinct_keys.
  induction d as [| [k l] d IH]; intros Hd; cbn [dict_append].
  - constructor; constructor.
  - inversion Hd as [| ? ? Hhead Htail]; subst.
    destruct (py_key_eqb sv k) eqn:E.
    + constructor; [| exact Htail].
      apply Forall_forall. intros q Hq.
      exact (proj1 (Forall_forall _ _) Hhead q Hq).
    + constructor; [| now apply IH].
      apply Forall_forall. intros [k' l'] Hq. cbn [fst].
      apply dict_append_in in Hq.
      destruct Hq as [Hq | [(l0 & Hq & _) | [-> _]]].
      * exact (proj1 (Forall_forall _ _) Hhead _ Hq).
      * exact (proj1 (Forall_forall _ _) Hhead _ Hq).
      * exact E.
Qed.

Lemma group_events_distinct events : forall g0 g,
  group_events events g0 = Ok g -> distinct_keys g0 -> distinct_keys g.
Proof.
  induction events as [| e events IH]; intros g0 g; cbn [group_events].
  - intros H. now inversion H.
  - destruct (py_getitem e "service") as [sv |]; cbn [bind];
      [| discriminate].
    destruct (py_hashable sv); cbn [bind]; [| discriminate].
    intros H Hg. apply (IH _ _ H). now apply dict_append_distinct.
Qed.

(** ** Each group is in order *)

Lemma key_lt_true a b :
  key_lt a b = Ok true ->
  exists ta tb, a = Some ta /\ b = Some tb /\ utc_us ta < utc_us tb.
Proof.
  destruct a as [ta |], b as [tb |]; cbn [key_lt]; try discriminate.
  unfold datetime_lt. intros H. exists ta, tb.
  destruct (tzinfo ta), (tzinfo tb); try discriminate;
    inversion H as [H']; apply Z.ltb_lt in H'; auto.
Qed.

Lemma key_lt_false a b :
  key_lt a b = Ok false ->
  exists ta tb, a = Some ta /\ b = Some tb /\ utc_us tb <= utc_us ta.
Proof.
  destruct a as [ta |], b as [tb |]; cbn [key_lt]; try discriminate.
  unfold datetime_lt. intros H. exists ta, tb.
  destruct (tzinfo ta), (tzinfo tb); try discriminate;
    inversion H as [H']; apply Z.ltb_ge in H'; auto.
Qed.

Lemma insert_sorted_hd {A} (x y : option datetime * A) l r :
  insert_sorted x l = Ok r -> key_le y x -> HdRel key_le y l ->
  HdRel key_le y r.
Proof.
  destruct l as [| z l]; cbn [insert_sorted].
  - intros H. inversion H; subst. now constructor.
  - destruct (key_lt (fst z) (fst x)) as [[|] |]; cbn [bind];
      try discriminate.
    + destruct (insert_sorted x l); cbn [bind]; [| discriminate].
      intros H Hyx Hyz. inversion H; subst. inversion Hyz; subst.
      now constructor.
    + intros H Hyx _. inversion H; subst. now constructor.
Qed.

Lemma insert_sorted_sorted {A} (x : option datetime * A) l : forall r,
  insert_sorted x l = Ok r -> Sorted key_le l -> Sorted key_le r.
Proof.
  induction l as [| y l IH]; intros r; cbn [insert_sorted].
  - intros H _. inversion H; subst. repeat constructor.
  - destruct (key_lt (fst y) (fst x)) as [[|] |] eqn:E; cbn [bind];
      try discriminate.
    + destruct (insert_sorted x l) as [r' |] eqn:Er; cbn [bind];
        [| discriminate].
      intros H Hs. inversion H; subst. inversion Hs as [| ? ? Hs' Hhd]; subst.
      constructor; [now apply IH |].
      apply (insert_sorted_hd x y l r' Er); [| exact Hhd].
      destruct (key_lt_true _ _ E) as (ty & tx & Hy & Hx & Hlt).
      exists ty, tx. repeat split; auto. lia.
    + intros H Hs. inversion H; subst. constructor; [exact Hs |].
      constructor. destruct (key_lt_false _ _ E) as (ty & tx & Hy & Hx & Hle).
      exists tx, ty. auto.
Qed.

Lemma insertion_sort_sorted {A} (l : list (option datetime * A)) : forall r,
  insertion_sort l = Ok r -> Sorted key_le r.
Proof.
  induction l as [| x l IH]; intros r; cbn [insertion_sort].
  - intros H. inversion H; subst. constructor.
  - destruct (insertion_sort l) as [s |]; cbn [bind]; [| discriminate].
    intros H. eapply insert_sorted_sorted; eauto.
Qed.

(** Equal instants keep their order: the sort does not move an element
    past one of the same instant. *)
Lemma insert_sorted_stable {A} v (x : option datetime * A) l : forall r,
  insert_sorted x l = Ok r ->
  filter (fun p => key_at v (fst p)) r
  = filter (fun p => key_at v (fst p)) (x :: l).
Proof.
  induction l as [| y l IH]; intros r; cbn [insert_sorted].
  - intros H. now inversion H.
  - destruct (key_lt (fst y) (fst x)) as [[|] |] eqn:E; cbn [bind];
      try discriminate.
    + destruct (insert_sorted x l) as [r' |] eqn:Er; cbn [bind];
        [| discriminate].
      intros H. inversion H; subst.
      destruct (key_lt_true _ _ E) as (ty & tx & Hy & Hx & Hlt).
      cbn [filter]. rewrite (IH r' eq_refl). cbn [filter].
      rewrite Hy, Hx. cbn [key_at].
      destruct (utc_us tx =? v) eqn:Ex; [| reflexivity].
      apply Z.eqb_eq in Ex.
      destruct (utc_us ty =? v) eqn:Ey; [| reflexivity].
      apply Z.eqb_eq in Ey. lia.
    + intros H. now inversion H.
Qed.

Lemma insertion_sort_stable {A} v (l : list (option datetime * A)) : forall r,
  insertion_sort l = Ok r ->
  filter (fun p => key_at v (fst p)) r
  = filter (fun p => key_at v (fst p)) l.
Proof.
  induction l as [| x l IH]; intros r; cbn [insertion_sort].
  - intros H. now inversion H.
  - destruct (insertion_sort l) as [s |]; cbn [bind]; [| discriminate].
    intros H. rewrite (insert_sorted_stable v x s r H).
    cbn [filter]. now rewrite (IH s eq_refl).
Qed.

Lemma mapM_sort_key_tagged l keys :
  mapM sort_key l = Ok keys -> combine keys l = tagged l.
Proof.
  revert keys. induction l as [| e l IH]; intros keys; cbn [mapM].
  - intros H. now inversion H.
  - destruct (sort_key e) as [k |] eqn:E; cbn [bind]; [| discriminate].
    destruct (mapM sort_key l) as [ks |]; cbn [bind]; [| discriminate].
    intros H. inversion H; subst. cbn [combine tagged map].
    rewrite (IH ks eq_refl). unfold time_of. now rewrite E.
Qed.

Lemma mapM_sort_key_ok l keys :
  mapM sort_key l = Ok keys ->
  forall e, In e l -> sort_key e = Ok (time_of e).
Proof.
  revert keys. induction l as [| x l IH]; intros keys; cbn [mapM].
  - intros _ e [].
  - destruct (sort_key x) as [k |] eqn:E; cbn [bind]; [| discriminate].
    destruct (mapM sort_key l) as [ks |]; cbn [bind]; [| discriminate].
    intros _ e [<- | He].
    + unfold time_of. now rewrite E.
    + now apply (IH ks).
Qed.

Lemma Sorted_map {A B} (R : A -> A -> Prop) (R' : B -> B -> Prop)
    (f : A -> B) l :
  (forall x y, In x l -> In y l -> R x y -> R' (f x) (f y)) ->
  Sorted R l -> Sorted R' (map f l).
Proof.
  induction l as [| a l IH]; intros HR Hs; [constructor |].
  inversion Hs as [| ? ? Hs' Hhd]; subst. cbn [map]. constructor.
  - apply IH; [| exact Hs']. intros x y Hx Hy. apply HR; now right.
  - destruct l as [| b l]; [constructor |]. inversion Hhd; subst.
    constructor. apply HR; [now left | right; now left | assumption].
Qed.

Lemma filter_map_snd {A B} (f : B -> bool) (g : A * B -> bool) l :
  (forall p, In p l -> g p = f (snd p)) ->
  filter f (map snd l) = map snd (filter g l).
Proof.
  induction l as [| p l IH]; intros H; [reflexivity |].
  cbn [map filter]. rewrite (H p (or_introl eq_refl)).
  rewrite IH by (intros q Hq; apply H; now right).
  now destruct (f (snd p)).
Qed.

(** What the sort of one group returns: the same events, each not later
    than the next, those of one instant in the order they had. *)
Lemma sort_by_timestamp_ok l r :
  sort_by_timestamp l = Ok r ->
  Permutation l r /\ Sorted not_later r
  /\ forall v, filter (at_instant v) r = filter (at_instant v) l.
Proof.
  intros H. split; [now apply sort_by_timestamp_perm |].
  unfold sort_by_timestamp in H.
  destruct (mapM sort_key l) as [keys |] eqn:Ek; cbn [bind] in H;
    [| discriminate].
  rewrite (mapM_sort_key_tagged l keys Ek) in H.
  destruct (insertion_sort (tagged l)) as [s |] eqn:Es; cbn [bind] in H;
    [| discriminate].
  inversion H; subst r.
  assert (Htag : forall p, In p s -> fst p = time_of (snd p) /\ In (snd p) l).
  { intros p Hp.
    eapply Permutation_in in Hp;
      [| apply Permutation_sym, (insertion_sort_perm _ _ Es)].
    apply tagged_in in Hp. destruct Hp as (e & He & ->). auto. }
  split.
  - apply (Sorted_map key_le); [| eapply insertion_sort_sorted; eauto].
    intros p q Hp Hq (tp & tq & Kp & Kq & Hle).
    destruct (Htag p Hp) as [Tp Ip], (Htag q Hq) as [Tq Iq].
    exists tp, tq.
    rewrite (mapM_sort_key_ok l keys Ek _ Ip), <- Tp, Kp.
    rewrite (mapM_sort_key_ok l keys Ek _ Iq), <- Tq, Kq. auto.
  - intros v.
    rewrite (filter_map_snd (at_instant v) (fun p => key_at v (fst p)) s).
    + rewrite (insertion_sort_stable v (tagged l) s Es).
      rewrite <- (filter_map_snd (at_instant v)).
      * now rewrite map_snd_tagged.
      * intros p Hp. apply tagged_in in Hp. now destruct Hp as (e & _ & ->).
    + intros p Hp. unfold at_instant. now rewrite (proj1 (Htag p Hp)).
Qed.

Lemma sorted_groups_forall2 (g0 g : groups) :
  mapM (fun gr => l <- sort_by_timestamp (snd gr) ;; Ok (fst gr, l)) g0
    = Ok g ->
  Forall2 (fun x y => fst y = fst x
                      /\ sort_by_timestamp (snd x) = Ok (snd y)) g0 g.
Proof.
  intros H.
  destruct (mapM_cases
              (fun gr => l <- sort_by_timestamp (snd gr) ;; Ok (fst gr, l)) g0)
    as [(r & Hr & Hall) | (x & e & _ & _ & Hr)]; rewrite Hr in H;
    [| discriminate].
  inversion H; subst r. eapply Forall2_impl; [| exact Hall].
  intros [k l0] [k' l] Hf. cbn [fst snd] in *.
  destruct (sort_by_timestamp l0); cbn [bind] in Hf; [| discriminate].
  now inversion Hf.
Qed.

Lemma group_and_sort_concat events g :
  group_and_sort_events events = Ok g ->
  Permutation (List.concat (map snd g)) events.
Proof.
  unfold group_and_sort_events. intros H.
  destruct (group_events events []) as [g0 |] eqn:E0; cbn [bind] in H;
    [| discriminate].
  pose proof (sorted_groups_forall2 g0 g H) as Hall.
  eapply perm_trans; [| apply (group_events_concat events [] g0 E0)].
  clear - Hall. induction Hall as [| x y g0 g [_ Hxy] _ IH];
    [apply Permutation_refl |].
  cbn [map List.concat]. apply Permutation_app; [| exact IH].
  apply Permutation_sym. now apply sort_by_timestamp_perm.
Qed.

Lemma group_member_in_events events g k l e :
  group_and_sort_events events = Ok g ->
  In (k, l) g -> In e l -> In e events.
Proof.
  intros H Hkl He.
  eapply Permutation_in; [apply (group_and_sort_concat events g H) |].
  apply in_concat. exists l. split; [| exact He].
  apply in_map_iff. now exists (k, l).
Qed.

(** X9.  Whenever [group_and_sort_events] returns, the groups hold the
    events of the input, each once; no group is empty; no two groups
    have equal keys; the service of every event of a group is the key of
    its group; and in every group each timestamp parses and denotes an
    instant not later than the next one's. *)
Theorem group_and_sort_events_partitions (events : list pyval) (g : groups) :
  group_and_sort_events events = Ok g ->
  Permutation (List.concat (map snd g)) events
  /\ distinct_keys g
  /\ forall k l, In (k, l) g ->
       l <> []
       /\ (forall e, In e l -> service_is k e = true)
       /\ Sorted not_later l.
Proof.
  intros H0. pose proof (group_and_sort_concat events g H0) as Hperm.
  revert H0. unfold group_and_sort_events. intros H.
  destruct (group_events events []) as [g0 |] eqn:E0; cbn [bind] in H;
    [| discriminate].
  pose proof (sorted_groups_forall2 g0 g H) as Hall.
  split; [| split].
  - exact Hperm.
  - pose proof (group_events_distinct events [] g0 E0
                  (FOP_nil _)) as Hd.
    unfold distinct_keys in *. clear - Hall Hd.
    induction Hall as [| x y g0 g [Hk _] Hall' IH]; [constructor |].
    inversion Hd as [| ? ? Hhead Htail]; subst. constructor; [| now apply IH].
    apply Forall_forall. intros q Hq.
    destruct (Forall2_in_r _ _ _ _ Hall' Hq) as (q0 & Hq0 & Hkq & _).
    rewrite Hk, Hkq. exact (proj1 (Forall_forall _ _) Hhead q0 Hq0).
  - intros k l Hin.
    destruct (Forall2_in_r _ _ _ _ Hall Hin) as ([k0 l0] & Hin0 & Hk & Hs).
    cbn [fst snd] in Hk, Hs. subst k0.
    destruct (sort_by_timestamp_ok l0 l Hs) as (Hp & Hsorted & _).
    split; [| split; [| exact Hsorted]].
    + intros ->. apply Permutation_sym, Permutation_nil in Hp. subst l0.
      pose proof (group_events_nonempty events [] g0 E0 (Forall_nil _)) as Hn.
      exact (proj1 (Forall_forall _ _) Hn _ Hin0 eq_refl).
    + intros e He.
      destruct (group_events_invariant events [] g0 [] E0) as [Hkeyed _].
      { intros ? ? ? []. }
      { intros ? ? []. }
      apply (Hkeyed k l0 e Hin0).
      eapply Permutation_in; [apply Permutation_sym, Hp | exact He].
Qed.

Lemma unordered_events_grouped :
  group_and_sort_events unordered_events = Ok [(PStr "api", ordered_events)]
  /\ Permutation (List.concat (map snd [(PStr "api", ordered_events)]))
                 unordered_events
  /\ Sorted not_later ordered_events.
Proof.
  assert (H : group_and_sort_events unordered_events
              = Ok [(PStr "api", ordered_events)])
    by (vm_compute; reflexivity).
  split; [exact H |].
  destruct (group_and_sort_events_partitions unordered_events _ H)
    as (Hp & _ & Hg).
  split; [exact Hp |]. apply (Hg (PStr "api")). now left.
Defined.

(** X10.  On events whose services are strings, whenever
    [group_and_sort_events] returns there is one group for each service
    that has an event, it is the sort of the events of that service, and
    the events of a group that share an instant stand in their order in
    the input. *)
Theorem groups_are_stably_sorted_services (events : list pyval) (g : groups) :
  Forall has_service events ->
  group_and_sort_events events = Ok g ->
  NoDup (map fst g)
  /\ (forall k l, In (k, l) g <->
        exists s, k = PStr s /\ of_service s events <> []
                  /\ sort_by_timestamp (of_service s events) = Ok l)
  /\ (forall s l v, In (PStr s, l) g ->
        filter (at_instant v) l
        = filter (at_instant v) (of_service s events)).
Proof.
  intros Hs. unfold group_and_sort_events.
  rewrite (group_events_str events [] Hs). cbn [bind].
  fold (grouped events). intros H.
  pose proof (sorted_groups_forall2 _ _ H) as Hall.
  assert (Hin : forall k l, In (k, l) g <->
            exists s, k = PStr s /\ of_service s events <> []
                      /\ sort_by_timestamp (of_service s events) = Ok l).
  { intros k l. split.
    - intros Hkl.
      destruct (Forall2_in_r _ _ _ _ Hall Hkl) as ([k0 l0] & Hin0 & Hk & Hl).
      cbn [fst snd] in Hk, Hl. subst k0. apply grouped_in in Hin0.
      destruct Hin0 as (s & -> & -> & Hne). exists s. auto.
    - intros (s & -> & Hne & Hsort).
      assert (Hin0 : In (PStr s, of_service s events) (grouped events))
        by (apply grouped_in; exists s; auto).
      destruct (Forall2_in_l _ _ _ _ Hall Hin0) as ([k l'] & Hin' & Hk & Hl).
      cbn [fst snd] in Hk, Hl. subst k. congruence. }
  split; [| split; [exact Hin |]].
  - assert (Hkeys : map fst g = map fst (grouped events)).
    { clear - Hall. induction Hall as [| x y g0 g [Hk _] _ IH];
        [reflexivity |]. cbn [map]. now rewrite Hk, IH. }
    rewrite Hkeys. apply grouped_str_keyed.
  - intros s l v Hkl. apply Hin in Hkl.
    destruct Hkl as (s' & Heq & _ & Hsort). inversion Heq; subst s'.
    apply (sort_by_timestamp_ok _ _ Hsort).
Qed.

Lemma tied_events_keep_their_order :
  Forall has_service tied_events
  /\ group_and_sort_events tied_events
     = Ok [(PStr "api",
            [event "api" "2025-08-04T10:00:00Z";
             event "api" "2025-08-04T10:01:00Z";
             event "api" "2025-08-04T10:01:00+00:00"])]
  /\ forall s l v,
       In (PStr s, l)
          [(PStr "api",
            [event "api" "2025-08-04T10:00:00Z";
             event "api" "2025-08-04T10:01:00Z";
             event "api" "2025-08-04T10:01:00+00:00"])] ->
       filter (at_instant v) l
       = filter (at_instant v) (of_service s tied_events).
Proof.
  assert (H1 : Forall has_service tied_events)
    by (repeat constructor; eexists; reflexivity).
  assert (H2 : group_and_sort_events tied_events
               = Ok [(PStr "api",
                      [event "api" "2025-08-04T10:00:00Z";
                       event "api" "2025-08-04T10:01:00Z";
                       event "api" "2025-08-04T10:01:00+00:00"])])
    by (vm_compute; reflexivity).
  split; [exact H1 |]. split; [exact H2 |].
  exact (proj2 (proj2
           (groups_are_stably_sorted_services tied_events _ H1 H2))).
Defined.

(* ===================================================================== *)
(** * Datetimes that come from parsing *)
(* ===================================================================== *)

Lemma new_datetime_valid y m d hh mm ss us tz t :
  new_datetime y m d hh mm ss us tz = Ok t -> valid_datetime t.
Proof.
  unfold new_datetime, valid_datetime.
  destruct (check_date_fields y m d) eqn:Ed; [| discriminate].
  destruct (check_time_fields hh mm ss us) eqn:Et; [| discriminate].
  cbn [andb]. destruct tz as [off |].
  - destruct (check_utcoffset off) eqn:Eo; [| discriminate].
    intros H. inversion H; subst. cbn. auto.
  - intros H. inversion H; subst. cbn. auto.
Qed.

Lemma fromisoformat_valid s t :
  fromisoformat_str s = Ok t -> valid_datetime t.
Proof.
  unfold fromisoformat_str.
  destruct (parse_isoformat_date (chars s)) as [[[[y m] d] [| sep tstr]] |];
    try discriminate.
  - apply new_datetime_valid.
  - destruct (parse_isoformat_time tstr) as [[[[[hh mm] ss] us] tz] |];
      [| discriminate].
    apply new_datetime_valid.
Qed.

Lemma parse_timestamp_valid v t :
  parse_timestamp v = Ok (Some t) -> valid_datetime t.
Proof.
  destruct v as [| b | z | s | l | d]; try (cbn; discriminate).
  rewrite parse_timestamp_str.
  destruct (fromisoformat_str _) as [t' |] eqn:E; [| discriminate].
  intros H. inversion H; subst. eapply fromisoformat_valid; eauto.
Qed.

Lemma sort_key_valid e t : sort_key e = Ok (Some t) -> valid_datetime t.
Proof.
  unfold sort_key. destruct (py_getitem e "timestamp"); cbn [bind];
    [apply parse_timestamp_valid | discriminate].
Qed.

Lemma days_before_year_step y :
  days_before_year (y + 1)
  = days_before_year y + 365 + (if is_leap y then 1 else 0).
Proof.
  unfold days_before_year.
  destruct (is_leap y) eqn:E.
  - apply is_leap_spec in E. replace (y + 1 - 1) with y by lia. zlia.
  - assert (H : ~ (y mod 4 = 0 /\ (y mod 100 <> 0 \/ y mod 400 = 0))).
    { intros H. apply is_leap_spec in H. congruence. }
    replace (y + 1 - 1) with y by lia. zlia.
Qed.

Lemma days_before_year_mono y : 1 <= y <= 10000 ->
  0 <= days_before_year y <= 3652059.
Proof. unfold days_before_year. intros H. zlia. Qed.

Lemma ymd2ord_bounds y m d :
  check_date_fields y m d = true -> 1 <= ymd2ord y m d <= MAXORDINAL.
Proof.
  unfold check_date_fields, MINYEAR, MAXYEAR, MAXORDINAL.
  rewrite !andb_true_iff, !Z.leb_le.
  intros [[[[[Hy1 Hy2] Hm1] Hm2] Hd1] Hd2].
  pose proof (days_before_year_step y) as Hstep.
  pose proof (days_before_year_mono y ltac:(lia)) as Hlo.
  pose proof (days_before_year_mono (y + 1) ltac:(lia)) as Hhi.
  unfold ymd2ord, days_before_month, days_in_month in *.
  assert (Hm : m = 1 \/ m = 2 \/ m = 3 \/ m = 4 \/ m = 5 \/ m = 6 \/ m = 7
               \/ m = 8 \/ m = 9 \/ m = 10 \/ m = 11 \/ m = 12) by lia.
  repeat (destruct Hm as [Hm | Hm]); subst m;
    cbn [Z.eqb Z.ltb Z.compare Pos.compare Pos.compare_cont andb
         DAYS_IN_MONTH DAYS_BEFORE_MONTH Pos.eqb] in *;
    destruct (is_leap y); lia.
Qed.

Lemma wall_us_bounds t :
  valid_datetime t ->
  US_PER_DAY <= wall_us t < (MAXORDINAL + 1) * US_PER_DAY.
Proof.
  intros (Hd & Ht & _). pose proof (ymd2ord_bounds _ _ _ Hd) as Ho.
  unfold check_time_fields in Ht.
  rewrite !andb_true_iff, !Z.leb_le in Ht.
  unfold wall_us, US_PER_DAY, US_PER_SECOND, MAXORDINAL in *. lia.
Qed.

Lemma utc_us_bounds t :
  valid_datetime t ->
  0 < utc_us t < (MAXORDINAL + 2) * US_PER_DAY.
Proof.
  intros Hv. pose proof (wall_us_bounds t Hv) as Hw.
  destruct Hv as (_ & _ & Ho). unfold utc_us.
  destruct (tzinfo t) as [off |].
  - unfold check_utcoffset in Ho. rewrite andb_true_iff, !Z.ltb_lt in Ho.
    unfold US_PER_DAY, US_PER_SECOND, MAXORDINAL in *. lia.
  - unfold US_PER_DAY, US_PER_SECOND, MAXORDINAL in *. lia.
Qed.

(** The date of an ordinal day between 1 and [MAXORDINAL] is a date of
    the calendar, and from the first day of year 1000 on its year has
    four digits. *)
Lemma ord2ymd_valid n :
  1 <= n <= MAXORDINAL ->
  match ord2ymd n with
  | (y, m, d) => check_date_fields y m d = true
                 /\ (364877 < n -> 1000 <= y)
  end.
Proof.
  intros Hn. unfold MAXORDINAL in Hn.
  unfold ord2ymd, DI400Y, DI100Y, DI4Y.
  set (a := n - 1).
  pose proof (Z.div_mod a 146097 ltac:(lia)) as H400.
  pose proof (Z.mod_pos_bound a 146097 ltac:(lia)) as B400.
  set (n400 := a / 146097) in *. set (r400 := a mod 146097) in *.
  pose proof (Z.div_mod r400 36524 ltac:(lia)) as H100.
  pose proof (Z.mod_pos_bound r400 36524 ltac:(lia)) as B100.
  set (n100 := r400 / 36524) in *. set (r100 := r400 mod 36524) in *.
  pose proof (Z.div_mod r100 1461 ltac:(lia)) as H4.
  pose proof (Z.mod_pos_bound r100 1461 ltac:(lia)) as B4.
  set (n4 := r100 / 1461) in *. set (r4 := r100 mod 1461) in *.
  pose proof (Z.div_mod r4 365 ltac:(lia)) as H1.
  pose proof (Z.mod_pos_bound r4 365 ltac:(lia)) as B1.
  set (n1 := r4 / 365) in *. set (r1 := r4 mod 365) in *.
  assert (0 <= n400 <= 24) by (unfold a in *; zlia).
  assert (0 <= n100 <= 4) by zlia.
  assert (0 <= n4 <= 24) by zlia.
  assert (0 <= n1 <= 4) by zlia.
  set (y := n400 * 400 + 1 + n100 * 100 + n4 * 4 + n1).
  assert (Hy : 1 <= y).
  { unfold y. lia. }
  assert (Hy4 : 364877 < n -> 1000 <= y - (if (n1 =? 4) || (n100 =? 4) then 1 else 0)).
  { intros Hbig. unfold y, a in *.
    destruct ((n1 =? 4) || (n100 =? 4)) eqn:E.
    - apply orb_true_iff in E. rewrite !Z.eqb_eq in E. lia.
    - apply orb_false_iff in E. rewrite !Z.eqb_neq in E. lia. }
  destruct ((n1 =? 4) || (n100 =? 4)) eqn:E.
  - split; [| intros Hb; specialize (Hy4 Hb); lia].
    unfold check_date_fields, days_in_month, MINYEAR, MAXYEAR.
    cbn [Z.eqb Pos.eqb andb DAYS_IN_MONTH Z.leb Z.compare Pos.compare
         Pos.compare_cont].
    apply orb_true_iff in E. rewrite !Z.eqb_eq in E.
    rewrite !andb_true_iff, !Z.leb_le. unfold y, a in *.
    repeat split; try lia.
  - apply orb_false_iff in E. rewrite !Z.eqb_neq in E.
    set (leapyear := (n1 =? 3) && (negb (n4 =? 24) || (n100 =? 3))).
    assert (Hl : is_leap y = leapyear).
    { unfold leapyear.
      destruct (is_leap y) eqn:El.
      - apply is_leap_spec in El. symmetry.
        rewrite andb_true_iff, orb_true_iff, negb_true_iff, !Z.eqb_eq,
          Z.eqb_neq. unfold y in El. zlia.
      - symmetry. apply not_true_iff_false. intros Hc.
        apply not_true_iff_false in El. apply El. apply is_leap_spec.
        rewrite andb_true_iff, orb_true_iff, negb_true_iff, !Z.eqb_eq,
          Z.eqb_neq in Hc. unfold y. zlia. }
    assert (Hy2 : y <= 9999) by (unfold y, a in *; lia).
    assert (Hr1 : leapyear = false -> r1 <= 364) by lia.
    rewrite Z.shiftr_div_pow2 by zlia. change (2 ^ 5) with 32.
    pose proof (Z.div_mod (r1 + 50) 32 ltac:(lia)) as Hm.
    pose proof (Z.mod_pos_bound (r1 + 50) 32 ltac:(lia)) as Bm.
    set (m := (r1 + 50) / 32) in *.
    assert (Hm' : m = 1 \/ m = 2 \/ m = 3 \/ m = 4 \/ m = 5 \/ m = 6
                  \/ m = 7 \/ m = 8 \/ m = 9 \/ m = 10 \/ m = 11 \/ m = 12)
      by zlia.
    unfold check_date_fields, days_in_month, MINYEAR, MAXYEAR.
    destruct leapyear;
      repeat (destruct Hm' as [Hm' | Hm']);
      rewrite Hm' in *; cbn -[Z.add Z.sub Z.mul Z.leb];
      match goal with
      | |- context [?a <? ?b] => destruct (Z.ltb_spec a b)
      end;
      repeat match goal with
             | |- context [Zpos ?p - 1] =>
                 let v := eval compute in (Zpos p - 1) in
                 change (Zpos p - 1) with v
             end;
      cbn -[Z.add Z.sub Z.mul Z.leb];
      rewrite ?Hl; cbn -[Z.add Z.sub Z.mul Z.leb];
      (split; [rewrite !andb_true_iff, !Z.leb_le; lia
              | intros Hb; specialize (Hy4 Hb); lia]).
Qed.
Lemma year_1000_ordinal y m d :
  check_date_fields y m d = true -> 1000 <= y -> 364877 < ymd2ord y m d.
Proof.
  unfold check_date_fields, MINYEAR, MAXYEAR.
  rewrite !andb_true_iff, !Z.leb_le.
  intros [[[[[Hy1 Hy2] Hm1] Hm2] Hd1] Hd2] Hy.
  assert (H : 364877 <= days_before_year y).
  { destruct (Z.eq_dec y 1000) as [-> | Hne]; [apply Z.leb_le; reflexivity |].
    unfold days_before_year. zlia. }
  unfold ymd2ord, days_before_month.
  assert (Hm : m = 1 \/ m = 2 \/ m = 3 \/ m = 4 \/ m = 5 \/ m = 6 \/ m = 7
               \/ m = 8 \/ m = 9 \/ m = 10 \/ m = 11 \/ m = 12) by lia.
  repeat (destruct Hm as [Hm | Hm]); subst m;
    cbn [DAYS_BEFORE_MONTH Z.ltb Z.compare Pos.compare Pos.compare_cont andb];
    destruct (is_leap y); lia.
Qed.

Lemma wall_us_ordinal t :
  valid_datetime t ->
  ymd2ord (year t) (month t) (day t) <= wall_us t / US_PER_DAY.
Proof.
  intros (_ & Ht & _). unfold check_time_fields in Ht.
  rewrite !andb_true_iff, !Z.leb_le in Ht.
  unfold wall_us, US_PER_DAY, US_PER_SECOND. zlia.
Qed.

(* ===================================================================== *)
(** * The alerts of [monitor] *)
(* ===================================================================== *)

Lemma monitor_inv self events alerts :
  monitor self events = Ok alerts ->
  exists g, group_and_sort_events events = Ok g
            /\ collect_alerts self g = Ok alerts.
Proof. unfold monitor. apply bind_inv. Qed.

(** The groups of events whose services are strings. *)
Lemma group_and_sort_str events g :
  Forall has_service events ->
  group_and_sort_events events = Ok g ->
  NoDup (map fst g)
  /\ forall k l, In (k, l) g <->
       exists s, k = PStr s /\ of_service s events <> []
                 /\ sort_by_timestamp (of_service s events) = Ok l.
Proof.
  intros Hs. unfold group_and_sort_events.
  rewrite (group_events_str events [] Hs). cbn [bind].
  fold (grouped events). intros H.
  pose proof (sorted_groups_forall2 _ _ H) as Hall.
  split.
  - assert (Hkeys : map fst g = map fst (grouped events)).
    { clear - Hall. induction Hall as [| x y g0 g [Hk _] _ IH];
        [reflexivity |]. cbn [map]. now rewrite Hk, IH. }
    rewrite Hkeys. apply grouped_str_keyed.
  - intros k l. split.
    + intros Hkl.
      destruct (Forall2_in_r _ _ _ _ Hall Hkl) as ([k0 l0] & Hin0 & Hk & Hl).
      cbn [fst snd] in Hk, Hl. subst k0. apply grouped_in in Hin0.
      destruct Hin0 as (s & -> & -> & Hne). exists s. auto.
    + intros (s & -> & Hne & Hsort).
      assert (Hin0 : In (PStr s, of_service s events) (grouped events))
        by (apply grouped_in; exists s; auto).
      destruct (Forall2_in_l _ _ _ _ Hall Hin0) as ([k l'] & Hin' & Hk & Hl).
      cbn [fst snd] in Hk, Hl. subst k. congruence.
Qed.

(** An alert raised on the sorted events of service [s] names [s]. *)
Lemma sorted_service_alert self events s l a :
  Forall has_service events ->
  sort_by_timestamp (of_service s events) = Ok l ->
  detect_missed_heartbeats self l = Ok (Some a) ->
  service a = PStr s.
Proof.
  intros Hs Hsort Hdet.
  destruct (detect_alert self l a Hdet) as (first & rest & -> & Hsv & _).
  assert (Hin : In first (of_service s events)).
  { eapply Permutation_in;
      [apply Permutation_sym, (sort_by_timestamp_perm _ _ Hsort) | now left]. }
  apply of_service_in in Hin. destruct Hin as [Hin <-].
  rewrite (has_service_str first) in Hsv
    by exact (proj1 (Forall_forall _ _) Hs first Hin).
  now inversion Hsv.
Qed.

(** X11.  On events whose services are strings, the alerts [monitor]
    returns name pairwise different services, each the service of some
    event of the input. *)
Theorem monitor_alerts_each_service_once self events alerts :
  Forall has_service events ->
  monitor self events = Ok alerts ->
  NoDup (map service alerts)
  /\ forall a, In a alerts ->
       exists e, In e events /\ py_getitem e "service" = Ok (service a).
Proof.
  intros Hs Hmon.
  destruct (monitor_inv _ _ _ Hmon) as (g & Hg & Hc).
  destruct (group_and_sort_str events g Hs Hg) as [Hnd Hin].
  assert (Hkey : forall k l a, In (k, l) g ->
            detect_missed_heartbeats self l = Ok (Some a) -> service a = k).
  { intros k l a Hkl Hdet. apply Hin in Hkl.
    destruct Hkl as (s & -> & _ & Hsort).
    eapply sorted_service_alert; eauto. }
  destruct (collect_alerts_nodup self g alerts Hc Hnd Hkey) as [H1 H2].
  split; [exact H1 |]. intros a Ha.
  destruct (collect_alerts_in self g alerts a Hc Ha) as (k & l & Hkl & Hdet).
  destruct (detect_alert self l a Hdet) as (first & rest & -> & Hsv & _).
  exists first. split; [| exact Hsv].
  apply Hin in Hkl. destruct Hkl as (s & _ & _ & Hsort).
  assert (Hf : In first (of_service s events)).
  { eapply Permutation_in;
      [apply Permutation_sym, (sort_by_timestamp_perm _ _ Hsort) | now left]. }
  now apply of_service_in in Hf.
Qed.

(** X12.  Whether a service is alerted, and with which alert, depends on
    the events of that service only. *)
Theorem services_are_independent self events1 events2 alerts1 alerts2 s a :
  Forall has_service events1 -> Forall has_service events2 ->
  of_service s events1 = of_service s events2 ->
  monitor self events1 = Ok alerts1 ->
  monitor self events2 = Ok alerts2 ->
  service a = PStr s ->
  (In a alerts1 <-> In a alerts2).
Proof.
  assert (H : forall ev1 ev2 al1 al2,
            Forall has_service ev1 -> Forall has_service ev2 ->
            of_service s ev1 = of_service s ev2 ->
            monitor self ev1 = Ok al1 -> monitor self ev2 = Ok al2 ->
            service a = PStr s -> In a al1 -> In a al2).
  { intros ev1 ev2 al1 al2 Hs1 Hs2 Heq Hm1 Hm2 Hsa Ha.
    destruct (monitor_inv _ _ _ Hm1) as (g1 & Hg1 & Hc1).
    destruct (monitor_inv _ _ _ Hm2) as (g2 & Hg2 & Hc2).
    destruct (group_and_sort_str ev1 g1 Hs1 Hg1) as [_ Hin1].
    destruct (group_and_sort_str ev2 g2 Hs2 Hg2) as [_ Hin2].
    destruct (collect_alerts_in self g1 al1 a Hc1 Ha) as (k & l & Hkl & Hdet).
    apply Hin1 in Hkl. destruct Hkl as (s' & -> & Hne & Hsort).
    assert (s' = s).
    { pose proof (sorted_service_alert self ev1 s' l a Hs1 Hsort Hdet) as E.
      rewrite Hsa in E. now inversion E. }
    subst s'. rewrite Heq in Hne, Hsort.
    assert (Hkl2 : In (PStr s, l) g2) by (apply Hin2; exists s; auto).
    destruct (collect_alerts_each self g2 al2 _ _ Hc2 Hkl2) as (o & Ho & Hoa).
    rewrite Hdet in Ho. inversion Ho; subst o. now apply Hoa. }
  intros Hs1 Hs2 Heq Hm1 Hm2 Hsa. split.
  - now apply (H events1 events2).
  - now apply (H events2 events1).
Qed.

(** ** The threshold *)

Lemma check_gap_threshold I M M' name c en diff :
  M' <= M ->
  match check_gap (mk_monitor I M) name c en diff with
  | Ok (Alerted _) =>
      match check_gap (mk_monitor I M') name c en diff with
      | Ok (Continue _) => False
      | _ => True
      end
  | Ok (Continue c') =>
      match check_gap (mk_monitor I M') name c en diff with
      | Ok (Continue c'') => c'' = c'
      | _ => True
      end
  | Raise _ => True
  end.
Proof.
  intros Hle. unfold check_gap.
  change (is_late (mk_monitor I M') (total_seconds diff))
    with (is_late (mk_monitor I M) (total_seconds diff)).
  change (intervals_missed (mk_monitor I M') (total_seconds diff))
    with (intervals_missed (mk_monitor I M) (total_seconds diff)).
  cbn [allowed_misses expected_interval_seconds].
  destruct (is_late (mk_monitor I M) (total_seconds diff)); [| reflexivity].
  destruct (intervals_missed (mk_monitor I M) (total_seconds diff))
    as [missed |]; cbn [bind]; [| trivial].
  destruct (Z.geb_spec (c + missed) M) as [H1 | H1];
    destruct (Z.geb_spec (c + missed) M') as [H2 | H2]; try lia.
  - destruct (expected_after en (I * (M - 1))); cbn [bind]; [| trivial].
    now destruct (expected_after en (I * (M' - 1))).
  - now destruct (expected_after en (I * (M' - 1))).
Qed.

Lemma scan_pair_threshold I M M' name c e1 e2 :
  M' <= M ->
  match scan_pair (mk_monitor I M) name c e1 e2 with
  | Ok (Alerted _) =>
      match scan_pair (mk_monitor I M') name c e1 e2 with
      | Ok (Continue _) => False
      | _ => True
      end
  | Ok (Continue c') =>
      match scan_pair (mk_monitor I M') name c e1 e2 with
      | Ok (Continue c'') => c'' = c'
      | _ => True
      end
  | Raise _ => True
  end.
Proof.
  intros Hle. unfold scan_pair. cbn [expected_interval_seconds].
  destruct (sort_key e1) as [k1 |]; cbn [bind]; [| trivial].
  destruct (sort_key e2) as [k2 |]; cbn [bind]; [| trivial].
  destruct (timedelta_seconds I) as [delta |]; cbn [bind]; [| trivial].
  destruct (opt_add k1 delta) as [en |]; cbn [bind]; [| trivial].
  destruct (opt_sub k2 en) as [diff |]; cbn [bind]; [| trivial].
  now apply check_gap_threshold.
Qed.

Lemma scan_threshold I M M' name l : forall c a,
  M' <= M ->
  scan (mk_monitor I M) name c l = Ok (Some a) ->
  scan (mk_monitor I M') name c l <> Ok None.
Proof.
  induction l as [| e1 l IH]; intros c a Hle; [discriminate |].
  destruct l as [| e2 l]; [discriminate |].
  rewrite !scan_step.
  pose proof (scan_pair_threshold I M M' name c e1 e2 Hle) as Hp.
  destruct (scan_pair (mk_monitor I M) name c e1 e2) as [[a1 | c1] |];
    cbn [bind]; [| | discriminate].
  - intros _.
    destruct (scan_pair (mk_monitor I M') name c e1 e2) as [[a2 | c2] |];
      cbn [bind]; try discriminate. destruct Hp.
  - intros H.
    destruct (scan_pair (mk_monitor I M') name c e1 e2) as [[a2 | c2] |];
      cbn [bind]; try discriminate.
    subst c2. now apply (IH c1 a).
Qed.

(** X13.  Lowering [allowed_misses] never silences a service: a service
    alerted under a threshold is alerted under every lower threshold
    with which [monitor] returns. *)
Theorem lower_threshold_keeps_alerts I M M' events alerts alerts' a :
  M' <= M ->
  monitor (mk_monitor I M) events = Ok alerts ->
  monitor (mk_monitor I M') events = Ok alerts' ->
  In a alerts ->
  exists a', In a' alerts' /\ service a' = service a.
Proof.
  intros Hle Hm Hm' Ha.
  destruct (monitor_inv _ _ _ Hm) as (g & Hg & Hc).
  destruct (monitor_inv _ _ _ Hm') as (g' & Hg' & Hc').
  rewrite Hg in Hg'. inversion Hg'; subst g'.
  destruct (collect_alerts_in _ g alerts a Hc Ha) as (k & l & Hkl & Hdet).
  destruct (collect_alerts_each _ g alerts' k l Hc' Hkl) as (o & Ho & Hoa).
  destruct (detect_alert _ l a Hdet) as (first & rest & -> & Hsv & _).
  cbn [detect_missed_heartbeats] in Hdet, Ho.
  rewrite Hsv in Hdet, Ho. cbn [bind] in Hdet, Ho.
  destruct o as [a' |].
  - exists a'. split; [now apply Hoa |].
    now destruct (scan_alert _ _ _ _ _ Ho) as [-> _].
  - now destruct (scan_threshold I M M' _ _ _ _ Hle Hdet).
Qed.

Lemma stricter_threshold_still_alerts :
  1 <= 3
  /\ In (mk_alert (PStr "email") "2025-08-04T10:05:00Z")
        [mk_alert (PStr "email") "2025-08-04T10:05:00Z"]
  /\ exists a', In a' [mk_alert (PStr "email") "2025-08-04T10:03:00Z"]
                /\ service a' = PStr "email".
Proof.
  split; [lia |]. split; [now left |].
  apply (lower_threshold_keeps_alerts 60 3 1 working_alert_events
           [mk_alert (PStr "email") "2025-08-04T10:05:00Z"]
           [mk_alert (PStr "email") "2025-08-04T10:03:00Z"]
           (mk_alert (PStr "email") "2025-08-04T10:05:00Z")).
  - lia.
  - vm_compute. reflexivity.
  - vm_compute. reflexivity.
  - now left.
Defined.

Lemma one_alert_for_db :
  Forall has_service solo_events
  /\ monitor test_monitor solo_events
     = Ok [mk_alert (PStr "db") "2025-08-04T10:03:00Z"]
  /\ NoDup (map service [mk_alert (PStr "db") "2025-08-04T10:03:00Z"])
  /\ forall a, In a [mk_alert (PStr "db") "2025-08-04T10:03:00Z"] ->
       exists e, In e solo_events
                 /\ py_getitem e "service" = Ok (service a).
Proof.
  assert (H1 : Forall has_service solo_events)
    by (repeat constructor; eexists; reflexivity).
  assert (H2 : monitor test_monitor solo_events
               = Ok [mk_alert (PStr "db") "2025-08-04T10:03:00Z"])
    by (vm_compute; reflexivity).
  split; [exact H1 |]. split; [exact H2 |].
  exact (monitor_alerts_each_service_once test_monitor solo_events _ H1 H2).
Defined.

Lemma db_alert_with_or_without_solo :
  Forall has_service solo_events
  /\ Forall has_service
       [event "db" "2025-08-04T10:00:00Z"; event "db" "2025-08-04T10:06:00Z"]
  /\ of_service "db" solo_events
     = of_service "db" [event "db" "2025-08-04T10:00:00Z";
                        event "db" "2025-08-04T10:06:00Z"]
  /\ monitor test_monitor solo_events
     = Ok [mk_alert (PStr "db") "2025-08-04T10:03:00Z"]
  /\ monitor test_monitor
       [event "db" "2025-08-04T10:00:00Z"; event "db" "2025-08-04T10:06:00Z"]
     = Ok [mk_alert (PStr "db") "2025-08-04T10:03:00Z"]
  /\ (In (mk_alert (PStr "db") "2025-08-04T10:03:00Z")
         [mk_alert (PStr "db") "2025-08-04T10:03:00Z"]
      <-> In (mk_alert (PStr "db") "2025-08-04T10:03:00Z")
            [mk_alert (PStr "db") "2025-08-04T10:03:00Z"]).
Proof.
  assert (H1 : Forall has_service solo_events)
    by (repeat constructor; eexists; reflexivity).
  assert (H2 : Forall has_service
                 [event "db" "2025-08-04T10:00:00Z";
                  event "db" "2025-08-04T10:06:00Z"])
    by (repeat constructor; eexists; reflexivity).
  split; [exact H1 |]. split; [exact H2 |].
  split; [reflexivity |].
  split; [vm_compute; reflexivity |]. split; [vm_compute; reflexivity |].
  apply (services_are_independent test_monitor solo_events
           [event "db" "2025-08-04T10:00:00Z";
            event "db" "2025-08-04T10:06:00Z"]
           [mk_alert (PStr "db") "2025-08-04T10:03:00Z"]
           [mk_alert (PStr "db") "2025-08-04T10:03:00Z"]
           "db" (mk_alert (PStr "db") "2025-08-04T10:03:00Z") H1 H2);
    vm_compute; reflexivity.
Defined.

(* ===================================================================== *)
(** * Where an alert comes from *)
(* ===================================================================== *)

Lemma datetime_sub_utc a b diff :
  datetime_sub a b = Ok diff -> diff = utc_us a - utc_us b.
Proof.
  unfold datetime_sub, utc_us.
  destruct (tzinfo a), (tzinfo b); try discriminate;
    intros H; inversion H; lia.
Qed.

Lemma expected_after_value t n u :
  expected_after t n = Ok u ->
  u = of_wall_us (wall_us t + n * US_PER_SECOND) (tzinfo t)
  /\ 0 < (wall_us t + n * US_PER_SECOND) / US_PER_DAY <= MAXORDINAL
  /\ timedelta_in_range (n * US_PER_SECOND) = true.
Proof.
  unfold expected_after, timedelta_seconds, mk_timedelta.
  destruct (timedelta_in_range (n * US_PER_SECOND)); [| discriminate].
  cbn [bind]. unfold datetime_add.
  destruct ((0 <? (wall_us t + n * US_PER_SECOND) / US_PER_DAY)
            && ((wall_us t + n * US_PER_SECOND) / US_PER_DAY <=? MAXORDINAL))
    eqn:E; [| discriminate].
  apply andb_true_iff in E. rewrite Z.ltb_lt, Z.leb_le in E.
  intros H. inversion H; subst. auto.
Qed.

Lemma interval_in_range n :
  0 < n -> timedelta_in_range (n * US_PER_SECOND) = true -> n < 2 ^ 48.
Proof.
  unfold timedelta_in_range. rewrite andb_true_iff, !Z.leb_le.
  unfold US_PER_DAY, US_PER_SECOND. intros Hn [_ H].
  change (2 ^ 48) with 281474976710656. zlia.
Qed.

Lemma is_late_positive self us :
  0 < expected_interval_seconds self ->
  is_late self (total_seconds us) = true -> 0 < us.
Proof.
  intros HI Hlate.
  destruct (Z.lt_trichotomy us 0) as [Hneg | [-> | Hpos]]; [| | exact Hpos].
  - rewrite (is_late_negative self us HI Hneg) in Hlate. discriminate.
  - exfalso. revert Hlate.
    unfold is_late, float_ge, float_mul, float_of_int.
    change (total_seconds 0) with 0%Q.
    intros Hc. apply Qle_bool_iff in Hc.
    assert (H2 : (0 < round53 (round53
                                (inject_Z (expected_interval_seconds self))
                              * FLOAT_0_9))%Q).
    { apply round53_pos. apply Qmult_lt_0_compat.
      - apply round53_pos. now apply inject_Z_pos.
      - rewrite FLOAT_0_9_value. reflexivity. }
    apply (Qlt_irrefl 0). eapply Qlt_le_trans; eauto.
Qed.

Section Late.

Variable self : HeartbeatMonitor.
Hypothesis interval_positive : 0 < expected_interval_seconds self.

(** What a turn of the loop that returns an alert has computed. *)
Lemma scan_pair_alerted name c e1 e2 a :
  scan_pair self name c e1 e2 = Ok (Alerted a) ->
  exists t1 t2 en diff at_,
    sort_key e1 = Ok (Some t1) /\ sort_key e2 = Ok (Some t2)
    /\ expected_after t1 (expected_interval_seconds self) = Ok en
    /\ datetime_sub t2 en = Ok diff
    /\ is_late self (total_seconds diff) = true
    /\ expected_after en (expected_interval_seconds self
                          * (allowed_misses self - 1)) = Ok at_
    /\ a = mk_alert name (strftime_iso_Z at_).
Proof.
  unfold scan_pair.
  destruct (sort_key e1) as [[t1 |] |]; cbn [bind]; try discriminate.
  2: { destruct (sort_key e2); cbn [bind]; try discriminate.
       destruct (timedelta_seconds _); cbn [bind opt_add]; discriminate. }
  destruct (sort_key e2) as [k2 |]; cbn [bind]; [| discriminate].
  destruct (timedelta_seconds (expected_interval_seconds self))
    as [delta |] eqn:Ed; cbn [bind opt_add]; [| discriminate].
  destruct (datetime_add t1 delta) as [en |] eqn:Ea; cbn [bind];
    [| discriminate].
  destruct k2 as [t2 |]; cbn [opt_sub]; [| discriminate].
  destruct (datetime_sub t2 en) as [diff |] eqn:Es; cbn [bind];
    [| discriminate].
  unfold check_gap.
  destruct (is_late self (total_seconds diff)) eqn:El; [| discriminate].
  destruct (intervals_missed self (total_seconds diff)); cbn [bind];
    [| discriminate].
  destruct (_ >=? _); [| discriminate].
  destruct (expected_after en _) as [at_ |] eqn:Eat; cbn [bind];
    [| discriminate].
  intros H. inversion H; subst.
  exists t1, t2, en, diff, at_. repeat split; auto.
  unfold expected_after. now rewrite Ed.
Qed.

Lemma late_pair_facts t1 t2 en diff at_ :
  valid_datetime t1 -> valid_datetime t2 ->
  expected_after t1 (expected_interval_seconds self) = Ok en ->
  datetime_sub t2 en = Ok diff ->
  is_late self (total_seconds diff) = true ->
  expected_after en (expected_interval_seconds self
                     * (allowed_misses self - 1)) = Ok at_ ->
  utc_us t1 + expected_interval_seconds self * US_PER_SECOND < utc_us t2
  /\ ((utc_us t2 - utc_us t1) mod US_PER_SECOND = 0 ->
      19 * expected_interval_seconds self * US_PER_SECOND
      <= 10 * (utc_us t2 - utc_us t1))
  /\ at_ = of_wall_us
             (wall_us t1 + allowed_misses self
                           * expected_interval_seconds self * US_PER_SECOND)
             (tzinfo t1).
Proof.
  intros V1 V2 Hen Hsub Hlate Hat.
  destruct (expected_after_value _ _ _ Hen) as (-> & Hdays & Hrange).
  destruct (expected_after_value _ _ _ Hat) as (-> & _ & _).
  rewrite wall_us_of_wall_us, tzinfo_of_wall_us in *.
  apply datetime_sub_utc in Hsub.
  assert (Hen_utc :
    utc_us (of_wall_us (wall_us t1
                        + expected_interval_seconds self * US_PER_SECOND)
              (tzinfo t1))
    = utc_us t1 + expected_interval_seconds self * US_PER_SECOND).
  { unfold utc_us. rewrite wall_us_of_wall_us, tzinfo_of_wall_us. lia. }
  rewrite Hen_utc in Hsub.
  pose proof (is_late_positive self diff interval_positive Hlate) as Hpos.
  split; [lia |]. split.
  - intros Hwhole.
    set (I := expected_interval_seconds self) in *.
    set (g := utc_us t2 - utc_us t1) in *.
    assert (Hg : g = (g / US_PER_SECOND) * US_PER_SECOND).
    { unfold US_PER_SECOND in *. zlia. }
    set (d := g / US_PER_SECOND - I).
    assert (Hd : diff = d * US_PER_SECOND) by (unfold d; lia).
    pose proof (interval_in_range I interval_positive Hrange) as Hsmall.
    pose proof (utc_us_bounds t1 V1) as B1.
    pose proof (utc_us_bounds t2 V2) as B2.
    assert (Hdb : - 2 ^ 48 < d < 2 ^ 48).
    { change (2 ^ 48) with 281474976710656 in *.
      unfold d, g, US_PER_DAY, US_PER_SECOND, MAXORDINAL in *. zlia. }
    rewrite Hd in Hlate.
    apply (is_late_whole self interval_positive Hsmall d Hdb) in Hlate.
    fold I in Hlate. unfold d in Hlate. unfold US_PER_SECOND in *. lia.
  - f_equal. lia.
Qed.

Lemma scan_alerted name l : forall c a,
  scan self name c l = Ok (Some a) ->
  exists pre cur nxt post c',
    l = pre ++ cur :: nxt :: post
    /\ scan_pair self name c' cur nxt = Ok (Alerted a).
Proof.
  induction l as [| e1 l IH]; intros c a; [discriminate |].
  destruct l as [| e2 l]; [discriminate |].
  rewrite scan_step.
  destruct (scan_pair self name c e1 e2) as [[a1 | c1] |] eqn:E;
    cbn [bind]; [| | discriminate].
  - intros H. inversion H; subst. exists [], e1, e2, l, c. auto.
  - intros H. destruct (IH c1 a H) as (pre & cur & nxt & post & c' & Hl & Hp).
    exists (e1 :: pre), cur, nxt, post, c'. split; [| exact Hp].
    cbn [app]. now rewrite Hl.
Qed.

(** X14.  Every alert of [detect_missed_heartbeats] comes from two
    adjacent events of the list: the second is later than the first by
    more than the expected interval (by at least 1.9 intervals when the
    two are a whole number of seconds apart), and [alert_at] renders the
    timestamp of the first moved forward by [allowed_misses] intervals.
    The alert carries the service of the first event of the list. *)
Theorem alert_comes_from_a_late_pair (l : list pyval) (a : Alert) :
  detect_missed_heartbeats self l = Ok (Some a) ->
  hd_error (map (fun e => py_getitem e "service") l) = Some (Ok (service a))
  /\ exists pre cur nxt post t1 t2,
       l = pre ++ cur :: nxt :: post
       /\ sort_key cur = Ok (Some t1) /\ sort_key nxt = Ok (Some t2)
       /\ utc_us t1 + expected_interval_seconds self * US_PER_SECOND
          < utc_us t2
       /\ ((utc_us t2 - utc_us t1) mod US_PER_SECOND = 0 ->
           19 * expected_interval_seconds self * US_PER_SECOND
           <= 10 * (utc_us t2 - utc_us t1))
       /\ alert_at a
          = strftime_iso_Z
              (of_wall_us
                 (wall_us t1 + allowed_misses self
                               * expected_interval_seconds self
                               * US_PER_SECOND)
                 (tzinfo t1)).
Proof.
  intros Hdet.
  destruct (detect_alert self l a Hdet) as (first & rest & -> & Hsv & _).
  split; [cbn; now rewrite Hsv |].
  cbn [detect_missed_heartbeats] in Hdet. rewrite Hsv in Hdet.
  cbn [bind] in Hdet.
  destruct (scan_alerted _ _ _ _ Hdet)
    as (pre & cur & nxt & post & c' & Hl & Hp).
  destruct (scan_pair_alerted _ _ _ _ _ Hp)
    as (t1 & t2 & en & diff & at_ & H1 & H2 & Hen & Hsub & Hlate & Hat & ->).
  destruct (late_pair_facts t1 t2 en diff at_
              (sort_key_valid _ _ H1) (sort_key_valid _ _ H2)
              Hen Hsub Hlate Hat) as (F1 & F2 & ->).
  exists pre, cur, nxt, post, t1, t2. repeat split; auto.
Qed.

(** ** When [monitor] returns *)

Lemma bind_raise {A B} (c : result A) (k : A -> result B) e :
  bind c k = Raise e -> c = Raise e \/ exists a, c = Ok a /\ k a = Raise e.
Proof.
  destruct c as [a |]; cbn [bind]; intros H.
  - right. exists a. auto.
  - left. now inversion H.
Qed.

Lemma timedelta_seconds_in_time n :
  0 <= n -> n * US_PER_SECOND < (MAXORDINAL + 1) * US_PER_DAY ->
  timedelta_seconds n = Ok (n * US_PER_SECOND).
Proof.
  intros Hn Hlt. unfold timedelta_seconds, mk_timedelta, timedelta_in_range.
  assert (E : (-999999999 <=? n * US_PER_SECOND / US_PER_DAY)
              && (n * US_PER_SECOND / US_PER_DAY <=? 999999999) = true).
  { rewrite andb_true_iff, !Z.leb_le.
    unfold US_PER_DAY, US_PER_SECOND, MAXORDINAL in *. zlia. }
  now rewrite E.
Qed.

Lemma datetime_add_in_time t delta :
  US_PER_DAY <= wall_us t + delta < (MAXORDINAL + 1) * US_PER_DAY ->
  exists u, datetime_add t delta = Ok u.
Proof.
  intros H. unfold datetime_add.
  assert (E : (0 <? (wall_us t + delta) / US_PER_DAY)
              && ((wall_us t + delta) / US_PER_DAY <=? MAXORDINAL) = true).
  { rewrite andb_true_iff, Z.ltb_lt, Z.leb_le.
    generalize (wall_us t + delta) H. intros w Hw.
    unfold US_PER_DAY, US_PER_SECOND, MAXORDINAL in *. zlia. }
  rewrite E. eexists. reflexivity.
Qed.

Lemma expected_after_in_time t n :
  US_PER_DAY <= wall_us t -> 0 <= n ->
  wall_us t + n * US_PER_SECOND < (MAXORDINAL + 1) * US_PER_DAY ->
  exists u, expected_after t n = Ok u.
Proof.
  intros Ht Hn Hlt. unfold expected_after.
  assert (H0 : 0 <= n * US_PER_SECOND) by (unfold US_PER_SECOND; lia).
  rewrite timedelta_seconds_in_time;
    [| exact Hn | unfold US_PER_DAY, US_PER_SECOND in *; lia].
  cbn [bind]. apply datetime_add_in_time. lia.
Qed.

Lemma check_gap_in_time name c en diff :
  0 < allowed_misses self ->
  US_PER_DAY <= wall_us en ->
  wall_us en + expected_interval_seconds self * (allowed_misses self - 1)
               * US_PER_SECOND
  < (MAXORDINAL + 1) * US_PER_DAY ->
  check_gap self name c en diff <> Raise OverflowError.
Proof.
  intros HM Hen Hroom H. unfold check_gap in H.
  destruct (is_late self (total_seconds diff)); [| discriminate].
  destruct (bind_raise _ _ _ H) as [E | (missed & _ & H1)].
  - unfold intervals_missed, float_div in E.
    rewrite (float_of_int_nonzero _ interval_positive) in E. discriminate.
  - destruct (_ >=? _); [| discriminate].
    destruct (expected_after_in_time en
                (expected_interval_seconds self * (allowed_misses self - 1)))
      as [u Hu]; [exact Hen | | exact Hroom |].
    + pose proof interval_positive. nia.
    + rewrite Hu in H1. discriminate.
Qed.

Lemma opt_add_some (t : datetime) (delta : Z) :
  opt_add (Some t) delta = datetime_add t delta.
Proof. reflexivity. Qed.

Lemma opt_sub_some (t u : datetime) :
  opt_sub (Some t) u = datetime_sub t u.
Proof. reflexivity. Qed.

Lemma room_arith (w I M : Z) :
  0 < I -> 0 < M -> US_PER_DAY <= w ->
  w + M * I * US_PER_SECOND < (MAXORDINAL + 1) * US_PER_DAY ->
  I * US_PER_SECOND < (MAXORDINAL + 1) * US_PER_DAY
  /\ US_PER_DAY <= w + I * US_PER_SECOND < (MAXORDINAL + 1) * US_PER_DAY
  /\ w + I * US_PER_SECOND + I * (M - 1) * US_PER_SECOND
     < (MAXORDINAL + 1) * US_PER_DAY.
Proof.
  unfold US_PER_DAY, US_PER_SECOND, MAXORDINAL. intros HI HM Hw Hroom.
  assert (H : I <= M * I) by nia. nia.
Qed.

Lemma scan_pair_in_time name c e1 e2 t1 :
  0 < allowed_misses self ->
  sort_key e1 = Ok (Some t1) -> timed e2 ->
  wall_us t1 + allowed_misses self * expected_interval_seconds self
               * US_PER_SECOND
  < (MAXORDINAL + 1) * US_PER_DAY ->
  scan_pair self name c e1 e2 <> Raise OverflowError.
Proof.
  intros HM H1 [t2 H2] Hroom H.
  pose proof (wall_us_bounds t1 (sort_key_valid _ _ H1)) as [Hw _].
  destruct (room_arith _ _ _ interval_positive HM Hw Hroom)
    as (A1 & A2 & A3).
  unfold scan_pair in H.
  destruct (bind_raise _ _ _ H) as [E | (k1 & E1 & H3)]; [congruence |].
  rewrite H1 in E1. inversion E1; subst k1. clear H E1.
  destruct (bind_raise _ _ _ H3) as [E | (k2 & E2 & H4)]; [congruence |].
  rewrite H2 in E2. inversion E2; subst k2. clear H3 E2.
  rewrite timedelta_seconds_in_time in H4;
    [| apply Z.lt_le_incl, interval_positive | exact A1].
  destruct (bind_raise _ _ _ H4) as [E | (delta & Ed & H4')];
    [discriminate E |].
  injection Ed as <-. clear H4.
  destruct (bind_raise _ _ _ H4') as [E | (en & Een & H5)].
  - destruct (datetime_add_in_time t1
                (expected_interval_seconds self * US_PER_SECOND) A2)
      as [u Hu]. rewrite opt_add_some, Hu in E. discriminate E.
  - rewrite opt_add_some in Een.
    destruct (datetime_add_ok _ _ _ Een) as [Wen _].
    destruct (bind_raise _ _ _ H5) as [E | (diff & _ & H6)].
    + rewrite opt_sub_some in E. unfold datetime_sub in E.
      destruct (tzinfo t2), (tzinfo en); discriminate.
    + revert H6. apply check_gap_in_time; [exact HM | |];
        rewrite Wen; [exact (proj1 A2) | exact A3].
Qed.

Lemma scan_in_time name l : forall c,
  0 < allowed_misses self ->
  (forall e, In e l -> exists t,
     sort_key e = Ok (Some t)
     /\ wall_us t + allowed_misses self * expected_interval_seconds self
                    * US_PER_SECOND
        < (MAXORDINAL + 1) * US_PER_DAY) ->
  scan self name c l <> Raise OverflowError.
Proof.
  induction l as [| e1 l IH]; intros c HM Hl; [discriminate |].
  destruct l as [| e2 l]; [discriminate |].
  rewrite scan_step.
  destruct (Hl e1 (or_introl eq_refl)) as (t1 & H1 & Hroom).
  assert (T2 : timed e2).
  { destruct (Hl e2 (or_intror (or_introl eq_refl))) as (t2 & H2 & _).
    now exists t2. }
  pose proof (scan_pair_in_time name c e1 e2 t1 HM H1 T2 Hroom) as Hp.
  destruct (scan_pair self name c e1 e2) as [[a | c'] | e]; cbn [bind].
  - discriminate.
  - apply IH; [exact HM |]. intros e He. apply Hl. now right.
  - congruence.
Qed.

Lemma collect_alerts_in_time g :
  (forall k l, In (k, l) g ->
     detect_missed_heartbeats self l <> Raise OverflowError) ->
  collect_alerts self g <> Raise OverflowError.
Proof.
  induction g as [| [k l] g IH]; intros Hg; [discriminate |].
  cbn [collect_alerts].
  pose proof (Hg k l (or_introl eq_refl)) as Hd.
  destruct (detect_missed_heartbeats self l) as [o | e]; cbn [bind];
    [| congruence].
  assert (Hc : collect_alerts self g <> Raise OverflowError).
  { apply IH. intros k' l' Hin. apply (Hg k' l'). now right. }
  destruct (collect_alerts self g); cbn [bind]; [discriminate | congruence].
Qed.

(** X15.  [monitor] returns a list of alerts when the interval and the
    threshold are positive, every event passes [validate_event], no
    service has both aware and naive timestamps, and every timestamp,
    moved forward by [allowed_misses] intervals, still lies before the
    end of year 9999. *)
Theorem monitor_returns (events : list pyval) :
  0 < allowed_misses self ->
  Forall (fun e => passes e = true) events ->
  ~ mixed events ->
  (forall e t, In e events -> sort_key e = Ok (Some t) ->
     wall_us t + allowed_misses self * expected_interval_seconds self
                 * US_PER_SECOND
     < (MAXORDINAL + 1) * US_PER_DAY) ->
  exists alerts, monitor self events = Ok alerts.
Proof.
  intros HM Hv Hmix Hroom.
  destruct (monitor self events) as [alerts | e] eqn:Emon;
    [now exists alerts | exfalso].
  destruct (monitor_raise_cases self interval_positive events Hv e Emon)
    as [[_ Hm] | [-> _]]; [now apply Hmix |].
  revert Emon. unfold monitor.
  pose proof (passes_has_service events Hv) as Hs.
  pose proof (passes_timed events Hv) as Ht.
  destruct (group_and_sort_cases events Hs Ht)
    as [(g & -> & Hg & _) | (-> & _)]; cbn [bind]; [| discriminate].
  apply collect_alerts_in_time. intros k l Hin.
  destruct (Hg k l Hin) as (s & -> & Hne & Hp & _).
  destruct l as [| first rest]; [discriminate |].
  cbn [detect_missed_heartbeats].
  assert (Hsub : forall x, In x (first :: rest) -> In x events).
  { intros x Hx. eapply Permutation_in in Hx;
      [| apply Permutation_sym, Hp]. now apply of_service_in in Hx. }
  destruct (proj1 (Forall_forall _ _) Hs first (Hsub _ (or_introl eq_refl)))
    as [s' Hs']. rewrite Hs'. cbn [bind].
  apply scan_in_time; [exact HM |]. intros e He.
  destruct (proj1 (Forall_forall _ _) Ht e (Hsub _ He)) as [t Hte].
  exists t. split; [exact Hte |]. apply (Hroom e t); auto.
Qed.

End Late.

Lemma working_alert_comes_from_the_gap :
  0 < expected_interval_seconds test_monitor
  /\ detect_missed_heartbeats test_monitor working_alert_events
     = Ok (Some (mk_alert (PStr "email") "2025-08-04T10:05:00Z"))
  /\ exists pre cur nxt post t1 t2,
       working_alert_events = pre ++ cur :: nxt :: post
       /\ sort_key cur = Ok (Some t1) /\ sort_key nxt = Ok (Some t2)
       /\ utc_us t1 + expected_interval_seconds test_monitor * US_PER_SECOND
          < utc_us t2
       /\ ((utc_us t2 - utc_us t1) mod US_PER_SECOND = 0 ->
           19 * expected_interval_seconds test_monitor * US_PER_SECOND
           <= 10 * (utc_us t2 - utc_us t1))
       /\ "2025-08-04T10:05:00Z"%string
          = strftime_iso_Z
              (of_wall_us
                 (wall_us t1 + allowed_misses test_monitor
                               * expected_interval_seconds test_monitor
                               * US_PER_SECOND)
                 (tzinfo t1)).
Proof.
  assert (H : detect_missed_heartbeats test_monitor working_alert_events
              = Ok (Some (mk_alert (PStr "email") "2025-08-04T10:05:00Z")))
    by (vm_compute; reflexivity).
  split; [reflexivity |]. split; [exact H |].
  exact (proj2 (alert_comes_from_a_late_pair test_monitor eq_refl _ _ H)).
Defined.

Lemma working_alert_events_in_time :
  0 < expected_interval_seconds test_monitor
  /\ 0 < allowed_misses test_monitor
  /\ Forall (fun e => passes e = true) working_alert_events
  /\ ~ mixed working_alert_events
  /\ exists alerts, monitor test_monitor working_alert_events = Ok alerts.
Proof.
  assert (Hv : Forall (fun e => passes e = true) working_alert_events)
    by (repeat constructor).
  assert (Hm : ~ mixed working_alert_events).
  { intros (e1 & e2 & H1 & H2 & _ & Hne). apply Hne.
    assert (Ha : forall e, In e working_alert_events -> is_aware e = true).
    { intros e He.
      repeat (destruct He as [<- | He]; [reflexivity |]). destruct He. }
    now rewrite (Ha e1 H1), (Ha e2 H2). }
  split; [reflexivity |]. split; [reflexivity |].
  split; [exact Hv |]. split; [exact Hm |].
  apply (monitor_returns test_monitor eq_refl working_alert_events
           eq_refl Hv Hm).
  intros e t He Ht.
  repeat (destruct He as [<- | He];
          [vm_compute in Ht; inversion Ht; subst; reflexivity |]).
  destruct He.
Defined.

(* ===================================================================== *)
(** * Reading [alert_at] back *)
(* ===================================================================== *)

Lemma of_wall_us_valid total tz :
  0 < total / US_PER_DAY <= MAXORDINAL ->
  let t := of_wall_us total tz in
  check_date_fields (year t) (month t) (day t) = true
  /\ check_time_fields (hour t) (minute t) (second t) 0 = true
  /\ (364877 < total / US_PER_DAY -> 1000 <= year t).
Proof.
  intros Hdays. unfold of_wall_us.
  pose proof (ord2ymd_valid (total / US_PER_DAY) ltac:(lia)) as Ho.
  destruct (ord2ymd (total / US_PER_DAY)) as [[y m] d].
  cbn [year month day hour minute second].
  split; [exact (proj1 Ho) |]. split; [| exact (proj2 Ho)].
  unfold check_time_fields. rewrite !andb_true_iff, !Z.leb_le.
  unfold US_PER_DAY, US_PER_SECOND. zlia.
Qed.

(** [parse_timestamp] reads the text of [strftime] back: the same wall
    clock, at offset zero. *)
Lemma parse_strftime t :
  check_date_fields (year t) (month t) (day t) = true ->
  check_time_fields (hour t) (minute t) (second t) 0 = true ->
  1000 <= year t ->
  parse_timestamp (PStr (strftime_iso_Z t))
  = Ok (Some (mk_datetime (year t) (month t) (day t)
                (hour t) (minute t) (second t) 0 (Some 0))).
Proof.
  intros Hd Ht Hy.
  destruct (fromisoformat_iso_text _ _ _ _ _ _ Hd Ht) as [_ Hz].
  rewrite (strftime_iso_Z_text _ Hy).
  set (text := iso_text (year t) (month t) (day t)
                 (hour t) (minute t) (second t)) in *.
  assert (E : string_of_list_ascii (text ++ ["Z"%char])
              = (string_of_list_ascii text ++ "Z")%string).
  { rewrite <- (string_of_chars (string_of_list_ascii text ++ "Z")).
    now rewrite chars_append, chars_of_list. }
  rewrite E, parse_timestamp_str, endswith_Z_app, drop_last_app.
  now rewrite Hz.
Qed.

Lemma strftime_read_back t :
  check_date_fields (year t) (month t) (day t) = true ->
  check_time_fields (hour t) (minute t) (second t) 0 = true ->
  1000 <= year t ->
  exists t', parse_timestamp (PStr (strftime_iso_Z t)) = Ok (Some t')
             /\ tzinfo t' = Some 0 /\ microsecond t' = 0
             /\ 1000 <= year t'
             /\ strftime_iso_Z t' = strftime_iso_Z t.
Proof.
  intros Vd Vt Vy.
  exists (mk_datetime (year t) (month t) (day t)
            (hour t) (minute t) (second t) 0 (Some 0)).
  split; [now apply parse_strftime |].
  split; [reflexivity |]. split; [reflexivity |].
  split; [exact Vy |].
  rewrite !strftime_iso_Z_text by exact Vy. reflexivity.
Qed.

Lemma shift_nonneg I M :
  0 < I -> 0 < M -> 0 <= I * US_PER_SECOND + I * (M - 1) * US_PER_SECOND.
Proof. intros HI HM. unfold US_PER_SECOND. nia. Qed.

Section ReadBack.

Variable self : HeartbeatMonitor.
Hypothesis interval_positive : 0 < expected_interval_seconds self.
Hypothesis threshold_positive : 0 < allowed_misses self.

(** With timestamps from year 1000 on, the time an alert renders has
    valid fields and a year of four digits. *)
Lemma alert_time_of_monitor (events : list pyval) (alerts : list Alert)
    (a : Alert) :
  (forall e t, In e events -> sort_key e = Ok (Some t) -> 1000 <= year t) ->
  monitor self events = Ok alerts -> In a alerts ->
  exists t, alert_at a = strftime_iso_Z t
            /\ check_date_fields (year t) (month t) (day t) = true
            /\ check_time_fields (hour t) (minute t) (second t) 0 = true
            /\ 1000 <= year t.
Proof.
  intros Hyear Hmon Ha.
  destruct (monitor_inv _ _ _ Hmon) as (g & Hg & Hc).
  destruct (collect_alerts_in self g alerts a Hc Ha) as (k & l & Hkl & Hdet).
  destruct (detect_alert self l a Hdet) as (first & rest & El & Hsv & _).
  rewrite El in Hdet.
  cbn [detect_missed_heartbeats] in Hdet. rewrite Hsv in Hdet.
  cbn [bind] in Hdet.
  destruct (scan_alerted self _ _ _ _ Hdet)
    as (pre & cur & nxt & post & c' & Hsplit & Hp).
  destruct (scan_pair_alerted self _ _ _ _ _ Hp)
    as (t1 & t2 & en & diff & at_ & H1 & _ & Hen & _ & _ & Hat & ->).
  assert (Hcur : In cur events).
  { apply (group_member_in_events events g k l cur Hg Hkl).
    rewrite El, Hsplit. apply in_or_app. right. now left. }
  pose proof (Hyear cur t1 Hcur H1) as Y1.
  pose proof (sort_key_valid _ _ H1) as V1.
  pose proof (year_1000_ordinal _ _ _ (proj1 V1) Y1) as O1.
  pose proof (wall_us_ordinal t1 V1) as W1.
  destruct (expected_after_ok _ _ _ Hen) as [Wen _].
  destruct (expected_after_value _ _ _ Hat) as (-> & Hdays & _).
  destruct (of_wall_us_valid _ (tzinfo en) Hdays) as (Vd & Vt & Vy).
  assert (Y : 364877 < (wall_us en
                        + expected_interval_seconds self
                          * (allowed_misses self - 1) * US_PER_SECOND)
                       / US_PER_DAY).
  { rewrite Wen.
    pose proof (shift_nonneg _ _ interval_positive threshold_positive) as H0.
    eapply Z.lt_le_trans; [exact O1 |].
    eapply Z.le_trans; [exact W1 |].
    apply Z.div_le_mono; [reflexivity | lia]. }
  specialize (Vy Y). cbn [alert_at].
  eexists. split; [reflexivity |]. auto.
Qed.

(** X2.  With a positive interval and threshold and timestamps from
    year 1000 on (the C library prints an earlier year with fewer than
    four digits), every alert [monitor] returns carries a text of the
    shape [YYYY-MM-DDTHH:MM:SSZ]: second precision and a trailing [Z]. *)
Theorem monitor_alert_at_shape (events : list pyval) (alerts : list Alert)
    (a : Alert) :
  (forall e t, In e events -> sort_key e = Ok (Some t) -> 1000 <= year t) ->
  monitor self events = Ok alerts -> In a alerts ->
  iso_Z_shape (alert_at a) = true.
Proof.
  intros Hyear Hmon Ha.
  destruct (alert_time_of_monitor events alerts a Hyear Hmon Ha)
    as (t & -> & _ & _ & Vy).
  now apply strftime_iso_Z_shape.
Qed.

(** X16.  With a positive interval and threshold and timestamps from
    year 1000 on (the C library prints an earlier year with fewer than
    four digits), every [alert_at] that [monitor] returns is a text
    [parse_timestamp] accepts: it reads it as an aware datetime at
    offset zero whose rendering is the same text again. *)
Theorem alert_at_parses_back (events : list pyval) (alerts : list Alert)
    (a : Alert) :
  (forall e t, In e events -> sort_key e = Ok (Some t) -> 1000 <= year t) ->
  monitor self events = Ok alerts -> In a alerts ->
  exists t, parse_timestamp (PStr (alert_at a)) = Ok (Some t)
            /\ tzinfo t = Some 0 /\ microsecond t = 0
            /\ 1000 <= year t
            /\ strftime_iso_Z t = alert_at a.
Proof.
  intros Hyear Hmon Ha.
  destruct (alert_time_of_monitor events alerts a Hyear Hmon Ha)
    as (t & -> & Vd & Vt & Vy).
  now apply strftime_read_back.
Qed.

End ReadBack.

Lemma working_alert_text_shape :
  0 < expected_interval_seconds test_monitor
  /\ 0 < allowed_misses test_monitor
  /\ monitor test_monitor working_alert_events
     = Ok [mk_alert (PStr "email") "2025-08-04T10:05:00Z"]
  /\ iso_Z_shape "2025-08-04T10:05:00Z" = true.
Proof.
  split; [reflexivity |]. split; [reflexivity |].
  split; [vm_compute; reflexivity |].
  apply (monitor_alert_at_shape test_monitor eq_refl eq_refl
           working_alert_events
           [mk_alert (PStr "email") "2025-08-04T10:05:00Z"]
           (mk_alert (PStr "email") "2025-08-04T10:05:00Z")).
  - intros e t He Ht.
    repeat (destruct He as [<- | He]; [vm_compute in Ht; inversion Ht; subst;
                                       vm_compute; discriminate |]).
    destruct He.
  - vm_compute. reflexivity.
  - now left.
Defined.

Lemma working_alert_parses_back :
  0 < expected_interval_seconds test_monitor
  /\ 0 < allowed_misses test_monitor
  /\ monitor test_monitor working_alert_events
     = Ok [mk_alert (PStr "email") "2025-08-04T10:05:00Z"]
  /\ exists t, parse_timestamp (PStr "2025-08-04T10:05:00Z") = Ok (Some t)
               /\ tzinfo t = Some 0 /\ microsecond t = 0
               /\ 1000 <= year t
               /\ strftime_iso_Z t = "2025-08-04T10:05:00Z"%string.
Proof.
  split; [reflexivity |]. split; [reflexivity |].
  split; [vm_compute; reflexivity |].
  apply (alert_at_parses_back test_monitor eq_refl eq_refl
           working_alert_events
           [mk_alert (PStr "email") "2025-08-04T10:05:00Z"]
           (mk_alert (PStr "email") "2025-08-04T10:05:00Z")).
  - intros e t He Ht.
    repeat (destruct He as [<- | He]; [vm_compute in Ht; inversion Ht; subst;
                                       vm_compute; discriminate |]).
    destruct He.
  - vm_compute. reflexivity.
  - now left.
Defined.

(* ===================================================================== *)
(** * The counter *)
(* ===================================================================== *)

(** A quotient of at least nine tenths, less two roundings, is rounded
    to an integer that is at least one. *)
Lemma late_quotient_rounds_up (td f : Q) :
  (0 < f)%Q ->
  (round53 (f * C09) <= td)%Q ->
  1 <= rhe (round53 (td / f)).
Proof.
  intros Hf Hle.
  assert (Hx : (0 < f * C09)%Q).
  { apply Qmult_lt_0_compat; [exact Hf | reflexivity]. }
  destruct (round53_error (f * C09) Hx) as [E1 _].
  assert (Htd : (f * ((8106479329266893 # 9007199254740992)
                      * (9007199254740991 # 9007199254740992)) <= td)%Q).
  { unfold C09 in *. generalize dependent (round53 (f * (8106479329266893 # 9007199254740992))).
    intros r Hr E. lra. }
  assert (Hy : ((8106479329266893 # 9007199254740992)
                * (9007199254740991 # 9007199254740992) <= td / f)%Q).
  { apply Qle_shift_div_l; [exact Hf |]. lra. }
  assert (Hy0 : (0 < td / f)%Q).
  { eapply Qlt_le_trans; [| exact Hy]. reflexivity. }
  destruct (round53_error (td / f) Hy0) as [E2 _].
  destruct (rhe_error (round53 (td / f))) as [E3 _].
  generalize dependent (round53 (td / f)). intros q E2 E3.
  generalize dependent (td / f)%Q. intros y Hy Hy0 E2.
  assert (H : (0 < inject_Z (rhe q))%Q) by lra.
  change 0%Q with (inject_Z 0) in H. rewrite <- Zlt_Qlt in H. lia.
Qed.

Section Counter.

Variable self : HeartbeatMonitor.
Hypothesis interval_positive : 0 < expected_interval_seconds self.

Lemma late_gap_counts diff :
  is_late self (total_seconds diff) = true ->
  exists missed,
    intervals_missed self (total_seconds diff) = Ok missed /\ 1 <= missed.
Proof.
  intros Hlate. unfold intervals_missed, float_div.
  rewrite (float_of_int_nonzero _ interval_positive). cbn [bind].
  eexists. split; [reflexivity |]. unfold py_round.
  apply late_quotient_rounds_up.
  - apply round53_pos. now apply inject_Z_pos.
  - unfold is_late, float_ge, float_mul in Hlate.
    apply Qle_bool_iff in Hlate. now rewrite FLOAT_0_9_value in Hlate.
Qed.

(** X17.  With a positive interval, a turn of the loop that goes on
    leaves [consecutive_misses] either at 0 (the gap was not late) or
    higher than it was and still below [allowed_misses] (a late gap
    counts for at least one miss). *)
Theorem counter_resets_or_grows name c e1 e2 c' :
  scan_pair self name c e1 e2 = Ok (Continue c') ->
  c' = 0 \/ c < c' < allowed_misses self.
Proof.
  unfold scan_pair. intros H.
  destruct (bind_inv _ _ _ H) as (k1 & _ & H1).
  destruct (bind_inv _ _ _ H1) as (k2 & _ & H2).
  destruct (bind_inv _ _ _ H2) as (delta & _ & H3).
  destruct (bind_inv _ _ _ H3) as (en & _ & H4).
  destruct (bind_inv _ _ _ H4) as (diff & _ & H5).
  clear - H5 interval_positive. unfold check_gap in H5.
  destruct (is_late self (total_seconds diff)) eqn:El.
  - destruct (late_gap_counts diff El) as (missed & Hm & Hpos).
    rewrite Hm in H5. cbn [bind] in H5.
    destruct (Z.geb_spec (c + missed) (allowed_misses self)) as [Hge | Hlt].
    + destruct (expected_after en _); cbn [bind] in H5; discriminate.
    + inversion H5; subst. right. lia.
  - inversion H5; subst. now left.
Qed.

End Counter.

Lemma two_misses_are_counted :
  0 < expected_interval_seconds test_monitor
  /\ scan_pair test_monitor (PStr "monitor") 0
       (event "monitor" "2025-08-04T10:00:00Z")
       (event "monitor" "2025-08-04T10:03:00Z") = Ok (Continue 2)
  /\ (2 = 0 \/ 0 < 2 < allowed_misses test_monitor).
Proof.
  split; [reflexivity |].
  assert (H : scan_pair test_monitor (PStr "monitor") 0
                (event "monitor" "2025-08-04T10:00:00Z")
                (event "monitor" "2025-08-04T10:03:00Z") = Ok (Continue 2))
    by (vm_compute; reflexivity).
  split; [exact H |].
  exact (counter_resets_or_grows test_monitor eq_refl _ _ _ _ _ H).
Defined.

(* ===================================================================== *)
(** * The gap scanner against the specification *)
(* ===================================================================== *)

(** A deviation below nine tenths of the interval fails the late test,
    for intervals up to 2^32 seconds: the deviation is a whole number of
    microseconds, so it stays a microsecond below the tolerance, more
    than the rounding of the two floats can bridge. *)
Lemma is_late_below self us :
  0 < expected_interval_seconds self <= 2 ^ 32 ->
  10 * us < 9 * (expected_interval_seconds self * US_PER_SECOND) ->
  is_late self (total_seconds us) = false.
Proof.
  intros [HI1 HI2] Hbelow.
  assert (HI3 : expected_interval_seconds self < 2 ^ 48) by lia.
  destruct (Z_lt_le_dec us 0) as [Hneg | Hnn];
    [now apply is_late_negative |].
  apply not_true_iff_false. intros Hc.
  unfold is_late, float_ge in Hc.
  rewrite (threshold_eq self HI1 HI3) in Hc.
  apply Qle_bool_iff in Hc.
  pose proof (threshold_pos self HI1 HI3) as Tp.
  pose proof (threshold_bounds self HI1 HI3) as [T1 _].
  cbv zeta in T1.
  destruct (I_bounds self HI1 HI3) as [Ib1 _].
  assert (Ib2 : (inject_Z (expected_interval_seconds self) <= 4294967296)%Q).
  { change 4294967296%Q with (inject_Z (2 ^ 32)). now rewrite <- Zle_Qle. }
  unfold total_seconds, int_truediv, US_PER_SECOND in Hc.
  destruct (Z.eq_dec us 0) as [-> | Hnz].
  - change (round53 (inject_Z 0 / inject_Z 1000000)) with 0%Q in Hc. lra.
  - assert (Hus : (0 < inject_Z us)%Q) by (apply inject_Z_pos; lia).
    assert (Hx : (0 < inject_Z us / inject_Z 1000000)%Q).
    { apply Qlt_shift_div_l; [reflexivity | now rewrite Qmult_0_l]. }
    pose proof (round53_error _ Hx) as [_ X2].
    assert (Hq : (10 * inject_Z us + 10
                  <= 9000000 * inject_Z (expected_interval_seconds self))%Q).
    { change 10%Q with (inject_Z 10).
      change 9000000%Q with (inject_Z 9000000).
      rewrite <- !inject_Z_mult, <- inject_Z_plus, <- Zle_Qle.
      unfold US_PER_SECOND in Hbelow. lia. }
    assert (Hd : (inject_Z us / inject_Z 1000000 * 1000000 == inject_Z us)%Q)
      by (change (inject_Z 1000000) with 1000000%Q; field).
    revert Hc X2 Hd.
    generalize (round53 (inject_Z us / inject_Z 1000000)).
    generalize (inject_Z us / inject_Z 1000000)%Q.
    revert T1 Tp.
    generalize (round53 (inject_Z (expected_interval_seconds self) * C09)).
    intros T T1 Tp x x' Hc X2 Hd.
    unfold C09 in T1. lra.
Qed.




Lemma utc_us_sum t n u :
  wall_us u = wall_us t + n * US_PER_SECOND -> tzinfo u = tzinfo t ->
  utc_us u = utc_us t + n * US_PER_SECOND.
Proof. unfold utc_us. intros -> ->. lia. Qed.


Lemma datetime_sub_kind a b diff :
  datetime_sub a b = Ok diff -> (tzinfo a = None <-> tzinfo b = None).
Proof.
  unfold datetime_sub.
  destruct (tzinfo a), (tzinfo b); try discriminate; intros _; split;
    congruence.
Qed.


(** What the success of [expected_after] and of the subtraction tell
    about a pair: the interval is below 2^48 seconds and the deviation
    is the difference of the two instants less the interval. *)
Lemma pair_bounds I t1 t2 en diff :
  0 < I ->
  valid_datetime t1 -> valid_datetime t2 ->
  expected_after t1 I = Ok en ->
  datetime_sub t2 en = Ok diff ->
  I < 2 ^ 48
  /\ diff = deviation I t1 t2
  /\ - 2 ^ 48 * US_PER_SECOND < diff < 2 ^ 48 * US_PER_SECOND.
Proof.
  intros HI V1 V2 He Hs.
  destruct (expected_after_value _ _ _ He) as (_ & Hdays & Hrange).
  destruct (expected_after_ok _ _ _ He) as [Hw Htz].
  pose proof (interval_in_range I HI Hrange) as HI2.
  pose proof (datetime_sub_utc _ _ _ Hs) as ->.
  rewrite (utc_us_sum t1 I en Hw Htz).
  pose proof (utc_us_bounds t1 V1) as B1.
  pose proof (utc_us_bounds t2 V2) as B2.
  split; [exact HI2 |]. split; [unfold deviation; reflexivity |].
  revert B1 B2 HI HI2. unfold MAXORDINAL, US_PER_DAY, US_PER_SECOND.
  generalize (utc_us t1) (utc_us t2). intros u1 u2 B1 B2 HI HI2.
  change (2 ^ 48) with 281474976710656 in *.
  assert (I * 1000000 <= (wall_us t1 + I * US_PER_SECOND)).
  { pose proof (wall_us_bounds t1 V1) as Bw.
    unfold US_PER_DAY, US_PER_SECOND in *. lia. }
  assert (wall_us t1 + I * US_PER_SECOND < (MAXORDINAL + 1) * US_PER_DAY).
  { revert Hdays. generalize (wall_us t1 + I * US_PER_SECOND).
    unfold MAXORDINAL, US_PER_DAY, US_PER_SECOND. intros w Hdays. zlia. }
  unfold MAXORDINAL, US_PER_DAY, US_PER_SECOND in *. lia.
Qed.

(** ** The late-arrival policy *)

(** C3, amended.  For an adjacent pair whose deviation [next -
    (current + expected_interval)] is a whole number [d] of seconds, the
    loop treats the gap as missed exactly when [d >= 0.9 *
    expected_interval]: then it adds to [consecutive_misses] the integer
    nearest to [d / expected_interval] (a half-way case going to the
    even integer) and alerts when the sum reaches [allowed_misses];
    otherwise it resets the counter. *)
Theorem late_policy_on_whole_seconds (self : HeartbeatMonitor)
    (name : pyval) (c : Z) (cur nxt : pyval) (t1 t2 expected_next : datetime)
    (d : Z) :
  0 < expected_interval_seconds self ->
  sort_key cur = Ok (Some t1) ->
  sort_key nxt = Ok (Some t2) ->
  expected_after t1 (expected_interval_seconds self) = Ok expected_next ->
  datetime_sub t2 expected_next = Ok (d * US_PER_SECOND) ->
  let missed := nearest_even d (expected_interval_seconds self) in
  (is_late self (total_seconds (d * US_PER_SECOND)) = true
   <-> 9 * expected_interval_seconds self <= 10 * d)
  /\ (9 * expected_interval_seconds self <= 10 * d ->
      intervals_missed self (total_seconds (d * US_PER_SECOND)) = Ok missed)
  /\ 2 * Z.abs (missed * expected_interval_seconds self - d)
     <= expected_interval_seconds self
  /\ scan_pair self name c cur nxt =
       if 9 * expected_interval_seconds self <=? 10 * d then
         if c + missed >=? allowed_misses self then
           alert_time <- expected_after expected_next
                           (expected_interval_seconds self
                            * (allowed_misses self - 1)) ;;
           Ok (Alerted (mk_alert name (strftime_iso_Z alert_time)))
         else Ok (Continue (c + missed))
       else Ok (Continue 0).
Proof.
  intros HI H1 H2 He Hs missed.
  destruct (pair_bounds _ t1 t2 expected_next _ HI
              (sort_key_valid _ _ H1) (sort_key_valid _ _ H2) He Hs)
    as (HI2 & _ & Hd).
  assert (Hd' : - 2 ^ 48 < d < 2 ^ 48)
    by (unfold US_PER_SECOND in Hd; lia).
  split; [apply is_late_whole; assumption |].
  split; [intros Hlate; apply intervals_missed_whole;
          [assumption | assumption | lia] |].
  split; [apply nearest_even_is_nearest; exact HI |].
  apply (scan_pair_whole_seconds self name c cur nxt t1 t2 expected_next d);
    auto.
Qed.

(** Interval 60, three allowed misses: after 10:02 the heartbeat of
    10:06 deviates by 180 s, three intervals, and the loop alerts. *)
Lemma late_policy_three_minutes :
  is_late test_monitor (total_seconds (180 * US_PER_SECOND)) = true
  /\ intervals_missed test_monitor (total_seconds (180 * US_PER_SECOND))
     = Ok 3
  /\ scan_pair test_monitor (PStr "email") 0
       (event "email" "2025-08-04T10:02:00Z")
       (event "email" "2025-08-04T10:06:00Z")
     = Ok (Alerted (mk_alert (PStr "email") "2025-08-04T10:05:00Z"))
  /\ scan_pair test_monitor (PStr "email") 0
       (event "email" "2025-08-04T10:00:00Z")
       (event "email" "2025-08-04T10:01:53Z")
     = Ok (Continue 0)
  /\ scan_pair test_monitor (PStr "email") 1
       (event "email" "2025-08-04T10:00:00Z")
       (event "email" "2025-08-04T10:01:54Z")
     = Ok (Continue 2).
Proof.
  destruct (late_policy_on_whole_seconds test_monitor (PStr "email") 0
              (event "email" "2025-08-04T10:02:00Z")
              (event "email" "2025-08-04T10:06:00Z")
              (utc 2025 8 4 10 2 0) (utc 2025 8 4 10 6 0)
              (utc 2025 8 4 10 3 0) 180
              eq_refl eq_refl eq_refl eq_refl eq_refl)
    as (Hlate & Hmiss & _ & Hpair).
  split; [apply Hlate; simpl; lia |].
  split; [apply Hmiss; simpl; lia |].
  split; [rewrite Hpair; vm_compute; reflexivity |].
  split.
  - rewrite (proj2 (proj2 (proj2
      (late_policy_on_whole_seconds test_monitor (PStr "email") 0
         (event "email" "2025-08-04T10:00:00Z")
         (event "email" "2025-08-04T10:01:53Z")
         (utc 2025 8 4 10 0 0) (utc 2025 8 4 10 1 53)
         (utc 2025 8 4 10 1 0) 53
         eq_refl eq_refl eq_refl eq_refl eq_refl)))).
    vm_compute. reflexivity.
  - rewrite (proj2 (proj2 (proj2
      (late_policy_on_whole_seconds test_monitor (PStr "email") 1
         (event "email" "2025-08-04T10:00:00Z")
         (event "email" "2025-08-04T10:01:54Z")
         (utc 2025 8 4 10 0 0) (utc 2025 8 4 10 1 54)
         (utc 2025 8 4 10 1 0) 54
         eq_refl eq_refl eq_refl eq_refl eq_refl)))).
    vm_compute. reflexivity.
Defined.

(** ** The reset *)

(** A pair that resets the counter cuts the sequence in two parts that
    are scanned independently. *)
Lemma scan_through_reset self name cur nxt :
  (forall c, scan_pair self name c cur nxt = Ok (Continue 0)) ->
  forall before after,
    scan self name 0 (before ++ [cur]) = Ok None ->
    scan self name 0 (nxt :: after) = Ok None ->
    scan self name 0 (before ++ cur :: nxt :: after) = Ok None.
Proof.
  intros Hreset before after. generalize 0 at 1 3 as c.
  induction before as [| e before IH]; intros c Hb Ha.
  - cbn [app scan]. rewrite Hreset. exact Ha.
  - destruct before as [| e' before'].
    + cbn [app scan] in Hb |- *.
      destruct (scan_pair self name c e cur) as [[a | c1] |];
        cbn [bind] in Hb |- *; try discriminate.
      rewrite Hreset. exact Ha.
    + change ((e :: e' :: before') ++ [cur])
        with (e :: e' :: (before' ++ [cur])) in Hb.
      change ((e :: e' :: before') ++ cur :: nxt :: after)
        with (e :: e' :: (before' ++ cur :: nxt :: after)).
      cbn [scan] in Hb |- *.
      destruct (scan_pair self name c e e') as [[a | c1] |];
        cbn [bind] in Hb |- *; try discriminate.
      apply (IH c1); assumption.
Qed.

(** C4, as stated, fails for very long intervals.  Interval 2 * 10^10 s
    and a heartbeat one microsecond short of nine tenths of an interval
    late: [total_seconds] rounds the deviation up to the tolerance
    itself, the gap is counted as one miss and the counter is not
    reset; with one allowed miss the on-time heartbeat raises an
    alert. *)
Lemma rounded_deviation_counts_as_a_miss :
  datetime_sub (mk_datetime 2204 3 4 19 33 19 999999 (Some 0))
               (utc 1633 10 10 11 33 20) = Ok 17999999999999999
  /\ (10 * 17999999999999999 <? 9 * (20000000000 * US_PER_SECOND)) = true
  /\ is_late (mk_monitor 20000000000 3) (total_seconds 17999999999999999)
     = true
  /\ scan_pair (mk_monitor 20000000000 3) (PStr "a") 0
       (event "a" "1000-01-01T00:00:00Z")
       (event "a" "2204-03-04T19:33:19.999999Z") = Ok (Continue 1)
  /\ monitor (mk_monitor 20000000000 1)
       [event "a" "1000-01-01T00:00:00Z";
        event "a" "2204-03-04T19:33:19.999999Z"]
     = Ok [mk_alert (PStr "a") "1633-10-10T11:33:20Z"].
Proof. vm_compute. repeat split. Qed.

(** C4, amended.  For an interval of at most 2^32 seconds, or a
    deviation of a whole number of seconds, a pair whose deviation is
    below nine tenths of the interval makes the loop go on with
    [consecutive_misses = 0] whatever the counter was; so when the
    events up to [cur] raise no alert and the events from [nxt] on raise
    none either, the whole sequence raises none: misses counted before
    the on-time heartbeat are never added to misses after it. *)
Theorem on_time_heartbeat_resets_the_streak (self : HeartbeatMonitor)
    (name : pyval) (cur nxt : pyval) (t1 t2 expected_next : datetime)
    (diff : Z) :
  0 < expected_interval_seconds self ->
  sort_key cur = Ok (Some t1) ->
  sort_key nxt = Ok (Some t2) ->
  expected_after t1 (expected_interval_seconds self) = Ok expected_next ->
  datetime_sub t2 expected_next = Ok diff ->
  expected_interval_seconds self <= 2 ^ 32 \/ diff mod US_PER_SECOND = 0 ->
  10 * diff < 9 * (expected_interval_seconds self * US_PER_SECOND) ->
  (forall c, scan_pair self name c cur nxt = Ok (Continue 0))
  /\ (forall before after,
        scan self name 0 (before ++ [cur]) = Ok None ->
        scan self name 0 (nxt :: after) = Ok None ->
        scan self name 0 (before ++ cur :: nxt :: after) = Ok None).
Proof.
  intros HI H1 H2 He Hs Hcase Hbelow.
  assert (Hlate : is_late self (total_seconds diff) = false).
  { destruct Hcase as [Hsmall | Hwhole].
    - apply is_late_below; [lia | exact Hbelow].
    - destruct (pair_bounds _ t1 t2 expected_next _ HI
                  (sort_key_valid _ _ H1) (sort_key_valid _ _ H2) He Hs)
        as (HI2 & _ & Hd).
      assert (Ed : diff = diff / US_PER_SECOND * US_PER_SECOND).
      { revert Hwhole. unfold US_PER_SECOND. intros Hwhole. zlia. }
      rewrite Ed. apply not_true_iff_false. intros Hc.
      apply (is_late_whole self HI HI2) in Hc.
      + revert Hbelow Hc. rewrite Ed at 1.
        generalize (diff / US_PER_SECOND). unfold US_PER_SECOND.
        intros d Hbelow Hc. lia.
      + revert Hd. rewrite Ed at 1 2.
        generalize (diff / US_PER_SECOND). unfold US_PER_SECOND.
        intros d Hd. lia. }
  assert (Hreset : forall c, scan_pair self name c cur nxt = Ok (Continue 0)).
  { intros c.
    rewrite (scan_pair_known self name c cur nxt t1 t2 expected_next diff
               H1 H2 He Hs).
    unfold check_gap. rewrite Hlate. reflexivity. }
  split; [exact Hreset |]. now apply scan_through_reset.
Qed.

(** The fixture of [test_recovery_after_misses]: the heartbeat of 10:04
    follows the one of 10:03 on time and resets the counter, and the
    two misses before it and the two after it raise no alert. *)
Lemma recovery_after_misses_no_alert :
  (forall c,
     scan_pair test_monitor (PStr "monitor") c
       (event "monitor" "2025-08-04T10:03:00Z")
       (event "monitor" "2025-08-04T10:04:00Z") = Ok (Continue 0))
  /\ scan test_monitor (PStr "monitor") 0 recovery_events = Ok None.
Proof.
  destruct (on_time_heartbeat_resets_the_streak test_monitor (PStr "monitor")
              (event "monitor" "2025-08-04T10:03:00Z")
              (event "monitor" "2025-08-04T10:04:00Z")
              (utc 2025 8 4 10 3 0) (utc 2025 8 4 10 4 0)
              (utc 2025 8 4 10 4 0) 0
              eq_refl eq_refl eq_refl eq_refl eq_refl)
    as [Hreset Hcompose].
  - left. vm_compute. discriminate.
  - reflexivity.
  - split; [exact Hreset |].
    apply (Hcompose [event "monitor" "2025-08-04T10:00:00Z"]
                    [event "monitor" "2025-08-04T10:05:00Z";
                     event "monitor" "2025-08-04T10:08:00Z"]);
      vm_compute; reflexivity.
Defined.

(** ** The first qualifying gap *)






